(** * TacOS (Nachos-RiscV): the machine emulation and the synchronous disk driver

    A shallow embedding of [machine/machine.cc] (endianness check, machine
    constructor, [RaiseException], [OneInstruction]) and of
    [drivers/drvDisk.cc], followed by the properties established for them.
    The string, memory and formatting functions of the user library
    [userlib/libnachos.c] are embedded as well, in the module [Libnachos].

    Conventions of the embedding.
    - A C++ integer of width [w] is a [Z] kept in the range of its type;
      every assignment or arithmetic result is brought back into range by
      [to_int w] (signed) or [to_uint w] (unsigned). Signed overflow wraps
      around, as it does on the two's complement hosts the simulator runs on.
    - Arrays ([int_registers], [float_registers], [shiftMask], [mainMemory])
      are lists, read with [!!!] and written with [<[ i := v ]>]. Register
      numbers come from the 5-bit fields of the decoded instruction.
    - An integer division by zero or of [INT_MIN] by [-1], which C++ leaves
      undefined and the host answers with a trap, is the outcome
      [Undefined].
    - A 32-bit shift whose count is outside 0..31 and a read of [shiftMask]
      outside its 64 entries are undefined in C++ as well, but the
      simulator checks neither and goes on with the value the host leaves:
      these values are the parameters [host_shift_right] and
      [host_shiftMask] of the section [Interpreter].
    - The MMU, the instruction decoder, the kernel's exception handler and the
      statistics live in other files; they are parameters of the section
      [Interpreter]. *)

From Stdlib Require Import ZArith Lia Bool.
From stdpp Require Import base tactics option list strings gmap.

Local Open Scope Z_scope.

(** ** Fixed-width integers *)

Module Int.

Definition to_uint (w x : Z) : Z := x mod 2 ^ w.

Definition to_int (w x : Z) : Z := (x + 2 ^ (w - 1)) mod 2 ^ w - 2 ^ (w - 1).

Definition uint8 := to_uint 8.
Definition uint32 := to_uint 32.
Definition uint64 := to_uint 64.
Definition int8 := to_int 8.
Definition int16 := to_int 16.
Definition int32 := to_int 32.
Definition int64 := to_int 64.
Definition int128 := to_int 128.

Definition INT64_MIN : Z := - 2 ^ 63.
Definition INT64_MAX : Z := 2 ^ 63 - 1.
Definition INT32_MIN : Z := - 2 ^ 31.

(** [b ? 1 : 0], and the conversion of a C++ [bool] to an integer. *)
Definition of_bool (b : bool) : Z := if b then 1 else 0.

End Int.

Import Int.

(** ** Instruction encodings *)

(** Modelled from the spec: the opcode and function-code constants of
    [machine/instruction.h], which is not part of the sources at hand. The
    spec has the interpreter follow the RISC-V conventions, so the constants
    carry the values of the RISC-V base, M and F encodings. *)
Module ISA.

Definition RISCV_LUI : Z := 0x37.
Definition RISCV_AUIPC : Z := 0x17.
Definition RISCV_JAL : Z := 0x6f.
Definition RISCV_JALR : Z := 0x67.
Definition RISCV_BR : Z := 0x63.
Definition RISCV_LD : Z := 0x03.
Definition RISCV_ST : Z := 0x23.
Definition RISCV_OPI : Z := 0x13.
Definition RISCV_OPIW : Z := 0x1b.
Definition RISCV_OP : Z := 0x33.
Definition RISCV_OPW : Z := 0x3b.
Definition RISCV_SYSTEM : Z := 0x73.
Definition RISCV_FLW : Z := 0x07.
Definition RISCV_FSW : Z := 0x27.
Definition RISCV_FMADD : Z := 0x43.
Definition RISCV_FMSUB : Z := 0x47.
Definition RISCV_FNMSUB : Z := 0x4b.
Definition RISCV_FNMADD : Z := 0x4f.
Definition RISCV_FP : Z := 0x53.

Definition RISCV_BR_BEQ : Z := 0.
Definition RISCV_BR_BNE : Z := 1.
Definition RISCV_BR_BLT : Z := 4.
Definition RISCV_BR_BGE : Z := 5.
Definition RISCV_BR_BLTU : Z := 6.
Definition RISCV_BR_BGEU : Z := 7.

Definition RISCV_LD_LB : Z := 0.
Definition RISCV_LD_LH : Z := 1.
Definition RISCV_LD_LW : Z := 2.
Definition RISCV_LD_LD : Z := 3.
Definition RISCV_LD_LBU : Z := 4.
Definition RISCV_LD_LHU : Z := 5.
Definition RISCV_LD_LWU : Z := 6.

Definition RISCV_ST_STB : Z := 0.
Definition RISCV_ST_STH : Z := 1.
Definition RISCV_ST_STW : Z := 2.
Definition RISCV_ST_STD : Z := 3.

Definition RISCV_OPI_ADDI : Z := 0.
Definition RISCV_OPI_SLLI : Z := 1.
Definition RISCV_OPI_SLTI : Z := 2.
Definition RISCV_OPI_SLTIU : Z := 3.
Definition RISCV_OPI_XORI : Z := 4.
Definition RISCV_OPI_SRI : Z := 5.
Definition RISCV_OPI_ORI : Z := 6.
Definition RISCV_OPI_ANDI : Z := 7.
Definition RISCV_OPI_SRI_SRLI : Z := 0.

Definition RISCV_OPIW_ADDIW : Z := 0.
Definition RISCV_OPIW_SLLIW : Z := 1.
Definition RISCV_OPIW_SRW : Z := 5.
Definition RISCV_OPIW_SRW_SRLIW : Z := 0.

Definition RISCV_OP_ADD : Z := 0.
Definition RISCV_OP_SLL : Z := 1.
Definition RISCV_OP_SLT : Z := 2.
Definition RISCV_OP_SLTU : Z := 3.
Definition RISCV_OP_XOR : Z := 4.
Definition RISCV_OP_SR : Z := 5.
Definition RISCV_OP_OR : Z := 6.
Definition RISCV_OP_AND : Z := 7.
Definition RISCV_OP_ADD_ADD : Z := 0.
Definition RISCV_OP_SR_SRL : Z := 0.

Definition RISCV_OP_M_MUL : Z := 0.
Definition RISCV_OP_M_MULH : Z := 1.
Definition RISCV_OP_M_MULHSU : Z := 2.
Definition RISCV_OP_M_MULHU : Z := 3.
Definition RISCV_OP_M_DIV : Z := 4.
Definition RISCV_OP_M_DIVU : Z := 5.
Definition RISCV_OP_M_REM : Z := 6.
Definition RISCV_OP_M_REMU : Z := 7.

Definition RISCV_OPW_ADDSUBW : Z := 0.
Definition RISCV_OPW_SLLW : Z := 1.
Definition RISCV_OPW_SRW : Z := 5.
Definition RISCV_OPW_ADDSUBW_ADDW : Z := 0.
Definition RISCV_OPW_SRW_SRLW : Z := 0.

Definition RISCV_OPW_M_MULW : Z := 0.
Definition RISCV_OPW_M_DIVW : Z := 4.
Definition RISCV_OPW_M_DIVUW : Z := 5.
Definition RISCV_OPW_M_REMW : Z := 6.
Definition RISCV_OPW_M_REMUW : Z := 7.

Definition RISCV_FP_ADD : Z := 0x00.
Definition RISCV_FP_SUB : Z := 0x04.
Definition RISCV_FP_MUL : Z := 0x08.
Definition RISCV_FP_DIV : Z := 0x0c.
Definition RISCV_FP_SQRT : Z := 0x2c.
Definition RISCV_FP_FSGN : Z := 0x10.
Definition RISCV_FP_MINMAX : Z := 0x14.
Definition RISCV_FP_FCVTW : Z := 0x60.
Definition RISCV_FP_FMVXFCLASS : Z := 0x70.
Definition RISCV_FP_FCMP : Z := 0x50.
Definition RISCV_FP_FCVTS : Z := 0x68.
Definition RISCV_FP_FMVW : Z := 0x78.

Definition RISCV_FP_FSGN_J : Z := 0.
Definition RISCV_FP_FSGN_JN : Z := 1.
Definition RISCV_FP_MINMAX_MIN : Z := 0.
Definition RISCV_FP_FCVTW_W : Z := 0.
Definition RISCV_FP_FMVXFCLASS_FMVX : Z := 0.
Definition RISCV_FP_FCMP_FEQ : Z := 2.
Definition RISCV_FP_FCMP_FLT : Z := 1.
Definition RISCV_FP_FCVTS_W : Z := 0.

End ISA.

Import ISA.

(** The decoded instruction: the fields of class [Instruction] that
    [OneInstruction] reads, as the integers the decoder left in them. *)
Record Instruction := mkInstruction {
  value : Z;
  opcode : Z;
  funct3 : Z;
  funct7 : Z;
  funct7_smaller : Z;
  rd : Z;
  rs1 : Z;
  rs2 : Z;
  rs3 : Z;
  shamt : Z;
  imm12_I : Z;
  imm12_I_signed : Z;
  imm12_S_signed : Z;
  imm13_signed : Z;
  imm21_1_signed : Z;
  imm31_12 : Z
}.

(** ** The machine state *)

Inductive MachineStatus := USER_MODE | SYSTEM_MODE.

Inductive Endianess := IS_BIG_ENDIAN | IS_LITTLE_ENDIAN.

(** Modelled from the spec: the sizes of the register files declared in
    [machine/machine.h] (32 integer and 32 floating-point registers of 64
    bits) and the exception numbering shared with the kernel ([syscall] is
    entry 1 of [exceptionNames]). *)
Definition NUM_INT_REGS : nat := 32.
Definition NUM_FP_REGS : nat := 32.
Definition SYSCALL_EXCEPTION : Z := 1.

(** Size of [exceptionNames], used for sanity checks. *)
Definition EXCEPTION_NUMBER : Z := 7.

Definition exceptionNames : list string :=
  ["no exception"; "syscall"; "page fault"; "page read only";
   "bus error"; "address error"; "overflow"; "illegal instruction"]%string.

Record Machine := mkMachine {
  int_registers : list Z;     (* int64_t int_registers[NUM_INT_REGS] *)
  float_registers : list Z;   (* int64_t float_registers[NUM_FP_REGS] *)
  pc : Z;                     (* 64 bits *)
  badvaddr_reg : Z;           (* 64 bits *)
  mainMemory : list Z;        (* int8_t mainMemory[memSize] *)
  status : MachineStatus;
  singleStep : bool;
  shiftMask : list Z;         (* uint64_t shiftMask[64] *)
  n_inst : Z;                 (* instructions executed *)
  cycle : Z                   (* instructions executed since Run started *)
}.

Definition set_int_registers (m : Machine) (r : list Z) : Machine :=
  mkMachine r (float_registers m) (pc m) (badvaddr_reg m) (mainMemory m)
            (status m) (singleStep m) (shiftMask m) (n_inst m) (cycle m).

Definition set_float_registers (m : Machine) (r : list Z) : Machine :=
  mkMachine (int_registers m) r (pc m) (badvaddr_reg m) (mainMemory m)
            (status m) (singleStep m) (shiftMask m) (n_inst m) (cycle m).

Definition set_pc (m : Machine) (v : Z) : Machine :=
  mkMachine (int_registers m) (float_registers m) v (badvaddr_reg m)
            (mainMemory m) (status m) (singleStep m) (shiftMask m) (n_inst m)
            (cycle m).

Definition set_badvaddr_reg (m : Machine) (v : Z) : Machine :=
  mkMachine (int_registers m) (float_registers m) (pc m) v (mainMemory m)
            (status m) (singleStep m) (shiftMask m) (n_inst m) (cycle m).

Definition set_mainMemory (m : Machine) (mem : list Z) : Machine :=
  mkMachine (int_registers m) (float_registers m) (pc m) (badvaddr_reg m) mem
            (status m) (singleStep m) (shiftMask m) (n_inst m) (cycle m).

Definition set_status (m : Machine) (s : MachineStatus) : Machine :=
  mkMachine (int_registers m) (float_registers m) (pc m) (badvaddr_reg m)
            (mainMemory m) s (singleStep m) (shiftMask m) (n_inst m) (cycle m).

Definition set_singleStep (m : Machine) (b : bool) : Machine :=
  mkMachine (int_registers m) (float_registers m) (pc m) (badvaddr_reg m)
            (mainMemory m) (status m) b (shiftMask m) (n_inst m) (cycle m).

Definition set_shiftMask (m : Machine) (s : list Z) : Machine :=
  mkMachine (int_registers m) (float_registers m) (pc m) (badvaddr_reg m)
            (mainMemory m) (status m) (singleStep m) s (n_inst m) (cycle m).

Definition set_counters (m : Machine) (n c : Z) : Machine :=
  mkMachine (int_registers m) (float_registers m) (pc m) (badvaddr_reg m)
            (mainMemory m) (status m) (singleStep m) (shiftMask m) n c.

(** [int_registers[r]] and [int_registers[r] = v], [r] a decoded field. *)
Definition ireg (m : Machine) (r : Z) : Z := int_registers m !!! Z.to_nat r.

Definition freg (m : Machine) (r : Z) : Z := float_registers m !!! Z.to_nat r.

Definition set_ireg (m : Machine) (r v : Z) : Machine :=
  set_int_registers m (<[Z.to_nat r := v]> (int_registers m)).

Definition set_freg (m : Machine) (r v : Z) : Machine :=
  set_float_registers m (<[Z.to_nat r := v]> (float_registers m)).

(** ** Host byte order: [CheckEndian] *)

(** The union [checkit] overlays four bytes and one 32-bit word. A host is
    described by the weight each byte address has inside the word: byte [k]
    of the storage holds bits [8 * w_k .. 8 * w_k + 7]. *)
Definition HostLayout := list Z.

Definition little_endian_host : HostLayout := [0; 1; 2; 3].
Definition big_endian_host : HostLayout := [3; 2; 1; 0].
(** The PDP-11 order: 16-bit halves most significant first, bytes of a half
    least significant first. *)
Definition middle_endian_host : HostLayout := [2; 3; 0; 1].

(** [check.intword] once [check.charword] holds the given bytes. *)
Fixpoint intword (host : HostLayout) (charword : list Z) : Z :=
  match host, charword with
  | w :: host', b :: charword' => Z.shiftl b (8 * w) + intword host' charword'
  | _, _ => 0
  end.

(** [CheckEndian]: the new content of the global [host_endianess], given its
    content before the call. *)
Definition CheckEndian (host : HostLayout) (host_endianess : Endianess)
  : Endianess :=
  let check := intword host [1; 2; 3; 4] in
  if check =? 0x01020304 then IS_BIG_ENDIAN
  else if check =? 0x04030201 then IS_LITTLE_ENDIAN
  else host_endianess.

(** ** Results of the machine's methods *)

Inductive result (A : Type) :=
| Done (a : A) (m : Machine)   (* the method returns [a], leaving [m] *)
| Exit (code : Z)              (* [exit(code)] or [interrupt->Halt(code)] *)
| NoReturn                     (* control stayed in the kernel *)
| Undefined.                   (* see the conventions at the top *)

Arguments Done {A} a m.
Arguments Exit {A} code.
Arguments NoReturn {A}.
Arguments Undefined {A}.

(** ** The constructor [Machine::Machine] *)

Record Config := mkConfig {
  NumPhysPages : Z;
  PageSize : Z;
  ACIA : bool
}.

(** [for (i = 0; i < n; i++) a[i] = 0;] *)
Definition zero_fill (n : nat) (a : list Z) : list Z :=
  foldl (fun a i => <[i := 0]> a) a (seq 0 n).

(** [int memSize = g_cfg->NumPhysPages * g_cfg->PageSize;] *)
Definition memSize (g_cfg : Config) : Z :=
  int32 (NumPhysPages g_cfg * PageSize g_cfg).

Section Constructor.

(** [new int8_t[n]]: fresh storage of [n] bytes whose content is
    indeterminate. *)
Variable new_int8_array : nat -> list Z.
Hypothesis new_int8_array_length : forall n, length (new_int8_array n) = n.

Variable host : HostLayout.

(** [this] is the storage of the object before the constructor runs. The
    sub-components created at the end (MMU, interrupt controller, disks,
    console, ACIA) are objects of their own, kept outside [Machine]. A
    negative [memSize] makes [new] throw: the constructor does not return. *)
Definition Machine_Machine (g_cfg : Config) (this : Machine)
    (host_endianess : Endianess) (debug : bool)
  : option (Machine * Endianess) :=
  let this := set_int_registers this
                (zero_fill NUM_INT_REGS (int_registers this)) in
  let this := set_float_registers this
                (zero_fill NUM_FP_REGS (float_registers this)) in
  let memSize := memSize g_cfg in
  if memSize <? 0 then None
  else
    let this := set_mainMemory this (new_int8_array (Z.to_nat memSize)) in
    let this := set_mainMemory this
                  (zero_fill (Z.to_nat memSize) (mainMemory this)) in
    let host_endianess := CheckEndian host host_endianess in
    let this := set_singleStep this debug in
    let this := set_status this SYSTEM_MODE in
    Some (this, host_endianess).

End Constructor.

(** ** [Machine::Run]: the shift masks *)

(** [value = 0xffffffff; value = (value << 32) + value;] and then
    [for (i = 0; i < 64; i++) { shiftMask[i] = value; value = value >> 1; }] *)
Definition Run_shiftMask (mask : list Z) : list Z :=
  fst (foldl (fun '(mask, value) i => (<[i := value]> mask, Z.shiftr value 1))
             (mask, uint64 (Z.shiftl 0xffffffff 32) + 0xffffffff)
             (seq 0 64)).

(** ** The interpreter *)

Section Interpreter.

(** Constants of [machine/stats.h] and [kernel/msgerror.h]. *)
Variable USER_TICK : Z.
Variable ERROR : Z.

(** [Instruction::Decode], a function of the fetched word [instr->value]. *)
Variable Decode : Z -> Instruction.

(** [mmu->ReadMem(vaddr, size, &value)]: the machine as the MMU leaves it
    and, when it returns [true], the 64-bit [value] it stored through the
    pointer. When it returns [false] it has raised the exception already. *)
Variable ReadMem : Machine -> Z -> Z -> Machine * option Z.

(** [mmu->WriteMem(vaddr, size, value)]: the machine as the MMU leaves it,
    and the returned flag. *)
Variable WriteMem : Machine -> Z -> Z -> Z -> Machine * bool.

(** The kernel's [ExceptionHandler(which, badVAddr)]: the machine on return,
    or [None] when control never comes back (the thread exits, the machine
    halts). *)
Variable ExceptionHandler : Z -> Z -> Machine -> option Machine.

(** Floating point is outside the embedding: [sqrt_int64 x] stands for
    [(int64_t) sqrt(x)], [fabs_int64 x] for the [float] [fabs(x)] stored
    back into a 64-bit register, and [neg_fabs_int64 x] for its opposite. *)
Variable sqrt_int64 : Z -> Z.
Variable fabs_int64 : Z -> Z.
Variable neg_fabs_int64 : Z -> Z.

(** What the host leaves where C++ gives no value and the simulator goes on
    regardless: [host_shift_right a count] for the 32-bit [a >> count] with
    [count] outside 0..31, and [host_shiftMask m i] for [shiftMask[i]] with
    [i] outside 0..63, which is whatever lies next to the array. *)
Variable host_shift_right : Z -> Z -> Z.
Variable host_shiftMask : Machine -> Z -> Z.

(** *** [Machine::RaiseException] *)

(** [badVAddr] is an [int]; widening it to the register keeps its value. *)
Definition RaiseException (which : Z) (badVAddr : Z) (m : Machine)
  : result unit :=
  if which <=? EXCEPTION_NUMBER then
    let m := set_badvaddr_reg m badVAddr in
    let m := set_status m SYSTEM_MODE in
    match ExceptionHandler which badVAddr m with
    | Some m => Done tt (set_status m USER_MODE)
    | None => NoReturn
    end
  else Exit ERROR.

(** *** [Machine::ReadIntRegister] and friends *)

(** [None] is the failed [ASSERT]. *)
Definition ReadIntRegister (m : Machine) (num : Z) : option Z :=
  if (0 <=? num) && (num <? Z.of_nat NUM_INT_REGS) then Some (ireg m num)
  else None.

Definition WriteIntRegister (m : Machine) (num value : Z) : option Machine :=
  if (0 <=? num) && (num <? Z.of_nat NUM_INT_REGS)
  then Some (set_ireg m num value)
  else None.

Definition ReadFPRegister (m : Machine) (num : Z) : option Z :=
  if (0 <=? num) && (num <? Z.of_nat NUM_FP_REGS) then Some (freg m num)
  else None.

Definition WriteFPRegister (m : Machine) (num value : Z) : option Machine :=
  if (0 <=? num) && (num <? Z.of_nat NUM_FP_REGS)
  then Some (set_freg m num value)
  else None.

(** *** [Machine::OneInstruction]: the switch on the opcode *)

(** How a case of the switch ends: at a [break], falling through to the
    epilogue of [OneInstruction], or by leaving the function at once. *)
Inductive flow :=
| Break (m : Machine)
| Leave (r : result Z).

(** [if (!mmu->ReadMem(addr, size, &local)) return 0;] followed by the
    assignment [write_back] of the local variable to a register. A local
    variable narrower than 64 bits overlays the low bytes of the value the
    MMU stored through the pointer (little-endian host): it reads as that
    value truncated to its own type. *)
Definition load (m : Machine) (addr size : Z)
    (write_back : Machine -> Z -> Machine) : flow :=
  match ReadMem m addr size with
  | (m', Some v) => Break (write_back m' v)
  | (m', None) => Leave (Done 0 m')
  end.

(** [if (!mmu->WriteMem(addr, size, v)) return 0;] *)

Definition store (m : Machine) (addr size v : Z) : flow :=
  match WriteMem m addr size v with
  | (m', true) => Break m'
  | (m', false) => Leave (Done 0 m')
  end.

Definition exec_BR (m : Machine) (instr : Instruction) : flow :=
  let r1 := ireg m (rs1 instr) in
  let r2 := ireg m (rs2 instr) in
  let taken := set_pc m (int64 (pc m + imm13_signed instr - 4)) in
  let f3 := funct3 instr in
  if f3 =? RISCV_BR_BEQ then Break (if r1 =? r2 then taken else m)
  else if f3 =? RISCV_BR_BNE then Break (if negb (r1 =? r2) then taken else m)
  else if f3 =? RISCV_BR_BLT then Break (if r1 <? r2 then taken else m)
  else if f3 =? RISCV_BR_BGE then Break (if r1 >=? r2 then taken else m)
  else if f3 =? RISCV_BR_BLTU then
    let unsignedReg1 := uint64 r1 in
    let unsignedReg2 := uint64 r2 in
    Break (if unsignedReg1 <? unsignedReg2 then taken else m)
  else if f3 =? RISCV_BR_BGEU then
    let unsignedReg1 := uint64 r1 in
    let unsignedReg2 := uint64 r2 in
    Break (if unsignedReg1 >=? unsignedReg2 then taken else m)
  else Leave (Exit ERROR).

Definition exec_LD (m : Machine) (instr : Instruction) : flow :=
  let addr := uint64 (ireg m (rs1 instr) + imm12_I_signed instr) in
  let f3 := funct3 instr in
  if f3 =? RISCV_LD_LB then
    (* int8_t val8 *)
    load m addr 1 (fun m' v => set_ireg m' (rd instr) (int8 v))
  else if f3 =? RISCV_LD_LH then
    (* int16_t val16 *)
    load m addr 2 (fun m' v => set_ireg m' (rd instr) (int16 v))
  else if f3 =? RISCV_LD_LW then
    (* int32_t val32 *)
    load m addr 4 (fun m' v => set_ireg m' (rd instr) (int32 v))
  else if f3 =? RISCV_LD_LD then
    (* straight into int_registers[rd] *)
    load m addr 8 (fun m' v => set_ireg m' (rd instr) (int64 v))
  else if f3 =? RISCV_LD_LBU then
    (* unsigned char v *)
    load m addr 1 (fun m' v => set_ireg m' (rd instr) (uint8 v))
  else if f3 =? RISCV_LD_LHU then
    (* unsigned char v *)
    load m addr 2 (fun m' v => set_ireg m' (rd instr) (uint8 v))
  else if f3 =? RISCV_LD_LWU then
    (* straight into int_registers[rd] *)
    load m addr 4 (fun m' v => set_ireg m' (rd instr) (int64 v))
  else Leave (Exit ERROR).

Definition exec_ST (m : Machine) (instr : Instruction) : flow :=
  let addr := uint64 (ireg m (rs1 instr) + imm12_S_signed instr) in
  let f3 := funct3 instr in
  if f3 =? RISCV_ST_STB then store m addr 1 (ireg m (rs2 instr))
  else if f3 =? RISCV_ST_STH then store m addr 2 (ireg m (rs2 instr))
  else if f3 =? RISCV_ST_STW then store m addr 4 (ireg m (rs2 instr))
  else if f3 =? RISCV_ST_STD then store m addr 8 (ireg m (rs2 instr))
  else Leave (Exit ERROR).

Definition exec_OPI (m : Machine) (instr : Instruction) : flow :=
  let r1 := ireg m (rs1 instr) in
  let f3 := funct3 instr in
  if f3 =? RISCV_OPI_ADDI then
    Break (set_ireg m (rd instr) (int64 (r1 + imm12_I_signed instr)))
  else if f3 =? RISCV_OPI_SLTI then
    Break (set_ireg m (rd instr) (of_bool (r1 <? imm12_I_signed instr)))
  else if f3 =? RISCV_OPI_SLTIU then
    (* unsignedReg1 starts at 0 *)
    let unsignedReg1 := Z.lor 0 (uint64 (Z.land r1 0xffffffff)) in
    Break (set_ireg m (rd instr)
             (of_bool (unsignedReg1 <? uint64 (imm12_I instr))))
  else if f3 =? RISCV_OPI_XORI then
    Break (set_ireg m (rd instr) (int64 (Z.lxor r1 (imm12_I_signed instr))))
  else if f3 =? RISCV_OPI_ORI then
    Break (set_ireg m (rd instr) (int64 (Z.lor r1 (imm12_I_signed instr))))
  else if f3 =? RISCV_OPI_ANDI then
    Break (set_ireg m (rd instr) (int64 (Z.land r1 (imm12_I_signed instr))))
  else if f3 =? RISCV_OPI_SLLI then
    Break (set_ireg m (rd instr) (int64 (Z.shiftl r1 (shamt instr))))
  else if f3 =? RISCV_OPI_SRI then
    if funct7_smaller instr =? RISCV_OPI_SRI_SRLI then
      Break (set_ireg m (rd instr)
               (int64 (Z.land (uint64 (Z.shiftr r1 (shamt instr)))
                              (shiftMask m !!! Z.to_nat (shamt instr)))))
    else (* SRAI *)
      Break (set_ireg m (rd instr) (Z.shiftr r1 (shamt instr)))
  else Leave (Exit ERROR).

Definition exec_OPIW (m : Machine) (instr : Instruction) : flow :=
  let localDataa := int32 (ireg m (rs1 instr)) in
  let localDatab := int32 (imm12_I_signed instr) in
  let f3 := funct3 instr in
  if f3 =? RISCV_OPIW_ADDIW then
    let localResult := int32 (localDataa + localDatab) in
    Break (set_ireg m (rd instr) localResult)
  else if f3 =? RISCV_OPIW_SLLIW then
    let localResult := int32 (Z.shiftl localDataa (rs2 instr)) in
    Break (set_ireg m (rd instr) localResult)
  else if f3 =? RISCV_OPIW_SRW then
    let localResult :=
      if funct7 instr =? RISCV_OPIW_SRW_SRLIW then
        int32 (Z.land (uint64 (Z.shiftr localDataa (rs2 instr)))
                      (shiftMask m !!! Z.to_nat (32 + rs2 instr)))
      else (* SRAI *)
        Z.shiftr localDataa (rs2 instr) in
    Break (set_ireg m (rd instr) localResult)
  else Leave (Exit ERROR).

(** Signed and unsigned division of the host, on operands of [w] bits. *)
Definition sdiv (w a b : Z) : option Z :=
  if (b =? 0) || ((a =? - 2 ^ (w - 1)) && (b =? -1)) then None
  else Some (Z.quot a b).

Definition srem (w a b : Z) : option Z :=
  if (b =? 0) || ((a =? - 2 ^ (w - 1)) && (b =? -1)) then None
  else Some (Z.rem a b).

Definition udiv (a b : Z) : option Z :=
  if b =? 0 then None else Some (a / b).

Definition urem (a b : Z) : option Z :=
  if b =? 0 then None else Some (a mod b).

(** [int_registers[r] = q], where computing [q] may be undefined. *)
Definition set_ireg_opt (m : Machine) (r : Z) (q : option Z) : flow :=
  match q with
  | Some v => Break (set_ireg m r v)
  | None => Leave Undefined
  end.

Definition set_freg_opt (m : Machine) (r : Z) (q : option Z) : flow :=
  match q with
  | Some v => Break (set_freg m r v)
  | None => Leave Undefined
  end.

(** The multiplication and division cases of [RISCV_OP] ([funct7 == 1]).
    [longResult] is an [__int128]; the product assigned to it is computed
    in the type of its operands. The switch has no default case. *)
Definition exec_OP_M (m : Machine) (instr : Instruction) : flow :=
  let r1 := ireg m (rs1 instr) in
  let r2 := ireg m (rs2 instr) in
  let f3 := funct3 instr in
  if f3 =? RISCV_OP_M_MUL then
    let longResult := int128 (int64 (r1 * r2)) in
    Break (set_ireg m (rd instr)
             (int64 (Z.land longResult 0xffffffffffffffff)))
  else if f3 =? RISCV_OP_M_MULH then
    let longResult := int128 (int64 (r1 * r2)) in
    Break (set_ireg m (rd instr)
             (int64 (Z.land (Z.shiftr longResult 64) 0xffffffffffffffff)))
  else if f3 =? RISCV_OP_M_MULHSU then
    let unsignedReg2 := uint64 r2 in
    let longResult := int128 (uint64 (uint64 r1 * unsignedReg2)) in
    Break (set_ireg m (rd instr)
             (int64 (Z.land (Z.shiftr longResult 64) 0xffffffffffffffff)))
  else if f3 =? RISCV_OP_M_MULHU then
    let unsignedReg1 := uint64 r1 in
    let unsignedReg2 := uint64 r2 in
    let longResult := int128 (uint64 (unsignedReg1 * unsignedReg2)) in
    Break (set_ireg m (rd instr)
             (int64 (Z.land (Z.shiftr longResult 64) 0xffffffffffffffff)))
  else if f3 =? RISCV_OP_M_DIV then
    set_ireg_opt m (rd instr) (sdiv 64 r1 r2)
  else if f3 =? RISCV_OP_M_DIVU then
    let unsignedReg1 := uint64 r1 in
    let unsignedReg2 := uint64 r2 in
    set_ireg_opt m (rd instr) (int64 <$> udiv unsignedReg1 unsignedReg2)
  else if f3 =? RISCV_OP_M_REM then
    set_ireg_opt m (rd instr) (srem 64 r1 r2)
  else if f3 =? RISCV_OP_M_REMU then
    let unsignedReg1 := uint64 r1 in
    let unsignedReg2 := uint64 r2 in
    set_ireg_opt m (rd instr) (int64 <$> urem unsignedReg1 unsignedReg2)
  else Break m.

Definition exec_OP (m : Machine) (instr : Instruction) : flow :=
  if funct7 instr =? 1 then exec_OP_M m instr
  else
    let r1 := ireg m (rs1 instr) in
    let r2 := ireg m (rs2 instr) in
    let f3 := funct3 instr in
    if f3 =? RISCV_OP_ADD then
      if funct7 instr =? RISCV_OP_ADD_ADD then
        Break (set_ireg m (rd instr) (int64 (r1 + r2)))
      else
        Break (set_ireg m (rd instr) (int64 (r1 - r2)))
    else if f3 =? RISCV_OP_SLL then
      Break (set_ireg m (rd instr) (int64 (Z.shiftl r1 (Z.land r2 0x3f))))
    else if f3 =? RISCV_OP_SLT then
      Break (set_ireg m (rd instr) (of_bool (r1 <? r2)))
    else if f3 =? RISCV_OP_SLTU then
      let unsignedReg1 := uint64 r1 in
      let unsignedReg2 := uint64 r2 in
      Break (set_ireg m (rd instr) (of_bool (unsignedReg1 <? unsignedReg2)))
    else if f3 =? RISCV_OP_XOR then
      Break (set_ireg m (rd instr) (int64 (Z.lxor r1 r2)))
    else if f3 =? RISCV_OP_SR then
      if funct7 instr =? RISCV_OP_SR_SRL then
        let shiftAmount := int32 r2 in
        Break (set_ireg m (rd instr)
                 (int64 (Z.land (uint64 (Z.shiftr r1 (Z.land r2 0x3f)))
                           (shiftMask m
                              !!! Z.to_nat (Z.land shiftAmount 0x3f)))))
      else (* SRA *)
        Break (set_ireg m (rd instr) (Z.shiftr r1 (Z.land r2 0x3f)))
    else if f3 =? RISCV_OP_OR then
      Break (set_ireg m (rd instr) (int64 (Z.lor r1 r2)))
    else if f3 =? RISCV_OP_AND then
      Break (set_ireg m (rd instr) (int64 (Z.land r1 r2)))
    else Leave (Exit ERROR).

(** The 32-bit shifts [SRLW] and [SRAW] use the whole of [localDatab] as
    the count (the mask is commented out in the source). *)
(** [localDataa >> count] on the [int32_t] operands of the OP-32 group. *)
Definition shift_right_32 (a count : Z) : Z :=
  if (0 <=? count) && (count <? 32) then Z.shiftr a count
  else int32 (host_shift_right a count).

(** [shiftMask[i]], a [uint64_t]. *)
Definition shiftMask_at (m : Machine) (i : Z) : Z :=
  if (0 <=? i) && (i <? 64) then shiftMask m !!! Z.to_nat i
  else uint64 (host_shiftMask m i).

Definition exec_OPW (m : Machine) (instr : Instruction) : flow :=
  let f3 := funct3 instr in
  if funct7 instr =? 1 then
    let localDataa := int32 (Z.land (ireg m (rs1 instr)) 0xffffffff) in
    let localDatab := int32 (Z.land (ireg m (rs2 instr)) 0xffffffff) in
    let localDataaUnsigned :=
      uint32 (Z.land (ireg m (rs1 instr)) 0xffffffff) in
    let localDatabUnsigned :=
      uint32 (Z.land (ireg m (rs2 instr)) 0xffffffff) in
    if f3 =? RISCV_OPW_M_MULW then
      let localLongResult := int32 (localDataa * localDatab) in
      Break (set_ireg m (rd instr) (Z.land localLongResult 0xffffffff))
    else if f3 =? RISCV_OPW_M_DIVW then
      set_ireg_opt m (rd instr) (sdiv 32 localDataa localDatab)
    else if f3 =? RISCV_OPW_M_DIVUW then
      set_ireg_opt m (rd instr) (udiv localDataaUnsigned localDatabUnsigned)
    else if f3 =? RISCV_OPW_M_REMW then
      set_ireg_opt m (rd instr) (srem 32 localDataa localDatab)
    else if f3 =? RISCV_OPW_M_REMUW then
      set_ireg_opt m (rd instr) (urem localDataaUnsigned localDatabUnsigned)
    else Break m
  else
    let localDataa := int32 (Z.land (ireg m (rs1 instr)) 0xffffffff) in
    let localDatab := int32 (Z.land (ireg m (rs2 instr)) 0xffffffff) in
    if f3 =? RISCV_OPW_ADDSUBW then
      if funct7 instr =? RISCV_OPW_ADDSUBW_ADDW then
        let localResult := int32 (localDataa + localDatab) in
        Break (set_ireg m (rd instr) localResult)
      else (* SUBW *)
        let localResult := int32 (localDataa - localDatab) in
        Break (set_ireg m (rd instr) localResult)
    else if f3 =? RISCV_OPW_SLLW then
      let localResult :=
        int32 (Z.shiftl localDataa (Z.land localDatab 0x1f)) in
      Break (set_ireg m (rd instr) localResult)
    else if f3 =? RISCV_OPW_SRW then
      (* the count is the whole of [localDatab]: its mask is commented out *)
      if funct7 instr =? RISCV_OPW_SRW_SRLW then
        let localResult :=
          int32 (Z.land (uint64 (shift_right_32 localDataa localDatab))
                        (shiftMask_at m (32 + localDatab))) in
        Break (set_ireg m (rd instr) localResult)
      else (* SRAW *)
        let localResult := shift_right_32 localDataa localDatab in
        Break (set_ireg m (rd instr) localResult)
    else Leave (Exit ERROR).

(** The macros [MIN] and [MAX], defined outside [machine.cc], with their
    usual meaning. *)
Definition MIN (a b : Z) : Z := if a <? b then a else b.
Definition MAX (a b : Z) : Z := if a >? b then a else b.

(** [RISCV_FP]: the operators act on the 64-bit integers held in
    [float_registers]. *)
Definition exec_FP (m : Machine) (instr : Instruction) : flow :=
  let f1 := freg m (rs1 instr) in
  let f2 := freg m (rs2 instr) in
  let f7 := funct7 instr in
  if f7 =? RISCV_FP_ADD then
    Break (set_freg m (rd instr) (int64 (f1 + f2)))
  else if f7 =? RISCV_FP_SUB then
    Break (set_freg m (rd instr) (int64 (f1 - f2)))
  else if f7 =? RISCV_FP_MUL then
    Break (set_freg m (rd instr) (int64 (f1 * f2)))
  else if f7 =? RISCV_FP_DIV then
    set_freg_opt m (rd instr) (sdiv 64 f1 f2)
  else if f7 =? RISCV_FP_SQRT then
    Break (set_freg m (rd instr) (sqrt_int64 f1))
  else if f7 =? RISCV_FP_FSGN then
    let localFloat := fabs_int64 f1 in
    let minus_localFloat := neg_fabs_int64 f1 in
    if funct3 instr =? RISCV_FP_FSGN_J then
      if f2 <? 0 then Break (set_freg m (rd instr) minus_localFloat)
      else Break (set_freg m (rd instr) localFloat)
    else if funct3 instr =? RISCV_FP_FSGN_JN then
      if f2 <? 0 then Break (set_freg m (rd instr) localFloat)
      else Break (set_freg m (rd instr) minus_localFloat)
    else (* JX *)
      if ((f2 <? 0) && (f1 >=? 0)) || ((f2 >=? 0) && (f1 <? 0))
      then Break (set_freg m (rd instr) minus_localFloat)
      else Break (set_freg m (rd instr) localFloat)
  else if f7 =? RISCV_FP_MINMAX then
    if funct3 instr =? RISCV_FP_MINMAX_MIN then
      Break (set_freg m (rd instr) (MIN f1 f2))
    else
      Break (set_freg m (rd instr) (MAX f1 f2))
  else if f7 =? RISCV_FP_FCVTW then
    if rs2 instr =? RISCV_FP_FCVTW_W then
      Break (set_ireg m (rd instr) f1)
    else
      Break (set_ireg m (rd instr) (uint32 f1))
  else if f7 =? RISCV_FP_FMVXFCLASS then
    if funct3 instr =? RISCV_FP_FMVXFCLASS_FMVX then
      Break (set_ireg m (rd instr) f1)
    else Leave (Exit (-1))
  else if f7 =? RISCV_FP_FCMP then
    if funct3 instr =? RISCV_FP_FCMP_FEQ then
      Break (set_ireg m (rd instr) (of_bool (f1 =? f2)))
    else if funct3 instr =? RISCV_FP_FCMP_FLT then
      Break (set_ireg m (rd instr) (of_bool (f1 <? f2)))
    else
      Break (set_ireg m (rd instr) (of_bool (f1 <=? f2)))
  else if f7 =? RISCV_FP_FCVTS then
    if rs2 instr =? RISCV_FP_FCVTS_W then
      Break (set_freg m (rd instr) (ireg m (rs1 instr)))
    else
      Break (set_freg m (rd instr) (uint32 (ireg m (rs1 instr))))
  else if f7 =? RISCV_FP_FMVW then
    Break (set_freg m (rd instr) (ireg m (rs1 instr)))
  else Leave (Exit (-1)).

(** The switch of [OneInstruction]. [m] is the machine once [pc] has been
    advanced past the instruction. *)
Definition Execute (m : Machine) (instr : Instruction) : flow :=
  let op := opcode instr in
  if op =? RISCV_LUI then
    Break (set_ireg m (rd instr) (int64 (imm31_12 instr)))
  else if op =? RISCV_AUIPC then
    Break (set_ireg m (rd instr) (int64 (pc m - 4 + imm31_12 instr)))
  else if op =? RISCV_JAL then
    let m := set_ireg m (rd instr) (pc m) in
    Break (set_pc m (int64 (pc m - 4 + imm21_1_signed instr)))
  else if op =? RISCV_JALR then
    let localResult := int32 (pc m) in
    let m := set_pc m (Z.land (int64 (ireg m (rs1 instr)
                                      + imm12_I_signed instr))
                              0xfffffffe) in
    Break (set_ireg m (rd instr) localResult)
  else if op =? RISCV_BR then exec_BR m instr
  else if op =? RISCV_LD then exec_LD m instr
  else if op =? RISCV_ST then exec_ST m instr
  else if op =? RISCV_OPI then exec_OPI m instr
  else if op =? RISCV_OPIW then exec_OPIW m instr
  else if op =? RISCV_OP then exec_OP m instr
  else if op =? RISCV_OPW then exec_OPW m instr
  else if op =? RISCV_SYSTEM then
    if (SYSCALL_EXCEPTION <=? 33) && (SYSCALL_EXCEPTION >=? 0) then
      match RaiseException SYSCALL_EXCEPTION (int32 (pc m)) m with
      | Done _ m' => Break m'
      | Exit code => Leave (Exit code)
      | NoReturn => Leave NoReturn
      | Undefined => Leave Undefined
      end
    else Break m
  else if op =? RISCV_FLW then
    load m (uint64 (ireg m (rs1 instr) + imm12_I_signed instr)) 4
         (fun m' value => set_freg m' (rd instr) (int64 value))
  else if op =? RISCV_FSW then
    store m (uint32 (ireg m (rs1 instr) + imm12_S_signed instr)) 4
          (freg m (rs2 instr))
  else if op =? RISCV_FMADD then
    Break (set_freg m (rd instr)
             (int64 (freg m (rs1 instr) * freg m (rs2 instr)
                     + freg m (rs3 instr))))
  else if op =? RISCV_FMSUB then
    Break (set_freg m (rd instr)
             (int64 (freg m (rs1 instr) * freg m (rs2 instr)
                     - freg m (rs3 instr))))
  else if op =? RISCV_FNMSUB then
    Break (set_freg m (rd instr)
             (int64 (- freg m (rs1 instr) * freg m (rs2 instr)
                     + freg m (rs3 instr))))
  else if op =? RISCV_FNMADD then
    Break (set_freg m (rd instr)
             (int64 (- freg m (rs1 instr) * freg m (rs2 instr)
                     - freg m (rs3 instr))))
  else if op =? RISCV_FP then exec_FP m instr
  else Leave (Exit (-1)).

(** The epilogue: [int_registers[0] = 0; n_inst = n_inst + 1; cycle++;]. *)
Definition epilogue (m : Machine) : Machine :=
  let m := set_int_registers m (<[0%nat := 0]> (int_registers m)) in
  set_counters m (n_inst m + 1) (cycle m + 1).

(** [Machine::OneInstruction]. The statistics of the owning process and
    the debugging output are kept outside the machine. *)
Definition OneInstruction (m : Machine) : result Z :=
  match ReadMem m (uint64 (pc m)) 4 with
  | (m, None) => Done 0 m   (* exception occurred *)
  | (m, Some value) =>
      let instr := Decode value in
      let execution_time := USER_TICK in
      let m := set_pc m (int64 (pc m + 4)) in
      match Execute m instr with
      | Break m => Done execution_time (epilogue m)
      | Leave r => r
      end
  end.

End Interpreter.

(** The access to data memory an instruction asks of the MMU, if any: the
    arguments of the [ReadMem] or [WriteMem] call in its case of the switch. *)
Inductive access :=
| MemRead (addr size : Z)
| MemWrite (addr size value : Z).

Definition data_access (m : Machine) (instr : Instruction) : option access :=
  let op := opcode instr in
  let f3 := funct3 instr in
  if op =? RISCV_LD then
    let addr := uint64 (ireg m (rs1 instr) + imm12_I_signed instr) in
    if f3 =? RISCV_LD_LB then Some (MemRead addr 1)
    else if f3 =? RISCV_LD_LH then Some (MemRead addr 2)
    else if f3 =? RISCV_LD_LW then Some (MemRead addr 4)
    else if f3 =? RISCV_LD_LD then Some (MemRead addr 8)
    else if f3 =? RISCV_LD_LBU then Some (MemRead addr 1)
    else if f3 =? RISCV_LD_LHU then Some (MemRead addr 2)
    else if f3 =? RISCV_LD_LWU then Some (MemRead addr 4)
    else None
  else if op =? RISCV_ST then
    let addr := uint64 (ireg m (rs1 instr) + imm12_S_signed instr) in
    if f3 =? RISCV_ST_STB then Some (MemWrite addr 1 (ireg m (rs2 instr)))
    else if f3 =? RISCV_ST_STH then Some (MemWrite addr 2 (ireg m (rs2 instr)))
    else if f3 =? RISCV_ST_STW then Some (MemWrite addr 4 (ireg m (rs2 instr)))
    else if f3 =? RISCV_ST_STD then Some (MemWrite addr 8 (ireg m (rs2 instr)))
    else None
  else if op =? RISCV_FLW then
    Some (MemRead (uint64 (ireg m (rs1 instr) + imm12_I_signed instr)) 4)
  else if op =? RISCV_FSW then
    Some (MemWrite (uint32 (ireg m (rs1 instr) + imm12_S_signed instr)) 4
                   (freg m (rs2 instr)))
  else None.

(** The instruction's access to data memory fails, the MMU leaving [m']. *)
Definition access_failed
    (ReadMem : Machine -> Z -> Z -> Machine * option Z)
    (WriteMem : Machine -> Z -> Z -> Z -> Machine * bool)
    (m : Machine) (instr : Instruction) (m' : Machine) : Prop :=
  (exists addr size,
      data_access m instr = Some (MemRead addr size)
      /\ ReadMem m addr size = (m', None))
  \/ (exists addr size v,
         data_access m instr = Some (MemWrite addr size v)
         /\ WriteMem m addr size v = (m', false)).

(** ** The synchronous disk driver ([drivers/drvDisk.cc]) *)

Definition Thread := nat.

(** Modelled from the spec: the classes [Semaphore] and [Lock] of the
    kernel's synchronisation module, which is not part of the sources at
    hand. A semaphore is a name, a counter and a FIFO queue of waiting
    threads; a lock is a name, an owner (or none) and a FIFO queue. *)
Record Semaphore := mkSemaphore {
  sem_name : string;
  counter : Z;
  sem_queue : list Thread
}.

Record Lock := mkLock {
  lock_name : string;
  owner : option Thread;
  lock_queue : list Thread
}.

(** The state of class [Disk] ([machine/disk.h]) the driver depends on. *)
Record Disk := mkDisk {
  active : bool;      (* is a disk operation in progress? *)
  lastSector : Z      (* the previous disk request *)
}.

Record DriverDisk := mkDriverDisk {
  semaphore : Semaphore;
  lock : Lock;
  disk : Disk
}.

(** [new Semaphore(name, init)] and [new Lock(name)]. *)
Definition Semaphore_new (name : string) (init : Z) : Semaphore :=
  mkSemaphore name init [].

Definition Lock_new (name : string) : Lock := mkLock name None [].

(** [DriverDisk::DriverDisk]. *)
Definition DriverDisk_DriverDisk (sem_name lock_name : string)
    (theDisk : Disk) : DriverDisk :=
  mkDriverDisk (Semaphore_new sem_name 0) (Lock_new lock_name) theDisk.

(** The calls a method of the driver makes on its three objects, in program
    order. [data] is the address of the caller's buffer. *)
Inductive Call :=
| Lock_Acquire
| Lock_Release
| Semaphore_P
| Semaphore_V
| Disk_ReadRequest (sectorNumber : Z) (data : Z)
| Disk_WriteRequest (sectorNumber : Z) (data : Z).

(** [DriverDisk::ReadSector]; the [uint32_t] sector number becomes the [int]
    of [Disk::ReadRequest]. *)
Definition ReadSector (sectorNumber : Z) (data : Z) : list Call :=
  [ Lock_Acquire;                               (* only one disk I/O at a time *)
    Disk_ReadRequest (int32 sectorNumber) data;
    Semaphore_P;                                (* wait for interrupt *)
    Lock_Release ].

(** [DriverDisk::WriteSector]. *)
Definition WriteSector (sectorNumber : Z) (data : Z) : list Call :=
  [ Lock_Acquire;                               (* only one disk I/O at a time *)
    Disk_WriteRequest (int32 sectorNumber) data;
    Semaphore_P;                                (* wait for interrupt *)
    Lock_Release ].

(** [DriverDisk::RequestDone], the disk interrupt handler. *)
Definition RequestDone : list Call := [ Semaphore_V ].

(** *** The kernel objects at work *)

(** Modelled from the spec: what the calls do. [Semaphore.P] decrements the
    counter and, if it is now negative, queues the caller, which sleeps;
    [Semaphore.V] increments it and wakes the head of the queue, if any.
    [Lock.acquire] takes a free lock, fails on a lock the caller owns, and
    otherwise queues the caller; [Lock.release] fails for a thread that does
    not own the lock, and otherwise hands the lock to the head of the queue
    or frees it. A disk accepts a request only when none is outstanding. *)
Definition Semaphore_P_by (t : Thread) (s : Semaphore) : Semaphore :=
  let c := counter s - 1 in
  if c <? 0 then mkSemaphore (sem_name s) c (sem_queue s ++ [t])
  else mkSemaphore (sem_name s) c (sem_queue s).

Definition Semaphore_V_on (s : Semaphore) : Semaphore :=
  mkSemaphore (sem_name s) (counter s + 1) (tail (sem_queue s)).

Definition Lock_Acquire_by (t : Thread) (l : Lock) : Lock :=
  match owner l with
  | None => mkLock (lock_name l) (Some t) (lock_queue l)
  | Some o =>
      if decide (o = t) then l
      else mkLock (lock_name l) (owner l) (lock_queue l ++ [t])
  end.

Definition Lock_Release_by (t : Thread) (l : Lock) : Lock :=
  if decide (owner l = Some t) then
    match lock_queue l with
    | [] => mkLock (lock_name l) None []
    | h :: q => mkLock (lock_name l) (Some h) q
    end
  else l.

Definition Disk_Request (sectorNumber : Z) (d : Disk) : option Disk :=
  if active d then None else Some (mkDisk true sectorNumber).

(** One call made by thread [t]; [None] when the disk refuses the request
    and the simulator stops. *)
Definition do_call (t : Thread) (c : Call) (drv : DriverDisk)
  : option DriverDisk :=
  match c with
  | Lock_Acquire =>
      Some (mkDriverDisk (semaphore drv) (Lock_Acquire_by t (lock drv))
                         (disk drv))
  | Lock_Release =>
      Some (mkDriverDisk (semaphore drv) (Lock_Release_by t (lock drv))
                         (disk drv))
  | Semaphore_P =>
      Some (mkDriverDisk (Semaphore_P_by t (semaphore drv)) (lock drv)
                         (disk drv))
  | Semaphore_V =>
      Some (mkDriverDisk (Semaphore_V_on (semaphore drv)) (lock drv)
                         (disk drv))
  | Disk_ReadRequest n _ | Disk_WriteRequest n _ =>
      d ← Disk_Request n (disk drv);
      Some (mkDriverDisk (semaphore drv) (lock drv) d)
  end.

(** The driver together with the threads using it: each thread is the list
    of calls it still has to make. A thread sleeps while it sits in one of
    the two queues. *)
Record System := mkSystem {
  driver : DriverDisk;
  threads : gmap Thread (list Call)
}.

Definition sleeping (t : Thread) (drv : DriverDisk) : bool :=
  bool_decide (t ∈ sem_queue (semaphore drv) ∨ t ∈ lock_queue (lock drv)).

Inductive Event :=
| Run (t : Thread)     (* thread [t] makes its next call *)
| DiskInterrupt.       (* the outstanding request completes *)

Inductive Step :=
| Stepped (s : System)
| NotEnabled
| Aborted.

(** Modelled from the spec: the completion handler of the disk, which marks
    the disk idle and invokes the callback registered for it, the driver's
    [RequestDone]. *)
Definition HandleInterrupt (drv : DriverDisk) : option DriverDisk :=
  let drv := mkDriverDisk (semaphore drv) (lock drv)
                          (mkDisk false (lastSector (disk drv))) in
  foldl (fun o c => o ≫= do_call 0%nat c) (Some drv) RequestDone.

Definition step (e : Event) (s : System) : Step :=
  match e with
  | Run t =>
      match threads s !! t with
      | Some (c :: k) =>
          if sleeping t (driver s) then NotEnabled
          else match do_call t c (driver s) with
               | Some drv => Stepped (mkSystem drv (<[t := k]> (threads s)))
               | None => Aborted
               end
      | _ => NotEnabled
      end
  | DiskInterrupt =>
      if active (disk (driver s)) then
        match HandleInterrupt (driver s) with
        | Some drv => Stepped (mkSystem drv (threads s))
        | None => Aborted
        end
      else NotEnabled
  end.

Fixpoint run (schedule : list Event) (s : System) : Step :=
  match schedule with
  | [] => Stepped s
  | e :: schedule' =>
      match step e s with
      | Stepped s' => run schedule' s'
      | r => r
      end
  end.

(** Client threads: each performs a sequence of sector reads and writes. *)
Inductive Request :=
| ReadReq (sectorNumber data : Z)
| WriteReq (sectorNumber data : Z).

Definition client (reqs : list Request) : list Call :=
  flat_map (fun r => match r with
                     | ReadReq n d => ReadSector n d
                     | WriteReq n d => WriteSector n d
                     end) reqs.

Definition boot (sem_name lock_name : string)
    (clients : gmap Thread (list Request)) : System :=
  mkSystem (DriverDisk_DriverDisk sem_name lock_name (mkDisk false 0))
           (client <$> clients).

(** *** Where a thread stands, and the invariant of the driver *)

(** The position of a thread inside [ReadSector] or [WriteSector]: before
    [Acquire] (or done), after [Acquire], after the request, after [P]. *)
Inductive phase := Idle | Acquired | Issued | Waited.

(** [k], the calls left to make, continues from position [ph]. *)
Fixpoint in_phase (ph : phase) (k : list Call) : Prop :=
  match k with
  | [] => ph = Idle
  | c :: k' =>
      match ph, c with
      | Idle, Lock_Acquire => in_phase Acquired k'
      | Acquired, Disk_ReadRequest _ _ => in_phase Issued k'
      | Acquired, Disk_WriteRequest _ _ => in_phase Issued k'
      | Issued, Semaphore_P => in_phase Waited k'
      | Waited, Lock_Release => in_phase Idle k'
      | _, _ => False
      end
  end.

(** The semaphore and the disk, as seen from the position of the owner of
    the lock. *)
Definition owner_state (o : Thread) (k : list Call) (drv : DriverDisk) : Prop :=
  let a := active (disk drv) in
  let c := counter (semaphore drv) in
  let q := sem_queue (semaphore drv) in
  (in_phase Acquired k /\ a = false /\ c = 0 /\ q = [])
  \/ (in_phase Issued k /\ a = true /\ c = 0 /\ q = [])
  \/ (in_phase Issued k /\ a = false /\ c = 1 /\ q = [])
  \/ (in_phase Waited k /\ a = true /\ c = -1 /\ q = [o])
  \/ (in_phase Waited k /\ a = false /\ c = 0 /\ q = []).

(** The lock queue holds threads that have called [Acquire] and wait; the
    other threads that do not own the lock stand outside the driver. *)
Record invariant (s : System) : Prop := mkInvariant {
  inv_nodup : NoDup (lock_queue (lock (driver s)));
  inv_queue : forall t, t ∈ lock_queue (lock (driver s)) ->
    owner (lock (driver s)) <> Some t
    /\ owner (lock (driver s)) <> None
    /\ exists k, threads s !! t = Some k /\ in_phase Acquired k;
  inv_others : forall t k, threads s !! t = Some k ->
    owner (lock (driver s)) <> Some t ->
    t ∉ lock_queue (lock (driver s)) ->
    in_phase Idle k;
  inv_free : owner (lock (driver s)) = None ->
    active (disk (driver s)) = false
    /\ counter (semaphore (driver s)) = 0
    /\ sem_queue (semaphore (driver s)) = [];
  inv_owner : forall o, owner (lock (driver s)) = Some o ->
    exists k, threads s !! o = Some k /\ owner_state o k (driver s)
}.

Definition is_request (c : Call) : bool :=
  match c with
  | Disk_ReadRequest _ _ | Disk_WriteRequest _ _ => true
  | _ => false
  end.

(** Two clients and a schedule: thread 0 acquires the lock, thread 1 queues
    for it, thread 0 issues its request and sleeps in [P]. *)
Definition two_clients : gmap Thread (list Request) :=
  {[ 0%nat := [ReadReq 3 100]; 1%nat := [WriteReq 5 200] ]}.

Definition busy_schedule : list Event :=
  [Run 0%nat; Run 1%nat; Run 0%nat; Run 0%nat].

(** ** A concrete machine to run the interpreter on *)

Module Bench.

(** Modelled from the spec: an MMU honouring the contract the interpreter
    consumes ([read_mem(vaddr, nbytes, out) -> bool], and the same for
    writes), here with virtual addresses mapped one to one onto
    [mainMemory], little-endian; an access outside the memory fails and
    leaves the address in the bad-vaddr register. *)
Fixpoint bytes_value (bytes : list Z) : Z :=
  match bytes with
  | [] => 0
  | b :: bytes' => uint8 b + 256 * bytes_value bytes'
  end.

Fixpoint value_bytes (n : nat) (v : Z) : list Z :=
  match n with
  | O => []
  | S n' => int8 v :: value_bytes n' (Z.shiftr v 8)
  end.

Fixpoint write_bytes (mem : list Z) (a : nat) (bytes : list Z) : list Z :=
  match bytes with
  | [] => mem
  | b :: bytes' => write_bytes (<[a := b]> mem) (S a) bytes'
  end.

Definition in_memory (m : Machine) (vaddr size : Z) : bool :=
  (0 <=? vaddr) && (0 <=? size)
  && (vaddr + size <=? Z.of_nat (length (mainMemory m))).

Definition ReadMem (m : Machine) (vaddr size : Z) : Machine * option Z :=
  if in_memory m vaddr size then
    (m, Some (bytes_value (take (Z.to_nat size)
                                (drop (Z.to_nat vaddr) (mainMemory m)))))
  else (set_badvaddr_reg m vaddr, None).

Definition WriteMem (m : Machine) (vaddr size value : Z) : Machine * bool :=
  if in_memory m vaddr size then
    (set_mainMemory m (write_bytes (mainMemory m) (Z.to_nat vaddr)
                                   (value_bytes (Z.to_nat size) value)),
     true)
  else (set_badvaddr_reg m vaddr, false).

(** Modelled from the spec: [Instruction::Decode], the field extraction of
    the RISC-V formats (opcode in bits 6..0; I, S, B, U and J immediates). *)
Definition bits (v lo n : Z) : Z := Z.land (Z.shiftr v lo) (2 ^ n - 1).

Definition Decode (v : Z) : Instruction :=
  {| value := v;
     opcode := bits v 0 7;
     funct3 := bits v 12 3;
     funct7 := bits v 25 7;
     funct7_smaller := bits v 26 6;
     rd := bits v 7 5;
     rs1 := bits v 15 5;
     rs2 := bits v 20 5;
     rs3 := bits v 27 5;
     shamt := bits v 20 6;
     imm12_I := bits v 20 12;
     imm12_I_signed := to_int 12 (bits v 20 12);
     imm12_S_signed := to_int 12 (Z.shiftl (bits v 25 7) 5 + bits v 7 5);
     imm13_signed :=
       to_int 13 (Z.shiftl (bits v 31 1) 12 + Z.shiftl (bits v 7 1) 11
                  + Z.shiftl (bits v 25 6) 5 + Z.shiftl (bits v 8 4) 1);
     imm21_1_signed :=
       to_int 21 (Z.shiftl (bits v 31 1) 20 + Z.shiftl (bits v 12 8) 12
                  + Z.shiftl (bits v 20 1) 11 + Z.shiftl (bits v 21 10) 1);
     imm31_12 := int32 (Z.shiftl (bits v 12 20) 12) |}.

(** An exception handler that returns at once. *)
Definition ExceptionHandler (which badVAddr : Z) (m : Machine)
  : option Machine := Some m.

(** One cycle per user instruction, and an error code for [exit]. *)
Definition USER_TICK : Z := 1.
Definition ERROR : Z := -1.

(** A host whose 32-bit shifts take their count modulo 32, as the shift
    instructions of x86-64, AArch64 and RISC-V do, and where zeros follow
    [shiftMask]. *)
Definition host_shift_right (a count : Z) : Z := Z.shiftr a (count mod 32).
Definition host_shiftMask (m : Machine) (i : Z) : Z := 0.

(** The interpreter over these, with integer stand-ins for the
    floating-point helpers. *)

Definition OneInstruction : Machine -> result Z :=
  OneInstruction USER_TICK ERROR Decode ReadMem WriteMem ExceptionHandler
                 Z.sqrt Z.abs (fun x => - Z.abs x)
                 host_shift_right host_shiftMask.

(** Instruction words. *)
Definition encode_R (f7 r2 r1 f3 d op : Z) : Z :=
  Z.shiftl f7 25 + Z.shiftl r2 20 + Z.shiftl r1 15 + Z.shiftl f3 12
  + Z.shiftl d 7 + op.

Definition encode_I (imm r1 f3 d op : Z) : Z :=
  Z.shiftl (Z.land imm 0xfff) 20 + Z.shiftl r1 15 + Z.shiftl f3 12
  + Z.shiftl d 7 + op.

(** A machine in user mode, [pc = 0], whose memory starts with the
    instruction [word] followed by [data], and whose registers 1 and 2 hold
    [x1] and [x2]. *)
Definition machine (word : Z) (data : list Z) (x1 x2 : Z) : Machine :=
  {| int_registers := <[2%nat := x2]> (<[1%nat := x1]> (replicate 32 0));
     float_registers := replicate 32 0;
     pc := 0;
     badvaddr_reg := 0;
     mainMemory := value_bytes 4 word ++ data;
     status := USER_MODE;
     singleStep := false;
     shiftMask := Run_shiftMask (replicate 64 0);
     n_inst := 0;
     cycle := 0 |}.

(** The content of register [r] once [OneInstruction] has returned [t]. *)
Definition after (r : Z) (res : result Z) : option (Z * Z) :=
  match res with
  | Done t m => Some (t, ireg m r)
  | _ => None
  end.

End Bench.

(** ** Instructions that only compute *)

(** The opcodes whose case of the switch reads and writes integer registers
    and nothing else: LUI, AUIPC and the four arithmetic groups. *)
Definition alu_opcode (op : Z) : bool :=
  (op =? RISCV_LUI) || (op =? RISCV_AUIPC) || (op =? RISCV_OPI)
  || (op =? RISCV_OPIW) || (op =? RISCV_OP) || (op =? RISCV_OPW).

(** The machines such a case can leave at its [break]: [m] itself, or [m]
    with a value in the destination register. *)
Definition writes_rd (m : Machine) (instr : Instruction) (m' : Machine)
  : Prop :=
  m' = m \/ exists v, m' = set_ireg m (rd instr) v.

(** ** One client of the disk driver served alone *)

(** The schedule that serves the requests of thread [t] one after the
    other: [Acquire] and the request, the interrupt, [P] and [Release]. *)
Definition serve (t : Thread) (reqs : list Request) : list Event :=
  flat_map (fun _ => [Run t; Run t; DiskInterrupt; Run t; Run t]) reqs.

(** A driver nobody is using. *)
Definition at_rest (drv : DriverDisk) : Prop :=
  owner (lock drv) = None /\ lock_queue (lock drv) = []
  /\ counter (semaphore drv) = 0 /\ sem_queue (semaphore drv) = []
  /\ active (disk drv) = false.

(** A schedule on [two_clients] that takes thread 0 through its request up
    to the call of [Release]. *)
Definition served_schedule : list Event :=
  [Run 0%nat; Run 0%nat; DiskInterrupt; Run 0%nat].

(** ** The user library ([userlib/libnachos.c]) *)

(** The functions that only read ([n_strlen], [n_strcmp], [n_atoi],
    [n_memcmp]) and [n_memset], which has one pointer, take a pointer
    argument as the bytes from the pointed one on: a list of bytes. An
    access past the end of that list, which C leaves undefined, is [None].

    The functions that write through one pointer while they read through
    others ([n_strcpy], [n_strcat], [n_memcpy], [n_vsnprintf] and its
    callers) take the memory of the program, a list of bytes indexed by
    address, and their pointers as addresses, 0 being the null pointer:
    the areas they are given may overlap, and a read gives what the memory
    holds when it is made. An access outside the memory is [None]. A
    function of the first kind is applied to [drop p mem], the bytes of the
    memory from address [p] on.

    [char] is the unsigned 8-bit type it is in the RISC-V ABI user programs
    are compiled for. Index and count variables of type [int] stay far
    below [INT_MAX] on such lists and are not wrapped; the [int]
    accumulators of [n_atoi] are. *)
Module Libnachos.

(** [n_strlen]: [i] is the index the scan has reached and [s] what is left
    of the string from there. *)
Fixpoint n_strlen_from (s : list Z) (i : Z) : option Z :=
  match s with
  | [] => None
  | c :: s' => if negb (c =? 0) then n_strlen_from s' (i + 1) else Some i
  end.

Definition n_strlen (s : list Z) : option Z := n_strlen_from s 0.

(** [n_strcmp]: one turn of the loop sets [fini] and [comparaison] in up to
    three successive tests; [Some comparaison] stands for [fini = 1]. *)
Fixpoint n_strcmp (s1 s2 : list Z) : option Z :=
  match s1, s2 with
  | c1 :: s1', c2 :: s2' =>
      let fini := None in
      let fini := if (c1 =? 0) && (c2 =? 0) then Some 0 else fini in
      let fini := if c1 <? c2 then Some (-1) else fini in
      let fini := if c1 >? c2 then Some 1 else fini in
      match fini with
      | Some comparaison => Some comparaison
      | None => n_strcmp s1' s2'
      end
  | _, _ => None
  end.

(** The loop of [n_strcpy] from index [i] on: the memory it leaves.
    [room] counts the addresses from [i] to the end of the memory; when
    none is left, [src[i]] is outside the memory. *)
Fixpoint n_strcpy_loop (room : nat) (mem : list Z) (dst src i : nat)
  : option (list Z) :=
  match room with
  | O => None
  | S room' =>
      c ← mem !! (src + i)%nat;
      if decide (dst + i < length mem)%nat then
        let mem := <[(dst + i)%nat := c]> mem in
        if c =? 0 then Some mem
        else n_strcpy_loop room' mem dst src (i + 1)
      else None
  end.

(** [n_strcpy]: the memory it leaves and the pointer it returns. *)
Definition n_strcpy (mem : list Z) (dst src : nat) : option (list Z * nat) :=
  if negb (Nat.eqb dst 0) && negb (Nat.eqb src 0) then
    mem ← n_strcpy_loop (length mem) mem dst src 0;
    Some (mem, dst)
  else Some (mem, 0%nat).

(** [n_strcat]: [for (k = i; k <= j + i; k++) dst[k] = src[k - i];] *)
Definition n_strcat (mem : list Z) (dst src : nat) : option (list Z * nat) :=
  i ← n_strlen (drop dst mem);
  j ← n_strlen (drop src mem);
  mem ← foldl (fun acc k =>
                 mem ← acc;
                 c ← mem !! (src + (k - Z.to_nat i))%nat;
                 if decide (dst + k < length mem)%nat
                 then Some (<[(dst + k)%nat := c]> mem) else None)
              (Some mem) (seq (Z.to_nat i) (Z.to_nat j + 1));
  Some (mem, dst).

Definition n_toupper (c : Z) : Z :=
  if (c >=? 97) && (c <=? 122) then c + (65 - 97) else c.

Definition n_tolower (c : Z) : Z :=
  if (c <=? 90) && (c >=? 65) then c + (97 - 65) else c.

(** The loop of [n_atoi], from index [i] on, [val] being the value so far. *)
Fixpoint n_atoi_loop (str : list Z) (val : Z) : option Z :=
  match str with
  | [] => None
  | c :: str' =>
      if (c =? 0) || (c <? 48) || (c >? 57) then Some val
      else n_atoi_loop str' (int32 (int32 (val * 10) + (c - 48)))
  end.

Definition n_atoi (str : list Z) : option Z :=
  match str with
  | [] => None
  | c :: str' =>
      if c =? 45 then (fun val => int32 (- val)) <$> n_atoi_loop str' 0
      else n_atoi_loop str 0
  end.

(** [n_memcmp] on the two areas seen as unsigned characters, [n] bytes
    being left to compare. *)
Fixpoint n_memcmp_loop (c1 c2 : list Z) (n : nat) {struct n} : option Z :=
  match n with
  | O => Some 0
  | S n' =>
      match c1, c2 with
      | a :: c1', b :: c2' =>
          let fini := None in
          let fini := if uint8 a <? uint8 b then Some (-1) else fini in
          let fini := if uint8 a >? uint8 b then Some 1 else fini in
          match fini with
          | Some comparaison => Some comparaison
          | None => n_memcmp_loop c1' c2' n'
          end
      | _, _ => None
      end
  end.

Definition n_memcmp (s1 s2 : list Z) (n : Z) : option Z :=
  n_memcmp_loop s1 s2 (Z.to_nat n).

(** The loop of [n_memcpy] from index [i] on, [n] bytes being left to
    copy. *)
Fixpoint n_memcpy_loop (mem : list Z) (c1 c2 i : nat) (n : nat) {struct n}
  : option (list Z) :=
  match n with
  | O => Some mem
  | S n' =>
      b ← mem !! (c2 + i)%nat;
      if decide (c1 + i < length mem)%nat
      then n_memcpy_loop (<[(c1 + i)%nat := uint8 b]> mem) c1 c2 (i + 1) n'
      else None
  end.

(** [n_memcpy]: the memory it leaves and the pointer it returns. *)
Definition n_memcpy (mem : list Z) (s1 s2 : nat) (n : Z)
  : option (list Z * nat) :=
  if negb (Nat.eqb s1 0) && negb (Nat.eqb s2 0) then
    mem ← n_memcpy_loop mem s1 s2 0 (Z.to_nat n);
    Some (mem, s1)
  else Some (mem, 0%nat).

Fixpoint n_memset_loop (c1 : list Z) (c : Z) (n : nat) {struct n}
  : option (list Z) :=
  match n with
  | O => Some c1
  | S n' =>
      match c1 with
      | _ :: c1' => cons (uint8 c) <$> n_memset_loop c1' c n'
      | [] => None
      end
  end.

Definition n_memset (s : list Z) (c : Z) (n : Z) : option (list Z) :=
  n_memset_loop s c (Z.to_nat n).

(** *** Formatted output *)

(** The arguments behind a [va_list]: 64-bit integer slots and pointers to
    strings. Fetching an argument of the other kind, or one that is not
    there, is undefined. *)
Inductive va_arg :=
| VaInt (v : Z)
| VaStr (string : nat).

(** The macro [PUTCHAR]. The state is the memory, the pointer [buff] and
    [result]. *)
Definition PUTCHAR (len : Z) (st : list Z * nat * Z) (carac : Z)
  : option (list Z * nat * Z) :=
  if st.2 <? len - 1 then
    if decide (st.1.2 < length st.1.1)%nat
    then Some (<[st.1.2 := uint8 carac]> st.1.1, S st.1.2, st.2 + 1)
    else None
  else Some (st.1.1, st.1.2, st.2 + 1).

(** [PUTCHAR] of each character of a local array in turn. *)
Definition PUTCHARs (len : Z) (st : list Z * nat * Z) (cs : list Z)
  : option (list Z * nat * Z) :=
  foldl (fun acc c => st ← acc; PUTCHAR len st c) (Some st) cs.

(** The [do ... while] loop of [%d] and [%ld]: [buff_int] holds the digits
    stored so far, last stored first, and [size] is the room left in it. *)
Fixpoint decimal_digits (size : nat) (integer : Z) (buff_int : list Z)
  : option (list Z) :=
  match size with
  | O => None
  | S size' =>
      let m10 := Z.rem integer 10 in
      let m10 := if m10 <? 0 then - m10 else m10 in
      let buff_int := (48 + m10) :: buff_int in
      let integer := Z.quot integer 10 in
      if negb (integer =? 0) then decimal_digits size' integer buff_int
      else Some buff_int
  end.

(** [%d] ([size = 11], an [int]) and [%ld] ([size = 20], a [long]). *)
Definition print_decimal (len : Z) (size : nat) (integer : Z)
    (st : list Z * nat * Z) : option (list Z * nat * Z) :=
  st ← (if integer <? 0 then PUTCHAR len st 45 else Some st);
  buff_int ← decimal_digits size integer [];
  PUTCHARs len st buff_int.

(** The loop of [%x] ([w = 32]) and [%lx] ([w = 64]) from nibble [i] on,
    [n] nibbles being left. *)
Fixpoint print_hexa_loop (len w hexa : Z) (n : nat) (i : Z)
    (had_nonzero : bool) (st : list Z * nat * Z)
  : option (bool * (list Z * nat * Z)) :=
  match n with
  | O => Some (had_nonzero, st)
  | S n' =>
      let nb := to_uint w (Z.shiftl hexa (i * 4)) in
      let nb := Z.shiftr nb (w - 4) in
      let nb := Z.land nb 0xf in
      if nb =? 0 then
        if had_nonzero then
          st ← PUTCHAR len st 48;
          print_hexa_loop len w hexa n' (i + 1) had_nonzero st
        else print_hexa_loop len w hexa n' (i + 1) had_nonzero st
      else
        if nb <? 10 then
          st ← PUTCHAR len st (48 + nb);
          print_hexa_loop len w hexa n' (i + 1) true st
        else
          st ← PUTCHAR len st (97 + (nb - 10));
          print_hexa_loop len w hexa n' (i + 1) true st
  end.

Definition print_hexa (len w hexa : Z) (st : list Z * nat * Z)
  : option (list Z * nat * Z) :=
  r ← print_hexa_loop len w hexa (Z.to_nat (w / 4)) 0 false st;
  if negb r.1 then PUTCHAR len r.2 48 else Some r.2.

(** The loop of [%s]: one [PUTCHAR] per character read at [string], up to
    a NUL. [room] counts the addresses from [string] to the end of the
    memory. *)
Fixpoint print_string (room : nat) (len : Z) (string : nat)
    (st : list Z * nat * Z) : option (list Z * nat * Z) :=
  match room with
  | O => None
  | S room' =>
      c ← st.1.1 !! string;
      if negb (c =? 0) then
        st ← PUTCHAR len st c;
        print_string room' len (S string) st
      else Some st
  end.

(** The characters of the string literal ["(null)"], which lies in the
    read-only data of the program, where no buffer is. *)
Definition null_string : list Z := [40; 110; 117; 108; 108; 41].

(** The main loop of [n_vsnprintf], [format[i]] being at address [pos].
    [room] counts the addresses from [pos] to the end of the memory. In the
    two [default] cases [format[i]] is read again after the [PUTCHAR]s
    before it. *)
Fixpoint n_vsnprintf_loop (room : nat) (len : Z) (pos : nat)
    (ap : list va_arg) (st : list Z * nat * Z) {struct room}
  : option (list Z * nat * Z) :=
  match room with
  | O => None
  | S room1 =>
      c ← st.1.1 !! pos;
      if c =? 0 then Some st
      else if c =? 37 then                                  (* '%' *)
        match room1 with
        | O => None
        | S room2 =>
            c1 ← st.1.1 !! (pos + 1)%nat;
            if c1 =? 37 then
              st ← PUTCHAR len st 37;
              n_vsnprintf_loop room2 len (pos + 2) ap st
            else if (c1 =? 105) || (c1 =? 100) then         (* 'i', 'd' *)
              match ap with
              | VaInt v :: ap' =>
                  st ← print_decimal len 11 (int32 v) st;
                  n_vsnprintf_loop room2 len (pos + 2) ap' st
              | _ => None
              end
            else if c1 =? 108 then                          (* 'l' *)
              match room2 with
              | O => None
              | S room3 =>
                  c2 ← st.1.1 !! (pos + 2)%nat;
                  if c2 =? 100 then                         (* 'd' *)
                    match ap with
                    | VaInt v :: ap' =>
                        st ← print_decimal len 20 (int64 v) st;
                        n_vsnprintf_loop room3 len (pos + 3) ap' st
                    | _ => None
                    end
                  else if c2 =? 120 then                    (* 'x' *)
                    match ap with
                    | VaInt v :: ap' =>
                        st ← print_hexa len 64 (uint64 v) st;
                        n_vsnprintf_loop room3 len (pos + 3) ap' st
                    | _ => None
                    end
                  else
                    st ← PUTCHAR len st 37;
                    st ← PUTCHAR len st 108;
                    c2 ← st.1.1 !! (pos + 2)%nat;
                    st ← PUTCHAR len st c2;
                    n_vsnprintf_loop room3 len (pos + 3) ap st
              end
            else if c1 =? 99 then                           (* 'c' *)
              match ap with
              | VaInt v :: ap' =>
                  st ← PUTCHAR len st (int32 v);
                  n_vsnprintf_loop room2 len (pos + 2) ap' st
              | _ => None
              end
            else if c1 =? 115 then                          (* 's' *)
              match ap with
              | VaStr string :: ap' =>
                  st ← (if Nat.eqb string 0 then PUTCHARs len st null_string
                        else print_string (length st.1.1 - string) len
                                          string st);
                  n_vsnprintf_loop room2 len (pos + 2) ap' st
              | _ => None
              end
            else if c1 =? 120 then                          (* 'x' *)
              match ap with
              | VaInt v :: ap' =>
                  st ← print_hexa len 32 (uint32 v) st;
                  n_vsnprintf_loop room2 len (pos + 2) ap' st
              | _ => None
              end
            else
              st ← PUTCHAR len st 37;
              c1 ← st.1.1 !! (pos + 1)%nat;
              st ← PUTCHAR len st c1;
              n_vsnprintf_loop room2 len (pos + 2) ap st
        end
      else
        st ← PUTCHAR len st c;
        n_vsnprintf_loop room1 len (pos + 1) ap st
  end.

(** [n_vsnprintf]: the value returned and the memory it leaves. *)
Definition n_vsnprintf (mem : list Z) (buff : nat) (len : Z) (format : nat)
    (ap : list va_arg) : option (Z * list Z) :=
  if Nat.eqb buff 0 || Nat.eqb format 0 || (len <? 0) then Some (-1, mem)
  else
    st ← n_vsnprintf_loop (length mem - format) len format ap (mem, buff, 0);
    if decide (st.1.2 < length st.1.1)%nat
    then Some (st.2, <[st.1.2 := 0]> st.1.1)
    else None.

(** [n_snprintf]. *)
Definition n_snprintf := n_vsnprintf.

(** [n_printf]: the characters handed to [Write] for the console, if the
    call is made. [buff] is where the local array of 200 bytes lives;
    [len >= sizeof(buff)] compares as unsigned. *)
Definition n_printf (mem : list Z) (buff : nat) (format : nat)
    (ap : list va_arg) : option (option (list Z)) :=
  r ← n_vsnprintf mem buff 200 format ap;
  let len := r.1 in
  let len := if uint64 len >=? 200 then 200 - 1 else len in
  if len >? 0 then Some (Some (take (Z.to_nat len) (drop buff r.2)))
  else Some None.

End Libnachos.

Import Libnachos.

(** *** Strings in the memory *)

(** [a] holds no NUL: the characters of a string before its terminator. *)
Definition no_NUL (a : list Z) : Prop := Forall (fun c => c <> 0) a.

(** The NUL-terminated string [s] sits at address [p]. *)
Definition string_at (mem : list Z) (p : nat) (s : list Z) : Prop :=
  no_NUL s /\ take (length s + 1) (drop p mem) = s ++ [0].

(** The [n] bytes at [p] lie apart from the addresses [lo .. hi - 1]. *)
Definition apart (lo hi p n : nat) : Prop :=
  (p + n <= lo)%nat \/ (hi <= p)%nat.

(** [mem] with [chars] stored from address [buff] on. *)
Definition written (mem : list Z) (buff : nat) (chars : list Z) : list Z :=
  take buff mem ++ chars ++ drop (buff + length chars) mem.

(** A format that does not end inside a conversion: no ['%'] or ["%l"]
    right before the terminator. [s] is the format without its NUL. *)
Fixpoint complete_format (s : list Z) : bool :=
  match s with
  | [] => true
  | c :: s1 =>
      if c =? 37 then
        match s1 with
        | [] => false
        | c1 :: s2 =>
            if c1 =? 108 then
              match s2 with
              | [] => false
              | _ :: s3 => complete_format s3
              end
            else complete_format s2
        end
      else complete_format s1
  end.

(** A [%s] argument is null or points to a string apart from
    [lo .. hi - 1]. *)
Definition arg_apart (mem : list Z) (lo hi : nat) (a : va_arg) : Prop :=
  match a with
  | VaInt _ => True
  | VaStr p =>
      p = 0%nat \/ exists s, string_at mem p s /\ apart lo hi p (length s + 1)
  end.

(** A decimal digit, and the number a list of digits writes. *)
Definition is_digit (c : Z) : Prop := 48 <= c <= 57.

Definition digits_value (ds : list Z) : Z :=
  foldl (fun val c => val * 10 + (c - 48)) 0 ds.

(** *** The characters a format produces *)

(** The formatter once more, for the proofs, on a buffer that holds none of
    the strings it reads: the format and the strings are lists, the state
    is the characters stored so far and [result]. The theorems below show
    that [n_vsnprintf] computes the same whenever its strings lie apart
    from its buffer. *)

(** The arguments: a string argument is the characters it points to, with
    their terminator, or [None] for a null pointer. *)
Inductive out_arg :=
| OutInt (v : Z)
| OutStr (string : option (list Z)).

(** [PUTCHAR] on this state: the state is the characters stored in [buff] so
    far and [result]. *)
Definition out_PUTCHAR (len : Z) (st : list Z * Z) (carac : Z) : list Z * Z :=
  (if snd st <? len - 1 then fst st ++ [uint8 carac] else fst st, snd st + 1).

(** [%d] ([size = 11], an [int]) and [%ld] ([size = 20], a [long]). *)
Definition out_decimal (len : Z) (size : nat) (integer : Z)
    (st : list Z * Z) : option (list Z * Z) :=
  let st := if integer <? 0 then out_PUTCHAR len st 45 else st in
  buff_int ← decimal_digits size integer [];
  Some (foldl (out_PUTCHAR len) st buff_int).

(** The loop of [%x] ([w = 32]) and [%lx] ([w = 64]) from nibble [i] on,
    [n] nibbles being left. *)
Fixpoint out_hexa_loop (len w hexa : Z) (n : nat) (i : Z)
    (had_nonzero : bool) (st : list Z * Z) : bool * (list Z * Z) :=
  match n with
  | O => (had_nonzero, st)
  | S n' =>
      let nb := to_uint w (Z.shiftl hexa (i * 4)) in
      let nb := Z.shiftr nb (w - 4) in
      let nb := Z.land nb 0xf in
      if nb =? 0 then
        if had_nonzero
        then out_hexa_loop len w hexa n' (i + 1) had_nonzero
                             (out_PUTCHAR len st 48)
        else out_hexa_loop len w hexa n' (i + 1) had_nonzero st
      else
        if nb <? 10
        then out_hexa_loop len w hexa n' (i + 1) true
                             (out_PUTCHAR len st (48 + nb))
        else out_hexa_loop len w hexa n' (i + 1) true
                             (out_PUTCHAR len st (97 + (nb - 10)))
  end.

Definition out_hexa (len w hexa : Z) (st : list Z * Z) : list Z * Z :=
  let '(had_nonzero, st) :=
    out_hexa_loop len w hexa (Z.to_nat (w / 4)) 0 false st in
  if negb had_nonzero then out_PUTCHAR len st 48 else st.

(** The loop of [%s]: one [out_PUTCHAR] per character of [string], up to its
    terminating NUL. *)
Fixpoint out_string (len : Z) (string : list Z) (st : list Z * Z)
  : option (list Z * Z) :=
  match string with
  | [] => None
  | c :: string' =>
      if negb (c =? 0) then out_string len string' (out_PUTCHAR len st c)
      else Some st
  end.

(** The string literal ["(null)"]. *)
Definition out_null_string : list Z := [40; 110; 117; 108; 108; 41; 0].

(** The main loop: [format] is what is left of the format
    from index [i] on. *)
Fixpoint out_loop (len : Z) (format : list Z) (ap : list out_arg)
    (st : list Z * Z) : option (list Z * Z) :=
  match format with
  | [] => None
  | c :: format1 =>
      if c =? 0 then Some st
      else if c =? 37 then                                  (* '%' *)
        match format1 with
        | [] => None
        | c1 :: format2 =>
            if c1 =? 37 then
              out_loop len format2 ap (out_PUTCHAR len st 37)
            else if (c1 =? 105) || (c1 =? 100) then         (* 'i', 'd' *)
              match ap with
              | OutInt v :: ap' =>
                  st ← out_decimal len 11 (int32 v) st;
                  out_loop len format2 ap' st
              | _ => None
              end
            else if c1 =? 108 then                          (* 'l' *)
              match format2 with
              | [] => None
              | c2 :: format3 =>
                  if c2 =? 100 then                         (* 'd' *)
                    match ap with
                    | OutInt v :: ap' =>
                        st ← out_decimal len 20 (int64 v) st;
                        out_loop len format3 ap' st
                    | _ => None
                    end
                  else if c2 =? 120 then                    (* 'x' *)
                    match ap with
                    | OutInt v :: ap' =>
                        out_loop len format3 ap'
                          (out_hexa len 64 (uint64 v) st)
                    | _ => None
                    end
                  else
                    out_loop len format3 ap
                      (out_PUTCHAR len (out_PUTCHAR len (out_PUTCHAR len st 37) 108) c2)
              end
            else if c1 =? 99 then                           (* 'c' *)
              match ap with
              | OutInt v :: ap' =>
                  out_loop len format2 ap' (out_PUTCHAR len st (int32 v))
              | _ => None
              end
            else if c1 =? 115 then                          (* 's' *)
              match ap with
              | OutStr string :: ap' =>
                  let string := match string with
                                | Some string => string
                                | None => out_null_string
                                end in
                  st ← out_string len string st;
                  out_loop len format2 ap' st
              | _ => None
              end
            else if c1 =? 120 then                          (* 'x' *)
              match ap with
              | OutInt v :: ap' =>
                  out_loop len format2 ap'
                    (out_hexa len 32 (uint32 v) st)
              | _ => None
              end
            else
              out_loop len format2 ap
                (out_PUTCHAR len (out_PUTCHAR len st 37) c1)
        end
      else out_loop len format1 ap (out_PUTCHAR len st c)
  end.

(** [out_vsnprintf]: the value returned and the bytes stored from the start
    of [buff]; [buff] tells whether the pointer is non-null. *)
Definition out_vsnprintf (buff : bool) (len : Z) (format : option (list Z))
    (ap : list out_arg) : option (Z * list Z) :=
  match format with
  | Some format =>
      if negb buff || (len <? 0) then Some (-1, [])
      else
        st ← out_loop len format ap ([], 0);
        Some (snd st, fst st ++ [0])
  | None => Some (-1, [])
  end.

(** [st] is what the [out_PUTCHAR]s of the characters [full] leave behind with
    a buffer of [len] bytes: all of them counted, the first [len - 1]
    stored. *)
Definition stored (len : Z) (full : list Z) (st : list Z * Z) : Prop :=
  snd st = Z.of_nat (length full)
  /\ fst st = take (Z.to_nat (len - 1)) full.

(** Two states, for buffers of [len1] and [len2] bytes, that the same
    characters lead to. *)
Definition same_output (len1 len2 : Z) (st1 st2 : list Z * Z) : Prop :=
  exists full, stored len1 full st1 /\ stored len2 full st2.

Definition same_result (len1 len2 : Z) (r1 r2 : option (list Z * Z)) : Prop :=
  match r1, r2 with
  | Some st1, Some st2 => same_output len1 len2 st1 st2
  | None, None => True
  | _, _ => False
  end.

(** The state of [n_vsnprintf] that the state [st] of [out_vsnprintf]
    stands for, the buffer being at [buff] in [mem]. *)
Definition in_memory (mem : list Z) (buff : nat) (st : list Z * Z)
  : list Z * nat * Z :=
  (written mem buff st.1, (buff + length st.1)%nat, st.2).

(** The argument of [out_vsnprintf] that stands for an argument of
    [n_vsnprintf]. *)
Definition arg_at (mem : list Z) (lo hi : nat) (a : va_arg) (o : out_arg)
  : Prop :=
  match a, o with
  | VaInt v, OutInt v' => v = v'
  | VaStr p, OutStr None => p = 0%nat
  | VaStr p, OutStr (Some l) =>
      p <> 0%nat
      /\ exists s, l = s ++ [0] /\ string_at mem p s
                   /\ apart lo hi p (length s + 1)
  | _, _ => False
  end.

(** A memory of 24 bytes: address 0 is not used, ["abc"] sits at address 1,
    ["%d"] at 5, ["-42"] at 8, and a buffer of 12 bytes at 12. *)
Definition memory : list Z :=
  [7; 97; 98; 99; 0; 37; 100; 0; 45; 52; 50; 0] ++ replicate 12 7.

(** The same memory followed by 200 bytes, where the local array of
    [n_printf] lives: at address 24. *)
Definition memory_200 : list Z := memory ++ replicate 200 7.

(** The strings ["abc"], ["abd"] and ["-42"]. *)
Definition abc : list Z := [97; 98; 99; 0].
Definition abd : list Z := [97; 98; 100; 0].
Definition minus_42 : list Z := [45; 52; 50; 0].

(** * Properties *)

(** ** Fixed-width integers *)

Lemma to_uint_range w x : 0 <= w -> 0 <= to_uint w x < 2 ^ w.
Proof.
  intros Hw. unfold to_uint. apply Z.mod_pos_bound. apply Z.pow_pos_nonneg; lia.
Qed.

Lemma to_int_range w x : 0 < w -> - 2 ^ (w - 1) <= to_int w x < 2 ^ (w - 1).
Proof.
  intros Hw. unfold to_int.
  assert (Hp : 2 ^ w = 2 * 2 ^ (w - 1)).
  { rewrite <- Z.pow_succ_r by lia. f_equal. lia. }
  assert (0 < 2 ^ (w - 1)) by (apply Z.pow_pos_nonneg; lia).
  pose proof (Z.mod_pos_bound (x + 2 ^ (w - 1)) (2 ^ w)). lia.
Qed.

Lemma to_int_id w x : 0 < w -> - 2 ^ (w - 1) <= x < 2 ^ (w - 1) -> to_int w x = x.
Proof.
  intros Hw Hx. unfold to_int.
  assert (Hp : 2 ^ w = 2 * 2 ^ (w - 1)).
  { rewrite <- Z.pow_succ_r by lia. f_equal. lia. }
  rewrite Z.mod_small by lia. lia.
Qed.

Lemma to_uint_id w x : 0 <= x < 2 ^ w -> to_uint w x = x.
Proof. intros Hx. unfold to_uint. now apply Z.mod_small. Qed.

(** ** The power-on state *)

Lemma zero_fill_from (n : nat) : forall (done rest : list Z),
  length rest = n ->
  foldl (fun a i => <[i := 0]> a) (done ++ rest) (seq (length done) n)
  = done ++ replicate n 0.
Proof.
  induction n as [|n IH]; intros done rest Hlen.
  - destruct rest; [reflexivity | discriminate].
  - destruct rest as [|x rest]; [discriminate|]. cbn [seq foldl].
    rewrite insert_app_r_alt by lia. rewrite Nat.sub_diag.
    change (<[0%nat := 0]> (x :: rest)) with ([0] ++ rest).
    rewrite app_assoc.
    replace (S (length done)) with (length (done ++ [0]))
      by (rewrite length_app; simpl; lia).
    rewrite IH by (simpl in Hlen; lia).
    rewrite <- app_assoc. reflexivity.
Qed.

Lemma zero_fill_replicate (n : nat) (a : list Z) :
  length a = n -> zero_fill n a = replicate n 0.
Proof. intros Hlen. apply (zero_fill_from n [] a Hlen). Qed.

Lemma memSize_exact (g_cfg : Config) :
  0 <= NumPhysPages g_cfg * PageSize g_cfg < 2 ^ 31 ->
  memSize g_cfg = NumPhysPages g_cfg * PageSize g_cfg.
Proof. intros H. unfold memSize, int32. apply to_int_id; lia. Qed.

(** C10. When the constructor [Machine::Machine] returns, the 32 integer
    registers and the 32 floating-point registers are 0, every byte of main
    memory is 0, and the machine is in system mode. It returns unless the
    size computed for the memory is negative, and the memory has
    [NumPhysPages * PageSize] bytes whenever that product is an [int]. The
    storage of the object before the call and the content of the freshly
    allocated memory are arbitrary. *)
Theorem Machine_Machine_zeroed
    (new_int8_array : nat -> list Z) (host : HostLayout) (g_cfg : Config)
    (this : Machine) (host_endianess : Endianess) (debug : bool) :
  (forall n, length (new_int8_array n) = n) ->
  length (int_registers this) = NUM_INT_REGS ->
  length (float_registers this) = NUM_FP_REGS ->
  (0 <= memSize g_cfg ->
   is_Some (Machine_Machine new_int8_array host g_cfg this host_endianess
                            debug))
  /\ (forall m e,
        Machine_Machine new_int8_array host g_cfg this host_endianess debug
        = Some (m, e) ->
        int_registers m = replicate 32 0
        /\ float_registers m = replicate 32 0
        /\ mainMemory m = replicate (Z.to_nat (memSize g_cfg)) 0
        /\ status m = SYSTEM_MODE
        /\ (0 <= NumPhysPages g_cfg * PageSize g_cfg < 2 ^ 31 ->
            length (mainMemory m)
            = Z.to_nat (NumPhysPages g_cfg * PageSize g_cfg))).
Proof.
  intros Hnew Hint Hfp. unfold Machine_Machine.
  destruct (Z.ltb_spec (memSize g_cfg) 0) as [Hneg|Hpos].
  - split; [lia | discriminate].
  - split; [eauto|]. intros m e H. inversion H; subst m e; clear H.
    unfold set_status, set_singleStep, set_mainMemory, set_float_registers,
      set_int_registers.
    cbn [int_registers float_registers mainMemory status].
    rewrite !zero_fill_replicate by auto.
    repeat split; try reflexivity.
    intros Hsize. rewrite length_replicate, (memSize_exact g_cfg Hsize).
    reflexivity.
Qed.

(** A machine of 4 pages of 8 bytes, built over storage filled with other
    values. *)
Lemma Machine_Machine_zeroed_witness :
  exists m e,
    Machine_Machine (fun n => replicate n 0x55) little_endian_host
                    (mkConfig 4 8 false)
                    (mkMachine (replicate 32 7) (replicate 32 9) 3 3 [] USER_MODE
                               true [] 3 3)
                    IS_BIG_ENDIAN false
    = Some (m, e)
    /\ int_registers m = replicate 32 0
    /\ float_registers m = replicate 32 0
    /\ mainMemory m = replicate 32 0
    /\ status m = SYSTEM_MODE
    /\ length (mainMemory m) = 32%nat.
Proof.
  destruct (Machine_Machine_zeroed (fun n => replicate n 0x55)
              little_endian_host (mkConfig 4 8 false)
              (mkMachine (replicate 32 7) (replicate 32 9) 3 3 [] USER_MODE
                         true [] 3 3)
              IS_BIG_ENDIAN false)
    as [Hreturns Hzeroed].
  - intros n. apply length_replicate.
  - reflexivity.
  - reflexivity.
  - destruct Hreturns as [[m e] Hm]; [vm_compute; discriminate|].
    exists m, e. split; [exact Hm|].
    destruct (Hzeroed m e Hm) as (Hi & Hf & Hmem & Hst & Hlen).
    repeat split; auto. apply Hlen. simpl. lia.
Defined.

(** ** The endianness check *)

Lemma CheckEndian_little (e : Endianess) :
  CheckEndian little_endian_host e = IS_LITTLE_ENDIAN.
Proof. reflexivity. Qed.

Lemma CheckEndian_big (e : Endianess) :
  CheckEndian big_endian_host e = IS_BIG_ENDIAN.
Proof. reflexivity. Qed.




(** A layout that is neither, the PDP-11 order, which no host of the
    simulator has: there the bytes 1, 2, 3, 4 read as [0x02010403], and
    [CheckEndian], which has no final [else], would return with
    [host_endianess] as it found it. *)
Lemma CheckEndian_mismatch_continues :
  intword middle_endian_host [1; 2; 3; 4] = 0x02010403
  /\ (forall e, CheckEndian middle_endian_host e = e)
  /\ (forall this e debug,
        exists m,
          Machine_Machine (fun n => replicate n 0) middle_endian_host
                          (mkConfig 4 8 false) this e debug
          = Some (m, e)).
Proof.
  split; [reflexivity|]. split; [intros e; reflexivity|].
  intros this e debug. eexists. reflexivity.
Qed.

(** ** The interpreter *)

Section InterpreterFacts.

Variables (USER_TICK ERROR : Z) (Decode : Z -> Instruction).
Variable ReadMem : Machine -> Z -> Z -> Machine * option Z.
Variable WriteMem : Machine -> Z -> Z -> Z -> Machine * bool.
Variable ExceptionHandler : Z -> Z -> Machine -> option Machine.
Variables sqrt_int64 fabs_int64 neg_fabs_int64 : Z -> Z.
Variable host_shift_right : Z -> Z -> Z.
Variable host_shiftMask : Machine -> Z -> Z.

Ltac unfold_RaiseException := unfold RaiseException.
Ltac unfold_Execute := unfold Execute.
Ltac unfold_OneInstruction := unfold OneInstruction.
Ltac unfold_access_failed := unfold access_failed.

Local Abbreviation RaiseException := (RaiseException ERROR ExceptionHandler).
Local Abbreviation Execute :=
  (Execute ERROR ReadMem WriteMem ExceptionHandler
           sqrt_int64 fabs_int64 neg_fabs_int64
           host_shift_right host_shiftMask).
Local Abbreviation access_failed := (access_failed ReadMem WriteMem).
Local Abbreviation OneInstruction :=
  (OneInstruction USER_TICK ERROR Decode ReadMem WriteMem ExceptionHandler
                  sqrt_int64 fabs_int64 neg_fabs_int64
                  host_shift_right host_shiftMask).

(** *** Raising an exception *)

(** C7. For an exception number of at most 7, [RaiseException] calls the
    kernel's handler on a machine that is in system mode and whose
    bad-vaddr register holds [badVAddr]; when the handler returns,
    [RaiseException] returns the machine the handler left, put back in
    user mode. *)
Theorem RaiseException_modes (which badVAddr : Z) (m : Machine) :
  which <= 7 ->
  let entry := set_status (set_badvaddr_reg m badVAddr) SYSTEM_MODE in
  status entry = SYSTEM_MODE
  /\ badvaddr_reg entry = badVAddr
  /\ (forall m', ExceptionHandler which badVAddr entry = Some m' ->
        RaiseException which badVAddr m = Done tt (set_status m' USER_MODE)
        /\ status (set_status m' USER_MODE) = USER_MODE)
  /\ (ExceptionHandler which badVAddr entry = None ->
        RaiseException which badVAddr m = NoReturn).
Proof.
  intros Hwhich entry. unfold_RaiseException.
  destruct (Z.leb_spec which EXCEPTION_NUMBER) as [_|Hgt];
    [|unfold EXCEPTION_NUMBER in Hgt; lia].
  fold entry. split; [reflexivity|]. split; [reflexivity|]. split.
  - intros m' Hm'. rewrite Hm'. split; reflexivity.
  - intros Hnone. rewrite Hnone. reflexivity.
Qed.

(** Beyond 7 the machine halts instead. *)
Lemma RaiseException_bad_number (which badVAddr : Z) (m : Machine) :
  7 < which -> RaiseException which badVAddr m = Exit ERROR.
Proof.
  intros Hwhich. unfold_RaiseException.
  destruct (Z.leb_spec which EXCEPTION_NUMBER) as [Hle|_];
    [unfold EXCEPTION_NUMBER in Hle; lia | reflexivity].
Qed.

(** *** Loads and stores *)

Lemma load_Break m addr size st m' :
  load ReadMem m addr size st = Break m' ->
  exists m1 v, ReadMem m addr size = (m1, Some v) /\ m' = st m1 v.
Proof.
  unfold load. destruct (ReadMem m addr size) as [m1 [v|]]; intros H;
    inversion H; eauto.
Qed.

Lemma load_Leave m addr size st r :
  load ReadMem m addr size st = Leave r ->
  exists m1, ReadMem m addr size = (m1, None) /\ r = Done 0 m1.
Proof.
  unfold load. destruct (ReadMem m addr size) as [m1 [v|]]; intros H;
    inversion H; eauto.
Qed.

Lemma load_fails m addr size st m1 :
  ReadMem m addr size = (m1, None) ->
  load ReadMem m addr size st = Leave (Done 0 m1).
Proof. intros H. unfold load. rewrite H. reflexivity. Qed.

Lemma store_Break m addr size v m' :
  store WriteMem m addr size v = Break m' ->
  WriteMem m addr size v = (m', true).
Proof.
  unfold store. destruct (WriteMem m addr size v) as [m1 [|]]; intros H;
    inversion H; eauto.
Qed.

Lemma store_Leave m addr size v r :
  store WriteMem m addr size v = Leave r ->
  exists m1, WriteMem m addr size v = (m1, false) /\ r = Done 0 m1.
Proof.
  unfold store. destruct (WriteMem m addr size v) as [m1 [|]]; intros H;
    inversion H; eauto.
Qed.

Lemma store_fails m addr size v m1 :
  WriteMem m addr size v = (m1, false) ->
  store WriteMem m addr size v = Leave (Done 0 m1).
Proof. intros H. unfold store. rewrite H. reflexivity. Qed.

(** *** The register file keeps its size *)

(** The register file is an array of the machine object: neither the MMU
    nor the kernel can change its size. *)
Hypothesis ReadMem_registers : forall m addr size m' r,
  ReadMem m addr size = (m', r) ->
  length (int_registers m') = length (int_registers m).
Hypothesis WriteMem_registers : forall m addr size v m' r,
  WriteMem m addr size v = (m', r) ->
  length (int_registers m') = length (int_registers m).
Hypothesis ExceptionHandler_registers : forall which badVAddr m m',
  ExceptionHandler which badVAddr m = Some m' ->
  length (int_registers m') = length (int_registers m).

Lemma set_ireg_registers m r v :
  length (int_registers (set_ireg m r v)) = length (int_registers m).
Proof. apply length_insert. Qed.

Ltac flow_cases :=
  repeat (case_match; try discriminate);
  repeat match goal with
         | H : Break _ = Break _ |- _ => inversion H; subst; clear H
         end.

Lemma load_registers m addr size r m' :
  load ReadMem m addr size (fun m1 v => set_ireg m1 r (v)) = Break m' ->
  length (int_registers m') = length (int_registers m).
Proof.
  intros H. apply load_Break in H as (m1 & v & Hread & ->).
  rewrite set_ireg_registers. eauto.
Qed.

Lemma exec_BR_registers m instr m' :
  exec_BR ERROR m instr = Break m' ->
  length (int_registers m') = length (int_registers m).
Proof. unfold exec_BR. intros H. flow_cases; reflexivity. Qed.

Lemma exec_LD_registers m instr m' :
  exec_LD ERROR ReadMem m instr = Break m' ->
  length (int_registers m') = length (int_registers m).
Proof.
  unfold exec_LD. intros H. flow_cases;
    apply load_Break in H as (m1 & v & Hread & ->);
    rewrite set_ireg_registers; eauto.
Qed.

Lemma exec_ST_registers m instr m' :
  exec_ST ERROR WriteMem m instr = Break m' ->
  length (int_registers m') = length (int_registers m).
Proof.
  unfold exec_ST. intros H. flow_cases; apply store_Break in H; eauto.
Qed.

Lemma exec_OPI_registers m instr m' :
  exec_OPI ERROR m instr = Break m' ->
  length (int_registers m') = length (int_registers m).
Proof.
  unfold exec_OPI. intros H. flow_cases; apply set_ireg_registers.
Qed.

Lemma exec_OPIW_registers m instr m' :
  exec_OPIW ERROR m instr = Break m' ->
  length (int_registers m') = length (int_registers m).
Proof.
  unfold exec_OPIW. intros H. flow_cases; apply set_ireg_registers.
Qed.

Lemma set_ireg_opt_registers m r q m' :
  set_ireg_opt m r q = Break m' ->
  length (int_registers m') = length (int_registers m).
Proof.
  destruct q; simpl; intros H; inversion H. apply set_ireg_registers.
Qed.

Lemma set_freg_opt_registers m r q m' :
  set_freg_opt m r q = Break m' ->
  length (int_registers m') = length (int_registers m).
Proof. destruct q; simpl; intros H; inversion H. reflexivity. Qed.

Lemma exec_OP_registers m instr m' :
  exec_OP ERROR m instr = Break m' ->
  length (int_registers m') = length (int_registers m).
Proof.
  unfold exec_OP, exec_OP_M. intros H.
  flow_cases;
    first [ apply set_ireg_registers
          | eapply set_ireg_opt_registers; eassumption
          | reflexivity ].
Qed.

Lemma exec_OPW_registers m instr m' :
  exec_OPW ERROR host_shift_right host_shiftMask m instr = Break m' ->
  length (int_registers m') = length (int_registers m).
Proof.
  unfold exec_OPW. intros H.
  flow_cases;
    first [ apply set_ireg_registers
          | eapply set_ireg_opt_registers; eassumption
          | reflexivity ].
Qed.

Lemma exec_FP_registers m instr m' :
  exec_FP sqrt_int64 fabs_int64 neg_fabs_int64 m instr = Break m' ->
  length (int_registers m') = length (int_registers m).
Proof.
  unfold exec_FP. intros H.
  flow_cases;
    first [ apply set_ireg_registers
          | eapply set_freg_opt_registers; eassumption
          | reflexivity ].
Qed.

Lemma RaiseException_registers which badVAddr m u m' :
  RaiseException which badVAddr m = Done u m' ->
  length (int_registers m') = length (int_registers m).
Proof.
  unfold_RaiseException. intros H.
  repeat (case_match; try discriminate). inversion H; subst.
  apply ExceptionHandler_registers in H1. exact H1.
Qed.

Lemma Execute_registers m instr m' :
  Execute m instr = Break m' ->
  length (int_registers m') = length (int_registers m).
Proof.
  unfold_Execute. intros H.
  repeat match type of H with
         | (if ?c then _ else _) = _ => destruct c eqn:?
         end;
    try discriminate;
    eauto using exec_BR_registers, exec_LD_registers, exec_ST_registers,
      exec_OPI_registers, exec_OPIW_registers, exec_OP_registers,
      exec_OPW_registers, exec_FP_registers.
  all: try (inversion H; subst; clear H;
            unfold set_ireg, set_freg, set_pc, set_int_registers,
              set_float_registers;
            cbn [int_registers]; rewrite ?length_insert; reflexivity).
  - (* RISCV_SYSTEM *)
    destruct (RaiseException SYSCALL_EXCEPTION (int32 (pc m)) m) eqn:Hraise;
      try discriminate.
    inversion H; subst. eapply RaiseException_registers; eassumption.
  - (* RISCV_FLW *)
    apply load_Break in H as (m1 & v & Hread & ->). simpl. eauto.
  - (* RISCV_FSW *) apply store_Break in H. eauto.
Qed.

(** *** Register 0 *)

(** C1. Whenever an instruction is executed (it is fetched, and its case
    of the switch runs to the [break]), [OneInstruction] returns with
    integer register 0 reading 0, whatever the instruction and whatever
    its destination register. *)
Theorem OneInstruction_register_zero (m m1 : Machine) (value : Z)
    (m3 : Machine) :
  length (int_registers m) = NUM_INT_REGS ->
  ReadMem m (uint64 (pc m)) 4 = (m1, Some value) ->
  Execute (set_pc m1 (int64 (pc m1 + 4))) (Decode value) = Break m3 ->
  exists m',
    OneInstruction m = Done USER_TICK m'
    /\ ReadIntRegister m' 0 = Some 0.
Proof.
  intros Hlen Hfetch Hexec. unfold_OneInstruction.
  rewrite Hfetch, Hexec. eexists. split; [reflexivity|].
  apply Execute_registers in Hexec. cbn [int_registers set_pc] in Hexec.
  apply ReadMem_registers in Hfetch. rewrite Hfetch, Hlen in Hexec.
  unfold ReadIntRegister, ireg, epilogue, set_counters, set_int_registers.
  cbn [int_registers Z.leb Z.ltb Z.compare Z.of_nat NUM_INT_REGS andb
       Z.to_nat Pos.of_succ_nat].
  destruct (int_registers m3) as [|r0 regs]; [discriminate|reflexivity].
Qed.

(** *** Cycle counts *)

Lemma Execute_LD m instr :
  opcode instr = RISCV_LD -> Execute m instr = exec_LD ERROR ReadMem m instr.
Proof. intros H. unfold_Execute. rewrite H. reflexivity. Qed.

Lemma Execute_ST m instr :
  opcode instr = RISCV_ST ->
  Execute m instr = exec_ST ERROR WriteMem m instr.
Proof. intros H. unfold_Execute. rewrite H. reflexivity. Qed.

Lemma Execute_FLW m instr :
  opcode instr = RISCV_FLW ->
  Execute m instr
  = load ReadMem m (uint64 (ireg m (rs1 instr) + imm12_I_signed instr)) 4
         (fun m' value => set_freg m' (rd instr) (int64 value)).
Proof. intros H. unfold_Execute. rewrite H. reflexivity. Qed.

Lemma Execute_FSW m instr :
  opcode instr = RISCV_FSW ->
  Execute m instr
  = store WriteMem m (uint32 (ireg m (rs1 instr) + imm12_S_signed instr)) 4
          (freg m (rs2 instr)).
Proof. intros H. unfold_Execute. rewrite H. reflexivity. Qed.

Ltac eqb_cases H :=
  repeat match type of H with
         | context [if ?a =? ?b then _ else _] =>
             destruct (Z.eqb_spec a b)
         end.

(** A failed read of data memory ends the instruction with 0 cycles. *)
Lemma Execute_read_fails m instr addr size m' :
  data_access m instr = Some (MemRead addr size) ->
  ReadMem m addr size = (m', None) ->
  Execute m instr = Leave (Done 0 m').
Proof.
  unfold data_access. intros Hacc Hfail.
  destruct (Z.eqb_spec (opcode instr) RISCV_LD) as [Hop|_].
  { rewrite (Execute_LD _ _ Hop). unfold exec_LD.
    eqb_cases Hacc; inversion Hacc; subst; auto using load_fails. }
  destruct (Z.eqb_spec (opcode instr) RISCV_ST) as [Hop|_].
  { eqb_cases Hacc; discriminate. }
  destruct (Z.eqb_spec (opcode instr) RISCV_FLW) as [Hop|_].
  { rewrite (Execute_FLW _ _ Hop). inversion Hacc; subst.
    auto using load_fails. }
  destruct (Z.eqb_spec (opcode instr) RISCV_FSW); discriminate.
Qed.

(** So does a failed write. *)
Lemma Execute_write_fails m instr addr size v m' :
  data_access m instr = Some (MemWrite addr size v) ->
  WriteMem m addr size v = (m', false) ->
  Execute m instr = Leave (Done 0 m').
Proof.
  unfold data_access. intros Hacc Hfail.
  destruct (Z.eqb_spec (opcode instr) RISCV_LD) as [Hop|_].
  { eqb_cases Hacc; discriminate. }
  destruct (Z.eqb_spec (opcode instr) RISCV_ST) as [Hop|_].
  { rewrite (Execute_ST _ _ Hop). unfold exec_ST.
    eqb_cases Hacc; inversion Hacc; subst; auto using store_fails. }
  destruct (Z.eqb_spec (opcode instr) RISCV_FLW) as [Hop|_];
    [discriminate|].
  destruct (Z.eqb_spec (opcode instr) RISCV_FSW) as [Hop|_];
    [|discriminate].
  rewrite (Execute_FSW _ _ Hop). inversion Hacc; subst.
  auto using store_fails.
Qed.

Ltac no_return H :=
  exfalso; revert H;
  repeat (case_match; try discriminate).

Lemma set_ireg_opt_no_return m r q t m' :
  set_ireg_opt m r q <> Leave (Done t m').
Proof. destruct q; discriminate. Qed.

Lemma set_freg_opt_no_return m r q t m' :
  set_freg_opt m r q <> Leave (Done t m').
Proof. destruct q; discriminate. Qed.

Lemma exec_BR_no_return m instr t m' :
  exec_BR ERROR m instr <> Leave (Done t m').
Proof. unfold exec_BR. intros H. no_return H. Qed.

Lemma exec_OPI_no_return m instr t m' :
  exec_OPI ERROR m instr <> Leave (Done t m').
Proof. unfold exec_OPI. intros H. no_return H. Qed.

Lemma exec_OPIW_no_return m instr t m' :
  exec_OPIW ERROR m instr <> Leave (Done t m').
Proof. unfold exec_OPIW. intros H. no_return H. Qed.

Lemma exec_OP_no_return m instr t m' :
  exec_OP ERROR m instr <> Leave (Done t m').
Proof.
  unfold exec_OP, exec_OP_M. intros H. revert H.
  repeat (case_match; try discriminate);
    apply set_ireg_opt_no_return.
Qed.

Lemma exec_OPW_no_return m instr t m' :
  exec_OPW ERROR host_shift_right host_shiftMask m instr <> Leave (Done t m').
Proof.
  unfold exec_OPW. intros H. revert H.
  repeat (case_match; try discriminate);
    apply set_ireg_opt_no_return.
Qed.

Lemma exec_FP_no_return m instr t m' :
  exec_FP sqrt_int64 fabs_int64 neg_fabs_int64 m instr
  <> Leave (Done t m').
Proof.
  unfold exec_FP. intros H. revert H.
  repeat (case_match; try discriminate);
    apply set_freg_opt_no_return.
Qed.

(** Conversely, a case of the switch leaves [OneInstruction] with a cycle
    count only when its access to data memory failed, and the count is 0. *)
Lemma Execute_Leave_Done m instr t m' :
  Execute m instr = Leave (Done t m') ->
  t = 0 /\ access_failed m instr m'.
Proof.
  unfold_Execute. unfold_access_failed. unfold data_access. intros H.
  eqb_cases H; try discriminate.
  - (* RISCV_BR *) contradict H. apply exec_BR_no_return.
  - (* RISCV_LD *)
    unfold exec_LD in H. eqb_cases H; try discriminate;
      apply load_Leave in H as (m1 & Hread & Heq); inversion Heq; subst;
      (split; [reflexivity|]); left; eauto.
  - (* RISCV_ST *)
    unfold exec_ST in H. eqb_cases H; try discriminate;
      apply store_Leave in H as (m1 & Hwrite & Heq); inversion Heq; subst;
      (split; [reflexivity|]); right; eauto.
  - (* RISCV_OPI *) contradict H. apply exec_OPI_no_return.
  - (* RISCV_OPIW *) contradict H. apply exec_OPIW_no_return.
  - (* RISCV_OP *) contradict H. apply exec_OP_no_return.
  - (* RISCV_OPW *) contradict H. apply exec_OPW_no_return.
  - (* RISCV_SYSTEM *) no_return H.
  - (* RISCV_FLW *)
    apply load_Leave in H as (m1 & Hread & Heq); inversion Heq; subst.
    split; [reflexivity|]. left; eauto.
  - (* RISCV_FSW *)
    apply store_Leave in H as (m1 & Hwrite & Heq); inversion Heq; subst.
    split; [reflexivity|]. right; eauto.
  - (* RISCV_FP *) contradict H. apply exec_FP_no_return.
Qed.

(** C6. [OneInstruction] returns 0 when the fetch fails, and when the
    instruction's access to data memory fails; it returns [USER_TICK] when
    the instruction is executed; and whenever it returns, it is in one of
    these three ways. In the two failing cases the machine returned is the
    one the MMU left after raising the exception. *)
Theorem OneInstruction_cycles (m : Machine) :
  (forall m1,
      ReadMem m (uint64 (pc m)) 4 = (m1, None) ->
      OneInstruction m = Done 0 m1)
  /\ (forall m1 value,
        ReadMem m (uint64 (pc m)) 4 = (m1, Some value) ->
        let m2 := set_pc m1 (int64 (pc m1 + 4)) in
        let instr := Decode value in
        (forall m3, access_failed m2 instr m3 ->
                    OneInstruction m = Done 0 m3)
        /\ (forall m3, Execute m2 instr = Break m3 ->
                       OneInstruction m = Done USER_TICK (epilogue m3)))
  /\ (forall t m',
        OneInstruction m = Done t m' ->
        (t = 0 /\ ReadMem m (uint64 (pc m)) 4 = (m', None))
        \/ (exists m1 value,
               ReadMem m (uint64 (pc m)) 4 = (m1, Some value)
               /\ let m2 := set_pc m1 (int64 (pc m1 + 4)) in
                  (t = 0 /\ access_failed m2 (Decode value) m')
                  \/ (t = USER_TICK
                      /\ exists m3, Execute m2 (Decode value) = Break m3
                                    /\ m' = epilogue m3))).
Proof.
  split; [|split].
  - intros m1 Hfetch. unfold_OneInstruction. rewrite Hfetch.
    reflexivity.
  - intros m1 value Hfetch m2 instr. unfold_OneInstruction.
    rewrite Hfetch. fold m2 instr. split.
    + intros m3
        [(addr & size & Hacc & Hfail)|(addr & size & v & Hacc & Hfail)].
      * rewrite (Execute_read_fails _ _ _ _ _ Hacc Hfail). reflexivity.
      * rewrite (Execute_write_fails _ _ _ _ _ _ Hacc Hfail). reflexivity.
    + intros m3 Hexec. rewrite Hexec. reflexivity.
  - intros t m'. unfold_OneInstruction.
    destruct (ReadMem m (uint64 (pc m)) 4) as [m1 [value|]] eqn:Hfetch.
    + intros H. right. exists m1, value. split; [reflexivity|].
      destruct (Execute (set_pc m1 (int64 (pc m1 + 4))) (Decode value))
        as [m3|r] eqn:Hexec.
      * inversion H; subst. right. eauto.
      * subst r. left. apply Execute_Leave_Done in Hexec. exact Hexec.
    + intros H. inversion H; subst. left. auto.
Qed.

(** *** What four of the cases compute *)

(** [MULH] multiplies in 64 bits and widens the wrapped product: the
    register receives the sign of that product, 0 or -1. *)
Lemma exec_OP_MULH m instr :
  funct7 instr = 1 -> funct3 instr = RISCV_OP_M_MULH ->
  exec_OP ERROR m instr
  = Break (set_ireg m (rd instr)
             (if int64 (ireg m (rs1 instr) * ireg m (rs2 instr)) <? 0
              then -1 else 0)).
Proof.
  intros H7 H3. unfold exec_OP, exec_OP_M. rewrite H7, H3.
  cbn [Z.eqb Pos.eqb RISCV_OP_M_MUL RISCV_OP_M_MULH]. do 2 f_equal.
  set (p := int64 (ireg m (rs1 instr) * ireg m (rs2 instr))).
  assert (Hp : - 2 ^ 63 <= p < 2 ^ 63) by (apply (to_int_range 64); lia).
  unfold int128. rewrite to_int_id by lia.
  rewrite Z.shiftr_div_pow2 by lia.
  destruct (Z.ltb_spec p 0).
  - replace (p / 2 ^ 64) with (-1)
      by (apply (Z.div_unique p (2 ^ 64) (-1) (p + 2 ^ 64)); lia).
    reflexivity.
  - rewrite Z.div_small by lia. reflexivity.
Qed.

(** [MULW] masks the product with [0xffffffff] in 64 bits: the register
    receives a value between 0 and [2^32 - 1]. *)
Lemma exec_OPW_MULW m instr :
  funct7 instr = 1 -> funct3 instr = RISCV_OPW_M_MULW ->
  let a := int32 (Z.land (ireg m (rs1 instr)) 0xffffffff) in
  let b := int32 (Z.land (ireg m (rs2 instr)) 0xffffffff) in
  exec_OPW ERROR host_shift_right host_shiftMask m instr
  = Break (set_ireg m (rd instr) (uint32 (a * b)))
  /\ 0 <= uint32 (a * b) < 2 ^ 32.
Proof.
  intros H7 H3 a b. unfold exec_OPW. rewrite H7, H3.
  cbn [Z.eqb Pos.eqb RISCV_OPW_M_MULW]. fold a b. split.
  - do 2 f_equal. change 4294967295 with (Z.ones 32).
    rewrite Z.land_ones by lia. unfold int32, to_int, uint32, to_uint.
    rewrite Zminus_mod_idemp_l. f_equal. lia.
  - apply (to_uint_range 32). lia.
Qed.

(** [LHU] reads two bytes into an [unsigned char]: the register receives
    the low byte of the halfword. *)
Lemma exec_LD_LHU m instr m' v :
  funct3 instr = RISCV_LD_LHU ->
  ReadMem m (uint64 (ireg m (rs1 instr) + imm12_I_signed instr)) 2
  = (m', Some v) ->
  exec_LD ERROR ReadMem m instr = Break (set_ireg m' (rd instr) (v mod 256))
  /\ 0 <= v mod 256 < 256.
Proof.
  intros H3 Hread. unfold exec_LD. rewrite H3.
  cbn [Z.eqb Pos.eqb RISCV_LD_LB RISCV_LD_LH RISCV_LD_LW RISCV_LD_LD
       RISCV_LD_LBU RISCV_LD_LHU].
  unfold load. rewrite Hread. split; [reflexivity|].
  apply Z.mod_pos_bound. lia.
Qed.

(** [SLTIU] compares the low 32 bits of the register with the immediate. *)
Lemma exec_OPI_SLTIU m instr :
  funct3 instr = RISCV_OPI_SLTIU ->
  exec_OPI ERROR m instr
  = Break (set_ireg m (rd instr)
             (of_bool (ireg m (rs1 instr) mod 2 ^ 32
                       <? uint64 (imm12_I instr)))).
Proof.
  intros H3. unfold exec_OPI. rewrite H3.
  cbn [Z.eqb Pos.eqb RISCV_OPI_ADDI RISCV_OPI_SLTI RISCV_OPI_SLTIU].
  do 4 f_equal. rewrite Z.lor_0_l. change 4294967295 with (Z.ones 32).
  rewrite Z.land_ones by lia. unfold uint64. apply to_uint_id.
  pose proof (Z.mod_pos_bound (ireg m (rs1 instr)) (2 ^ 32)). lia.
Qed.

(** [SRLW] and [SRAW] shift by the whole of [localDatab] and run to their
    [break] whatever the count: no case of the switch looks at it. *)
Lemma exec_OPW_SRW m instr :
  funct7 instr <> 1 -> funct3 instr = RISCV_OPW_SRW ->
  exists v,
    exec_OPW ERROR host_shift_right host_shiftMask m instr
    = Break (set_ireg m (rd instr) v).
Proof.
  intros H7 H3. unfold exec_OPW. rewrite H3.
  destruct (Z.eqb_spec (funct7 instr) 1) as [?|_]; [contradiction|].
  cbn [Z.eqb Pos.eqb RISCV_OPW_ADDSUBW RISCV_OPW_SLLW RISCV_OPW_SRW].
  destruct (funct7 instr =? RISCV_OPW_SRW_SRLW); eexists; reflexivity.
Qed.

End InterpreterFacts.

(** ** The interpreter on the bench machine *)

Lemma Bench_ReadMem_registers m addr size m' r :
  Bench.ReadMem m addr size = (m', r) ->
  length (int_registers m') = length (int_registers m).
Proof.
  unfold Bench.ReadMem. destruct (Bench.in_memory m addr size);
    intros H; inversion H; reflexivity.
Qed.

Lemma Bench_WriteMem_registers m addr size v m' r :
  Bench.WriteMem m addr size v = (m', r) ->
  length (int_registers m') = length (int_registers m).
Proof.
  unfold Bench.WriteMem. destruct (Bench.in_memory m addr size);
    intros H; inversion H; reflexivity.
Qed.

Lemma Bench_ExceptionHandler_registers which badVAddr m m' :
  Bench.ExceptionHandler which badVAddr m = Some m' ->
  length (int_registers m') = length (int_registers m).
Proof. intros H. inversion H. reflexivity. Qed.

(** [sraw x3, x1, x2] and [srlw x0, x1, x2] with [x1 = 1] and a count
    [x2 = 33]: the instructions complete, at the cost of [USER_TICK]; on the
    bench host the first leaves [1 >> 1] in [x3], and register 0 reads 0
    after the second. *)
Lemma OneInstruction_SRW_out_of_range :
  Bench.after 3 (Bench.OneInstruction
                   (Bench.machine (Bench.encode_R 0x20 2 1 5 3 0x3b) [] 1 33))
  = Some (Bench.USER_TICK, 0)
  /\ Bench.after 0 (Bench.OneInstruction
                      (Bench.machine (Bench.encode_R 0 2 1 5 0 0x3b) [] 1 33))
     = Some (Bench.USER_TICK, 0).
Proof. split; vm_compute; reflexivity. Qed.

(** [addi x0, x1, 5] with [x1 = 7]: the addition stores 12 in register 0,
    and the register reads 0 once the instruction is over. *)
Lemma OneInstruction_register_zero_witness :
  exists m',
    Bench.OneInstruction (Bench.machine (Bench.encode_I 5 1 0 0 0x13) [] 7 0)
    = Done Bench.USER_TICK m'
    /\ ReadIntRegister m' 0 = Some 0.
Proof.
  eapply (OneInstruction_register_zero Bench.USER_TICK Bench.ERROR
            Bench.Decode Bench.ReadMem Bench.WriteMem Bench.ExceptionHandler
            Z.sqrt Z.abs (fun x => - Z.abs x)
            Bench.host_shift_right Bench.host_shiftMask
            Bench_ReadMem_registers Bench_WriteMem_registers
            Bench_ExceptionHandler_registers).
  - reflexivity.
  - vm_compute. reflexivity.
  - vm_compute. reflexivity.
Defined.

(** A system call (exception 1) at [pc = 4] on the bench machine. *)
Lemma RaiseException_modes_witness :
  1 <= 7
  /\ RaiseException Bench.ERROR Bench.ExceptionHandler 1 4
                    (Bench.machine 0x73 [] 0 0)
     = Done tt (set_status
                  (set_status (set_badvaddr_reg (Bench.machine 0x73 [] 0 0) 4)
                              SYSTEM_MODE)
                  USER_MODE).
Proof.
  split; [lia|].
  apply (RaiseException_modes Bench.ERROR Bench.ExceptionHandler 1 4
           (Bench.machine 0x73 [] 0 0)); [lia | reflexivity].
Defined.

(** [lhu x3, 4(x1)] on a memory of four bytes: the fetch succeeds, the load
    at address 4 fails, and 0 cycles are returned. *)
Lemma OneInstruction_cycles_witness :
  Bench.OneInstruction (Bench.machine (Bench.encode_I 4 1 5 3 0x03) [] 0 0)
  = Done 0 (set_badvaddr_reg
              (set_pc (Bench.machine (Bench.encode_I 4 1 5 3 0x03) [] 0 0) 4)
              4).
Proof.
  destruct (OneInstruction_cycles Bench.USER_TICK Bench.ERROR
              Bench.Decode Bench.ReadMem Bench.WriteMem Bench.ExceptionHandler
              Z.sqrt Z.abs (fun x => - Z.abs x)
              Bench.host_shift_right Bench.host_shiftMask
              (Bench.machine (Bench.encode_I 4 1 5 3 0x03) [] 0 0))
    as (_ & Hdata & _).
  eapply Hdata.
  - vm_compute. reflexivity.
  - left. exists 4, 2. split; vm_compute; reflexivity.
Defined.

(** C2, evaluated. [mulh x3, x1, x2] with [x1 = INT64_MIN] and [x2 = -1]
    leaves -1 in [x3], where the high half of the exact product [2^63] is 0;
    with [x1 = x2 = 2^32] it leaves 0, where the high half of [2^64] is 1. *)
Theorem MULH_high_half_lost :
  Bench.after 3 (Bench.OneInstruction
                   (Bench.machine (Bench.encode_R 1 2 1 1 3 0x33) []
                                  INT64_MIN (-1)))
  = Some (Bench.USER_TICK, -1)
  /\ Z.shiftr (INT64_MIN * -1) 64 = 0
  /\ Bench.after 3 (Bench.OneInstruction
                      (Bench.machine (Bench.encode_R 1 2 1 1 3 0x33) []
                                     (2 ^ 32) (2 ^ 32)))
     = Some (Bench.USER_TICK, 0)
  /\ Z.shiftr (2 ^ 32 * 2 ^ 32) 64 = 1.
Proof. repeat split; vm_compute; reflexivity. Qed.

(** C3, evaluated. [mulw x3, x1, x2] with [x1 = -1] and [x2 = 1] leaves
    [0xffffffff] in [x3], where the low 32 bits of the product, sign-extended
    to 64 bits, are -1. *)
Theorem MULW_zero_extends :
  Bench.after 3 (Bench.OneInstruction
                   (Bench.machine (Bench.encode_R 1 2 1 0 3 0x3b) [] (-1) 1))
  = Some (Bench.USER_TICK, 0xffffffff)
  /\ int32 (uint32 (-1) * uint32 1) = -1.
Proof. split; vm_compute; reflexivity. Qed.

(** C4, evaluated. [lhu x3, 4(x1)] with [x1 = 0] and the halfword [0x1234]
    at address 4: the MMU read of 2 bytes succeeds and yields [0x1234], and
    [x3] receives [0x34]. *)
Theorem LHU_keeps_low_byte :
  Bench.ReadMem (Bench.machine (Bench.encode_I 4 1 5 3 0x03) [0x34; 0x12] 0 0)
                4 2
  = (Bench.machine (Bench.encode_I 4 1 5 3 0x03) [0x34; 0x12] 0 0,
     Some 0x1234)
  /\ Bench.after 3 (Bench.OneInstruction
                      (Bench.machine (Bench.encode_I 4 1 5 3 0x03)
                                     [0x34; 0x12] 0 0))
     = Some (Bench.USER_TICK, 0x34).
Proof. split; vm_compute; reflexivity. Qed.

(** C5, evaluated. [sltiu x3, x1, 1] with [x1 = 2^32]: the register, taken
    as an unsigned 64-bit value, is not below 1, and [x3] receives 1. *)
Theorem SLTIU_compares_32_bits :
  Bench.after 3 (Bench.OneInstruction
                   (Bench.machine (Bench.encode_I 1 1 3 3 0x13) []
                                  (2 ^ 32) 0))
  = Some (Bench.USER_TICK, 1)
  /\ of_bool (uint64 (2 ^ 32) <? 1) = 0.
Proof. split; vm_compute; reflexivity. Qed.

(** ** The synchronous disk driver *)

Lemma in_phase_client reqs : in_phase Idle (client reqs).
Proof.
  induction reqs as [|[n d|n d] reqs IH]; simpl; auto.
Qed.

Lemma invariant_boot sem_name lock_name clients :
  invariant (boot sem_name lock_name clients).
Proof.
  constructor; simpl.
  - constructor.
  - intros t Ht. inversion Ht.
  - intros t k Hk _ _. rewrite lookup_fmap in Hk.
    destruct (clients !! t) as [reqs|]; inversion Hk. apply in_phase_client.
  - auto.
  - intros o Ho. discriminate.
Qed.

Lemma in_phase_inj p q k : in_phase p k -> in_phase q k -> p = q.
Proof.
  destruct k as [|c k]; simpl.
  - congruence.
  - destruct p, q, c; tauto.
Qed.

Lemma not_sleeping t drv :
  sleeping t drv = false ->
  (t ∉ sem_queue (semaphore drv)) /\ (t ∉ lock_queue (lock drv)).
Proof.
  unfold sleeping. intros H. apply bool_decide_eq_false in H. tauto.
Qed.

(** The owner moves on inside its critical section: the lock is untouched. *)
Lemma invariant_owner_step s t k sem' disk' :
  invariant s ->
  owner (lock (driver s)) = Some t ->
  owner_state t k (mkDriverDisk sem' (lock (driver s)) disk') ->
  invariant (mkSystem (mkDriverDisk sem' (lock (driver s)) disk')
                      (<[t := k]> (threads s))).
Proof.
  intros [Hnd Hq Hoth Hfree Hown] Hme Hst. constructor; simpl.
  - exact Hnd.
  - intros t0 Ht0. destruct (Hq t0 Ht0) as (Hne & Hsome & k0 & Hk0 & Hph).
    repeat split; auto. exists k0. split; [|exact Hph].
    rewrite lookup_insert_ne; [exact Hk0|]. congruence.
  - intros t0 k0 Hk0 Hne Hnq. apply (Hoth t0 k0); auto.
    rewrite lookup_insert_ne in Hk0; [exact Hk0|]. congruence.
  - congruence.
  - intros o Ho. rewrite Hme in Ho. inversion Ho; subst o.
    exists k. split; [apply lookup_insert_eq | exact Hst].
Qed.

Lemma step_Run_owner t c k s :
  invariant s ->
  threads s !! t = Some (c :: k) ->
  sleeping t (driver s) = false ->
  owner (lock (driver s)) = Some t ->
  exists drv, do_call t c (driver s) = Some drv
              /\ invariant (mkSystem drv (<[t := k]> (threads s))).
Proof.
  intros Hinv Hk Hsl Hme. pose proof Hinv as [Hnd Hq Hoth Hfree Hown].
  apply not_sleeping in Hsl as [Hsq Hlq].
  destruct (Hown t Hme) as (k0 & Hk0 & Hst).
  rewrite Hk in Hk0; inversion Hk0; subst k0; clear Hk0.
  destruct s as [[[sn cnt sq] [ln ow lq] [a ls]] th].
  unfold owner_state in Hst. simpl in *. subst ow.
  destruct Hst as [(Hph & -> & -> & ->)|[(Hph & -> & -> & ->)|
                   [(Hph & -> & -> & ->)|[(Hph & -> & -> & ->)|
                    (Hph & -> & -> & ->)]]]];
    destruct c; simpl in Hph; try contradiction.
  all: try (exfalso; apply Hsq; left; fail).
  - (* the read request is issued *)
    eexists. split; [reflexivity|].
    apply (invariant_owner_step _ t k _ _ Hinv eq_refl).
    right; left. simpl. auto.
  - (* the write request is issued *)
    eexists. split; [reflexivity|].
    apply (invariant_owner_step _ t k _ _ Hinv eq_refl).
    right; left. simpl. auto.
  - (* P while the request is outstanding: the thread goes to sleep *)
    eexists. split; [reflexivity|].
    apply (invariant_owner_step _ t k _ _ Hinv eq_refl).
    do 3 right; left. simpl. auto.
  - (* P after the interrupt: the thread goes on *)
    eexists. split; [reflexivity|].
    apply (invariant_owner_step _ t k _ _ Hinv eq_refl).
    do 4 right. simpl. auto.
  - (* release *)
    eexists. split; [reflexivity|].
    unfold Lock_Release_by. simpl. rewrite decide_True by reflexivity.
    destruct lq as [|h q]; constructor; simpl.
    + constructor.
    + intros t0 Ht0. inversion Ht0.
    + intros t0 k0 Hk0 _ _. destruct (decide (t0 = t)) as [->|Hne].
      * rewrite lookup_insert_eq in Hk0. inversion Hk0; subst. exact Hph.
      * rewrite lookup_insert_ne in Hk0 by congruence.
        apply (Hoth t0 k0 Hk0); [congruence | apply not_elem_of_nil].
    + auto.
    + discriminate.
    + apply NoDup_cons in Hnd. tauto.
    + intros t0 Ht0. apply NoDup_cons in Hnd as [Hh Hnd].
      destruct (Hq t0) as (Hne & _ & k0 & Hk0 & Hph0); [right; exact Ht0|].
      split; [|split; [discriminate|]].
      * intros Heq. inversion Heq; subst. contradiction.
      * exists k0. split; [|exact Hph0].
        rewrite lookup_insert_ne; [exact Hk0|]. congruence.
    + intros t0 k0 Hk0 Hne Hnq. destruct (decide (t0 = t)) as [->|Hne'].
      * rewrite lookup_insert_eq in Hk0. inversion Hk0; subst. exact Hph.
      * rewrite lookup_insert_ne in Hk0 by congruence.
        apply (Hoth t0 k0 Hk0); [congruence|].
        rewrite not_elem_of_cons. split; [congruence | exact Hnq].
    + discriminate.
    + intros o Ho. inversion Ho; subst o.
      destruct (Hq h) as (Hne & _ & k0 & Hk0 & Hph0); [left|].
      exists k0. split.
      * rewrite lookup_insert_ne; [exact Hk0|]. congruence.
      * left. simpl. auto.
Qed.

Lemma lock_queue_empty s :
  invariant s -> owner (lock (driver s)) = None ->
  lock_queue (lock (driver s)) = [].
Proof.
  intros Hinv Hfree. destruct (lock_queue (lock (driver s))) as [|h q] eqn:Hlq;
    [reflexivity|].
  destruct (inv_queue s Hinv h) as (_ & Hsome & _); [rewrite Hlq; left|].
  contradiction.
Qed.

Lemma step_Run_other t c k s :
  invariant s ->
  threads s !! t = Some (c :: k) ->
  sleeping t (driver s) = false ->
  owner (lock (driver s)) <> Some t ->
  exists drv, do_call t c (driver s) = Some drv
              /\ invariant (mkSystem drv (<[t := k]> (threads s))).
Proof.
  intros Hinv Hk Hsl Hme. pose proof Hinv as [Hnd Hq Hoth Hfree Hown].
  pose proof (lock_queue_empty s Hinv) as Hempty.
  apply not_sleeping in Hsl as [Hsq Hlq].
  pose proof (Hoth t _ Hk Hme Hlq) as Hph.
  destruct c; simpl in Hph; try contradiction.
  destruct s as [[[sn cnt sq] [ln ow lq] [a ls]] th]. simpl in *.
  eexists. split; [reflexivity|]. unfold Lock_Acquire_by. simpl.
  destruct ow as [o|].
  - (* the lock is taken: the thread queues *)
    rewrite decide_False by congruence.
    constructor; simpl.
    + apply NoDup_app. split; [exact Hnd|]. split; [|apply NoDup_singleton].
      intros x Hx Hx'. apply list_elem_of_singleton in Hx'. subst x.
      contradiction.
    + intros t0 Ht0. apply elem_of_app in Ht0 as [Ht0|Ht0].
      * destruct (Hq t0 Ht0) as (Hne & Hsome & k0 & Hk0 & Hph0).
        repeat split; auto. exists k0. split; [|exact Hph0].
        rewrite lookup_insert_ne; [exact Hk0|]. intros ->. contradiction.
      * apply list_elem_of_singleton in Ht0. subst t0.
        split; [exact Hme|]. split; [discriminate|].
        exists k. split; [apply lookup_insert_eq | exact Hph].
    + intros t0 k0 Hk0 Hne Hnq. rewrite not_elem_of_app in Hnq.
      destruct Hnq as [Hnq Hnt]. rewrite list_elem_of_singleton in Hnt.
      rewrite lookup_insert_ne in Hk0 by congruence.
      apply (Hoth t0 k0 Hk0 Hne Hnq).
    + discriminate.
    + intros o' Ho'. destruct (Hown o' Ho') as (k0 & Hk0 & Hst).
      exists k0. split; [|exact Hst].
      rewrite lookup_insert_ne; [exact Hk0|]. congruence.
  - (* the lock is free: the thread takes it *)
    rewrite (Hempty eq_refl) in *. destruct (Hfree eq_refl) as (-> & -> & ->).
    constructor; simpl.
    + constructor.
    + intros t0 Ht0. inversion Ht0.
    + intros t0 k0 Hk0 Hne _. rewrite lookup_insert_ne in Hk0 by congruence.
      apply (Hoth t0 k0 Hk0); [discriminate | apply not_elem_of_nil].
    + discriminate.
    + intros o Ho. inversion Ho; subst o. exists k.
      split; [apply lookup_insert_eq|]. left. simpl. auto.
Qed.

Lemma step_DiskInterrupt s :
  invariant s ->
  active (disk (driver s)) = true ->
  exists drv, HandleInterrupt (driver s) = Some drv
              /\ invariant (mkSystem drv (threads s)).
Proof.
  intros Hinv Hactive. pose proof Hinv as [Hnd Hq Hoth Hfree Hown].
  destruct s as [[[sn cnt sq] [ln ow lq] [a ls]] th]. simpl in *. subst a.
  eexists. split; [reflexivity|]. simpl.
  destruct ow as [o|]; [|destruct (Hfree eq_refl); discriminate].
  destruct (Hown o eq_refl) as (k & Hk & Hst).
  constructor; simpl; auto; [discriminate|].
  intros o' Ho'. inversion Ho'; subst o'. exists k. split; [exact Hk|].
  unfold owner_state in *. simpl in *.
  destruct Hst as [(Hph & ? & -> & ->)|[(Hph & _ & -> & ->)|
                   [(Hph & ? & -> & ->)|[(Hph & _ & -> & ->)|
                    (Hph & ? & -> & ->)]]]];
    try discriminate.
  - right; right; left. auto.
  - do 4 right. auto.
Qed.

(** Every step keeps the invariant, and no step aborts. *)
Lemma step_invariant e s :
  invariant s ->
  match step e s with
  | Stepped s' => invariant s'
  | NotEnabled => True
  | Aborted => False
  end.
Proof.
  intros Hinv. destruct e as [t|]; unfold step.
  - destruct (threads s !! t) as [[|c k]|] eqn:Hk; [exact I| |exact I].
    destruct (sleeping t (driver s)) eqn:Hsl; [exact I|].
    destruct (decide (owner (lock (driver s)) = Some t)) as [Hme|Hme].
    + destruct (step_Run_owner t c k s Hinv Hk Hsl Hme) as (drv & -> & H).
      exact H.
    + destruct (step_Run_other t c k s Hinv Hk Hsl Hme) as (drv & -> & H).
      exact H.
  - destruct (active (disk (driver s))) eqn:Hactive; [|exact I].
    destruct (step_DiskInterrupt s Hinv Hactive) as (drv & -> & H). exact H.
Qed.

Lemma run_invariant schedule : forall s,
  invariant s ->
  run schedule s <> Aborted
  /\ forall s', run schedule s = Stepped s' -> invariant s'.
Proof.
  induction schedule as [|e schedule IH]; intros s Hinv; simpl.
  - split; [discriminate|]. intros s' H. inversion H; subst. exact Hinv.
  - pose proof (step_invariant e s Hinv) as Hstep.
    destruct (step e s) as [s1| |]; [|split; discriminate|contradiction].
    apply IH. exact Hstep.
Qed.

Lemma invariant_position s t c k :
  invariant s ->
  threads s !! t = Some (c :: k) ->
  c <> Lock_Acquire ->
  owner (lock (driver s)) = Some t
  \/ (t ∈ lock_queue (lock (driver s)) /\ is_request c = true).
Proof.
  intros [Hnd Hq Hoth Hfree Hown] Hk Hc.
  destruct (decide (owner (lock (driver s)) = Some t)) as [|Hne];
    [left; assumption|].
  destruct (decide (t ∈ lock_queue (lock (driver s)))) as [Hel|Hnel].
  - right. split; [exact Hel|].
    destruct (Hq t Hel) as (_ & _ & k0 & Hk0 & Hph).
    rewrite Hk in Hk0. inversion Hk0; subst k0.
    destruct c; simpl in Hph; try contradiction; reflexivity.
  - pose proof (Hoth t _ Hk Hne Hnel) as Hph.
    destruct c; simpl in Hph; try contradiction; congruence.
Qed.

Lemma invariant_sem_queue s t :
  invariant s ->
  t ∈ sem_queue (semaphore (driver s)) ->
  active (disk (driver s)) = true /\ owner (lock (driver s)) = Some t.
Proof.
  intros [Hnd Hq Hoth Hfree Hown] Hel.
  destruct (owner (lock (driver s))) as [o|] eqn:Ho.
  - destruct (Hown o eq_refl) as (k0 & Hk0 & Hst). unfold owner_state in Hst.
    destruct Hst as [(_ & _ & _ & Hs)|[(_ & _ & _ & Hs)|
                     [(_ & _ & _ & Hs)|[(_ & Ha & _ & Hs)|
                      (_ & _ & _ & Hs)]]]]; rewrite Hs in Hel;
      try (inversion Hel; fail).
    apply list_elem_of_singleton in Hel. subst. auto.
  - destruct (Hfree eq_refl) as (_ & _ & Hs). rewrite Hs in Hel.
    inversion Hel.
Qed.

(** C8. The driver's semaphore starts at 0; [ReadSector] and [WriteSector]
    are the calls acquire, request, [P], release, in that order; and with
    any number of client threads under any schedule, the disk never gets a
    request while another is outstanding, a thread that is awake issues its
    request as the owner of the lock, a thread that has issued its request
    owns the lock until it has released it, the lock has an owner while a
    request is outstanding, and a thread sleeping in [P] is the owner of the
    lock waiting for its outstanding request to complete. *)
Theorem DriverDisk_lock_held_during_io
    (sem_name lock_name : string) (theDisk : Disk)
    (clients : gmap Thread (list Request)) (schedule : list Event) :
  counter (semaphore (DriverDisk_DriverDisk sem_name lock_name theDisk)) = 0
  /\ (forall n data,
        ReadSector n data
        = [Lock_Acquire; Disk_ReadRequest (int32 n) data; Semaphore_P;
           Lock_Release])
  /\ (forall n data,
        WriteSector n data
        = [Lock_Acquire; Disk_WriteRequest (int32 n) data; Semaphore_P;
           Lock_Release])
  /\ run schedule (boot sem_name lock_name clients) <> Aborted
  /\ (forall s,
        run schedule (boot sem_name lock_name clients) = Stepped s ->
        let drv := driver s in
        (forall t c k,
            threads s !! t = Some (c :: k) ->
            is_request c = true ->
            sleeping t drv = false ->
            owner (lock drv) = Some t)
        /\ (forall t c k,
               threads s !! t = Some (c :: k) ->
               c = Semaphore_P \/ c = Lock_Release ->
               owner (lock drv) = Some t)
        /\ (active (disk drv) = true -> is_Some (owner (lock drv)))
        /\ (forall t, t ∈ sem_queue (semaphore drv) ->
                      active (disk drv) = true /\ owner (lock drv) = Some t)).
Proof.
  split; [reflexivity|]. split; [reflexivity|]. split; [reflexivity|].
  destruct (run_invariant schedule _
              (invariant_boot sem_name lock_name clients)) as [Hsafe Hinv].
  split; [exact Hsafe|]. intros s Hrun drv. specialize (Hinv s Hrun).
  subst drv. split; [|split; [|split]].
  - intros t c k Hk Hc Hsl.
    destruct (invariant_position s t c k Hinv Hk) as [H|[Hel _]];
      [intros ->; discriminate | exact H |].
    apply not_sleeping in Hsl. tauto.
  - intros t c k Hk Hc.
    destruct (invariant_position s t c k Hinv Hk) as [H|[_ Hreq]];
      [destruct Hc; subst; discriminate | exact H |].
    destruct Hc; subst; discriminate.
  - intros Hactive. destruct (owner (lock (driver s))) as [o|] eqn:Ho;
      [eauto|].
    destruct (inv_free s Hinv Ho) as (Hf & _). congruence.
  - intros t. apply invariant_sem_queue. exact Hinv.
Qed.

(** Thread 0 sleeps in [P] with its request outstanding, thread 1 waits for
    the lock: thread 0 owns it. *)
Lemma DriverDisk_lock_held_during_io_witness :
  exists s,
    run busy_schedule (boot "sem" "lock" two_clients) = Stepped s
    /\ threads s !! 0%nat = Some [Lock_Release]
    /\ threads s !! 1%nat = Some [Disk_WriteRequest 5 200; Semaphore_P; Lock_Release]
    /\ active (disk (driver s)) = true
    /\ owner (lock (driver s)) = Some 0%nat.
Proof.
  destruct (DriverDisk_lock_held_during_io "sem" "lock" (mkDisk false 0)
              two_clients busy_schedule) as (_ & _ & _ & _ & H).
  eexists. split; [vm_compute; reflexivity|].
  match goal with
  | |- context [threads ?s] =>
      destruct (H s) as (_ & Hheld & _ & _); [vm_compute; reflexivity|]
  end.
  split; [vm_compute; reflexivity|].
  split; [vm_compute; reflexivity|].
  split; [vm_compute; reflexivity|].
  apply (Hheld 0%nat Lock_Release []); [vm_compute; reflexivity|].
  right. reflexivity.
Defined.

(** ** More of the interpreter *)

(** *** Fixed-width arithmetic *)

Lemma to_int_mod (w k x : Z) :
  0 < k <= w -> to_int w x mod 2 ^ k = x mod 2 ^ k.
Proof.
  intros Hk. unfold to_int.
  assert (Hw : 2 ^ w = 2 ^ (w - k) * 2 ^ k)
    by (rewrite <- Z.pow_add_r by lia; f_equal; lia).
  assert (0 < 2 ^ w) by (apply Z.pow_pos_nonneg; lia).
  pose proof (Z.div_mod (x + 2 ^ (w - 1)) (2 ^ w) ltac:(lia)) as Hdm.
  set (q := (x + 2 ^ (w - 1)) / 2 ^ w) in *.
  replace ((x + 2 ^ (w - 1)) mod 2 ^ w - 2 ^ (w - 1))
    with (x + (- q * 2 ^ (w - k)) * 2 ^ k) by (rewrite Hw in Hdm at 1; lia).
  apply Z.mod_add. apply Z.pow_nonzero; lia.
Qed.

Lemma to_int_cong (w x y : Z) :
  x mod 2 ^ w = y mod 2 ^ w -> to_int w x = to_int w y.
Proof.
  intros H. unfold to_int. f_equal.
  rewrite (Zplus_mod x), (Zplus_mod y), H. reflexivity.
Qed.

Lemma to_int_to_uint (w x : Z) : to_int w (to_uint w x) = to_int w x.
Proof.
  apply to_int_cong. unfold to_uint.
  destruct (Z.eq_dec (2 ^ w) 0) as [->|?];
    [rewrite !Z.mod_0_r; reflexivity | apply Z.mod_mod; assumption].
Qed.

Lemma testbit_to_int (w x i : Z) :
  0 <= i < w -> Z.testbit (to_int w x) i = Z.testbit x i.
Proof.
  intros Hi.
  rewrite <- (Z.mod_pow2_bits_low (to_int w x) w i) by lia.
  rewrite (to_int_mod w w) by lia.
  apply Z.mod_pow2_bits_low. lia.
Qed.

Lemma land_63 (x : Z) : Z.land (int32 x) 63 = x mod 64.
Proof.
  change 63 with (Z.ones 6). rewrite Z.land_ones by lia.
  apply (to_int_mod 32 6). lia.
Qed.

Lemma int32_low_add (a b : Z) :
  int32 (int32 (Z.land a 0xffffffff) + int32 (Z.land b 0xffffffff))
  = int32 (a + b).
Proof.
  change 0xffffffff with (Z.ones 32). rewrite !Z.land_ones by lia.
  apply to_int_cong. unfold int32.
  rewrite Zplus_mod, !(to_int_mod 32 32) by lia.
  rewrite !Z.mod_mod by lia. rewrite <- Zplus_mod. reflexivity.
Qed.

Lemma int32_low_sub (a b : Z) :
  int32 (int32 (Z.land a 0xffffffff) - int32 (Z.land b 0xffffffff))
  = int32 (a - b).
Proof.
  change 0xffffffff with (Z.ones 32). rewrite !Z.land_ones by lia.
  apply to_int_cong. unfold int32.
  rewrite Zminus_mod, !(to_int_mod 32 32) by lia.
  rewrite !Z.mod_mod by lia. rewrite <- Zminus_mod. reflexivity.
Qed.

Lemma jalr_target (x : Z) :
  Z.land (int64 x) 0xfffffffe = 2 * (uint32 x / 2).
Proof.
  unfold uint32, to_uint.
  replace (2 * (x mod 2 ^ 32 / 2))
    with (Z.shiftl (Z.shiftr (x mod 2 ^ 32) 1) 1)
    by (rewrite Z.shiftl_mul_pow2, Z.shiftr_div_pow2 by lia;
        change (2 ^ 1) with 2; lia).
  change 0xfffffffe with (Z.shiftl (Z.ones 31) 1).
  rewrite <- Z.land_ones by lia.
  apply Z.bits_inj'. intros i Hi.
  rewrite Z.land_spec.
  destruct (Z.eq_dec i 0) as [->|Hi0].
  - rewrite !Z.shiftl_spec_low by lia. apply andb_false_r.
  - rewrite !Z.shiftl_spec by lia. rewrite Z.shiftr_spec by lia.
    rewrite Z.land_spec. rewrite !Z.testbit_ones_nonneg by lia.
    replace (i - 1 + 1) with i by lia.
    destruct (Z.ltb_spec i 32), (Z.ltb_spec (i - 1) 31); try lia;
      first [ rewrite !andb_false_r; reflexivity
            | unfold int64; rewrite testbit_to_int by lia; reflexivity ].
Qed.

Lemma int64_next (p x : Z) :
  int64 (int64 (p + 4) + x - 4) = int64 (p + x)
  /\ int64 (int64 (p + 4) - 4 + x) = int64 (p + x).
Proof.
  split; apply to_int_cong.
  - rewrite Zminus_mod, Zplus_mod, (to_int_mod 64 64) by lia.
    rewrite <- Zplus_mod, <- Zminus_mod. f_equal. lia.
  - rewrite Zplus_mod, Zminus_mod, (to_int_mod 64 64) by lia.
    rewrite <- Zminus_mod, <- Zplus_mod. f_equal. lia.
Qed.

(** *** The shift masks of [Machine::Run] *)

Lemma shiftMask_loop (n : nat) : forall (a : nat) (mask : list Z) (value : Z),
  (a + n <= length mask)%nat ->
  forall k : nat,
    fst (foldl (fun '(mask, value) i =>
                  (<[i := value]> mask, Z.shiftr value 1))
               (mask, value) (seq a n)) !! k
    = if decide (a <= k < a + n)%nat
      then Some (Z.shiftr value (Z.of_nat (k - a)))
      else mask !! k.
Proof.
  induction n as [|n IH]; intros a mask value Hlen k.
  - simpl. rewrite decide_False by lia. reflexivity.
  - cbn [seq foldl]. rewrite IH by (rewrite length_insert; lia).
    destruct (decide (k = a)) as [->|Hne].
    + rewrite decide_False by lia. rewrite decide_True by lia.
      rewrite list_lookup_insert_eq by lia. rewrite Nat.sub_diag.
      reflexivity.
    + rewrite list_lookup_insert_ne by congruence.
      destruct (decide (S a <= k < S a + n)%nat).
      * rewrite decide_True by lia. f_equal.
        rewrite Z.shiftr_shiftr by lia. f_equal. lia.
      * rewrite decide_False by lia. reflexivity.
Qed.

Lemma Run_shiftMask_lookup (mask : list Z) (k : nat) :
  length mask = 64%nat -> (k < 64)%nat ->
  Run_shiftMask mask !! k = Some (2 ^ (64 - Z.of_nat k) - 1).
Proof.
  intros Hlen Hk. unfold Run_shiftMask.
  rewrite shiftMask_loop by (rewrite Hlen; lia).
  rewrite decide_True by lia. f_equal. rewrite Nat.sub_0_r.
  change (uint64 (Z.shiftl 4294967295 32) + 4294967295) with (Z.ones 64).
  rewrite Z.shiftr_div_pow2 by lia. rewrite Z.ones_div_pow2 by lia.
  rewrite Z.ones_equiv. lia.
Qed.

(** X1. The loop at the head of [Machine::Run] fills the 64 entries of
    [shiftMask]: entry [k] is [2^(64-k) - 1], the mask of the low [64 - k]
    bits, whatever the array held before, and the array keeps its 64
    entries. *)
Theorem Run_shiftMask_values (mask : list Z) :
  length mask = 64%nat ->
  length (Run_shiftMask mask) = 64%nat
  /\ forall k : nat,
       (k < 64)%nat ->
       Run_shiftMask mask !! k = Some (2 ^ (64 - Z.of_nat k) - 1).
Proof.
  intros Hlen. split; [|intros k Hk; apply Run_shiftMask_lookup; assumption].
  assert (H63 : is_Some (Run_shiftMask mask !! 63%nat))
    by (rewrite Run_shiftMask_lookup by lia; eauto).
  apply lookup_lt_is_Some in H63.
  assert (H64 : Run_shiftMask mask !! 64%nat = None).
  { unfold Run_shiftMask. rewrite shiftMask_loop by (rewrite Hlen; lia).
    rewrite decide_False by lia. apply lookup_ge_None. lia. }
  apply lookup_ge_None in H64. lia.
Qed.

Lemma Run_shiftMask_values_witness :
  Run_shiftMask (replicate 64 7) !! 60%nat = Some 15.
Proof.
  apply (proj2 (Run_shiftMask_values (replicate 64 7) (length_replicate _ _))
           60%nat).
  lia.
Defined.

Lemma logical_shift (x s : Z) :
  0 <= s < 64 ->
  Z.land (uint64 (Z.shiftr x s)) (2 ^ (64 - s) - 1) = uint64 x / 2 ^ s.
Proof.
  intros Hs. unfold uint64, to_uint.
  replace (2 ^ (64 - s) - 1) with (Z.ones (64 - s))
    by (rewrite Z.ones_equiv; lia).
  rewrite Z.land_ones by lia. rewrite <- Z.shiftr_div_pow2 by lia.
  rewrite <- !Z.land_ones by lia.
  apply Z.bits_inj'. intros i Hi.
  rewrite Z.shiftr_spec by lia. rewrite !Z.land_spec.
  rewrite Z.shiftr_spec by lia.
  rewrite !Z.testbit_ones_nonneg by lia.
  destruct (Z.testbit x (i + s)); simpl; [|reflexivity].
  repeat match goal with
         | |- context [Z.leb ?a ?b] => destruct (Z.leb_spec a b)
         | |- context [Z.ltb ?a ?b] => destruct (Z.ltb_spec a b)
         end; simpl; try reflexivity; lia.
Qed.

(** X2. With the masks [Machine::Run] installs, SRLI and SRL are logical
    shifts: the arithmetic [>>] of the signed register followed by the mask
    of [shiftMask] leaves the register, read as unsigned, divided by
    [2^shamt]; SRL takes its count from the low 6 bits of [rs2]. *)
Theorem SRL_is_logical (ERROR : Z) (m : Machine) (instr : Instruction)
    (mask : list Z) :
  length mask = 64%nat ->
  shiftMask m = Run_shiftMask mask ->
  (funct3 instr = RISCV_OPI_SRI ->
   funct7_smaller instr = RISCV_OPI_SRI_SRLI -> 0 <= shamt instr < 64 ->
   exec_OPI ERROR m instr
   = Break (set_ireg m (rd instr)
              (int64 (uint64 (ireg m (rs1 instr)) / 2 ^ shamt instr))))
  /\ (funct3 instr = RISCV_OP_SR -> funct7 instr = RISCV_OP_SR_SRL ->
      exec_OP ERROR m instr
      = Break (set_ireg m (rd instr)
                 (int64 (uint64 (ireg m (rs1 instr))
                         / 2 ^ (ireg m (rs2 instr) mod 64))))).
Proof.
  intros Hlen Hmask. split.
  - intros H3 H7 Hs. unfold exec_OPI. rewrite H3, H7. cbn [Z.eqb Pos.eqb
      RISCV_OPI_ADDI RISCV_OPI_SLTI RISCV_OPI_SLTIU RISCV_OPI_XORI
      RISCV_OPI_ORI RISCV_OPI_ANDI RISCV_OPI_SLLI RISCV_OPI_SRI
      RISCV_OPI_SRI_SRLI].
    do 3 f_equal. rewrite Hmask.
    assert (Hk : Run_shiftMask mask !! Z.to_nat (shamt instr)
                 = Some (2 ^ (64 - shamt instr) - 1)).
    { rewrite Run_shiftMask_lookup by lia. do 3 f_equal. lia. }
    rewrite (list_lookup_total_correct _ _ _ Hk).
    apply logical_shift. exact Hs.
  - intros H3 H7. unfold exec_OP. rewrite H3, H7. cbn [Z.eqb Pos.eqb
      RISCV_OP_ADD RISCV_OP_SLL RISCV_OP_SLT RISCV_OP_SLTU RISCV_OP_XOR
      RISCV_OP_SR RISCV_OP_SR_SRL].
    do 3 f_equal. rewrite Hmask. rewrite land_63.
    change 63 with (Z.ones 6). rewrite Z.land_ones by lia.
    change (2 ^ 6) with 64.
    pose proof (Z.mod_pos_bound (ireg m (rs2 instr)) 64 ltac:(lia)) as Hs.
    assert (Hk : Run_shiftMask mask !! Z.to_nat (ireg m (rs2 instr) mod 64)
                 = Some (2 ^ (64 - ireg m (rs2 instr) mod 64) - 1)).
    { rewrite Run_shiftMask_lookup by lia. do 3 f_equal. lia. }
    rewrite (list_lookup_total_correct _ _ _ Hk).
    apply logical_shift. exact Hs.
Qed.

Lemma SRL_is_logical_witness :
  exec_OPI Bench.ERROR (Bench.machine 0 [] (-8) 0)
           (Bench.Decode (Bench.encode_I 4 1 5 3 0x13))
  = Break (set_ireg (Bench.machine 0 [] (-8) 0) 3 (2 ^ 60 - 1)).
Proof.
  exact (proj1 (SRL_is_logical Bench.ERROR (Bench.machine 0 [] (-8) 0)
                  (Bench.Decode (Bench.encode_I 4 1 5 3 0x13))
                  (replicate 64 0) (length_replicate _ _) eq_refl)
               eq_refl eq_refl ltac:(change (0 <= 4 < 64); lia)).
Defined.

(** *** What the arithmetic cases leave alone *)

Section MoreInterpreterFacts.

Variables (USER_TICK ERROR : Z) (Decode : Z -> Instruction).
Variable ReadMem : Machine -> Z -> Z -> Machine * option Z.
Variable WriteMem : Machine -> Z -> Z -> Z -> Machine * bool.
Variable ExceptionHandler : Z -> Z -> Machine -> option Machine.
Variables sqrt_int64 fabs_int64 neg_fabs_int64 : Z -> Z.
Variable host_shift_right : Z -> Z -> Z.
Variable host_shiftMask : Machine -> Z -> Z.

Ltac unfold_Execute := unfold Execute.
Ltac unfold_OneInstruction := unfold OneInstruction.

Local Abbreviation Execute :=
  (Execute ERROR ReadMem WriteMem ExceptionHandler
           sqrt_int64 fabs_int64 neg_fabs_int64
           host_shift_right host_shiftMask).
Local Abbreviation OneInstruction :=
  (OneInstruction USER_TICK ERROR Decode ReadMem WriteMem ExceptionHandler
                  sqrt_int64 fabs_int64 neg_fabs_int64
                  host_shift_right host_shiftMask).

Lemma set_ireg_opt_writes_rd m instr q m' :
  set_ireg_opt m (rd instr) q = Break m' -> writes_rd m instr m'.
Proof. destruct q; simpl; intros H; inversion H. right. eauto. Qed.

Ltac rd_finish :=
  let HB := fresh "HB" in
  intros HB;
  first [ apply set_ireg_opt_writes_rd in HB; exact HB
        | inversion HB; subst; clear HB;
          first [ left; reflexivity | right; eexists; reflexivity ] ].

Ltac rd_cases H :=
  revert H; repeat (case_match; try discriminate); rd_finish.

Lemma exec_OPI_writes_rd m instr m' :
  exec_OPI ERROR m instr = Break m' -> writes_rd m instr m'.
Proof. unfold exec_OPI. intros H. rd_cases H. Qed.

Lemma exec_OPIW_writes_rd m instr m' :
  exec_OPIW ERROR m instr = Break m' -> writes_rd m instr m'.
Proof. unfold exec_OPIW. intros H. rd_cases H. Qed.

Lemma exec_OP_writes_rd m instr m' :
  exec_OP ERROR m instr = Break m' -> writes_rd m instr m'.
Proof.
  unfold exec_OP, exec_OP_M. intros H. rd_cases H.
Qed.

Lemma exec_OPW_writes_rd m instr m' :
  exec_OPW ERROR host_shift_right host_shiftMask m instr = Break m' -> writes_rd m instr m'.
Proof.
  unfold exec_OPW. intros H. rd_cases H.
Qed.

Lemma Execute_alu m instr :
  alu_opcode (opcode instr) = true ->
  (forall m', Execute m instr = Break m' -> writes_rd m instr m')
  /\ (forall t m', Execute m instr <> Leave (Done t m')).
Proof.
  unfold alu_opcode. intros Halu. unfold_Execute.
  destruct (Z.eqb_spec (opcode instr) RISCV_LUI) as [->|?].
  { split; [|discriminate]. intros m' H. inversion H. right. eauto. }
  destruct (Z.eqb_spec (opcode instr) RISCV_AUIPC) as [->|?].
  { split; [|discriminate]. intros m' H. inversion H. right. eauto. }
  destruct (Z.eqb_spec (opcode instr) RISCV_OPI) as [Hop|?].
  { rewrite Hop. cbn [Z.eqb Pos.eqb RISCV_OPI RISCV_JAL RISCV_JALR RISCV_BR
      RISCV_LD RISCV_ST]. split.
    - apply exec_OPI_writes_rd.
    - intros t m'. apply exec_OPI_no_return. }
  destruct (Z.eqb_spec (opcode instr) RISCV_OPIW) as [Hop|?].
  { rewrite Hop. cbn [Z.eqb Pos.eqb RISCV_OPI RISCV_OPIW RISCV_JAL RISCV_JALR
      RISCV_BR RISCV_LD RISCV_ST]. split.
    - apply exec_OPIW_writes_rd.
    - intros t m'. apply exec_OPIW_no_return. }
  destruct (Z.eqb_spec (opcode instr) RISCV_OP) as [Hop|?].
  { rewrite Hop. cbn [Z.eqb Pos.eqb RISCV_OPI RISCV_OPIW RISCV_OP RISCV_JAL
      RISCV_JALR RISCV_BR RISCV_LD RISCV_ST]. split.
    - apply exec_OP_writes_rd.
    - intros t m'. apply exec_OP_no_return. }
  destruct (Z.eqb_spec (opcode instr) RISCV_OPW) as [Hop|?];
    [|discriminate].
  rewrite Hop. cbn [Z.eqb Pos.eqb RISCV_OPI RISCV_OPIW RISCV_OP RISCV_OPW
    RISCV_JAL RISCV_JALR RISCV_BR RISCV_LD RISCV_ST]. split.
  - apply exec_OPW_writes_rd.
  - intros t m'. apply exec_OPW_no_return.
Qed.

(** X3. An instruction of the groups LUI, AUIPC, OP-IMM, OP-IMM-32, OP and
    OP-32 that completes costs [USER_TICK], moves [pc] to the next word and
    counts one instruction; it leaves the floating-point registers, the
    memory, the mode and the bad-address register as the fetch left them,
    and every integer register other than register 0 and its [rd]. *)
Theorem OneInstruction_alu_frame (m m1 : Machine) (value t : Z)
    (m' : Machine) :
  ReadMem m (uint64 (pc m)) 4 = (m1, Some value) ->
  alu_opcode (opcode (Decode value)) = true ->
  OneInstruction m = Done t m' ->
  t = USER_TICK
  /\ pc m' = int64 (pc m1 + 4)
  /\ float_registers m' = float_registers m1
  /\ mainMemory m' = mainMemory m1
  /\ status m' = status m1
  /\ badvaddr_reg m' = badvaddr_reg m1
  /\ n_inst m' = n_inst m1 + 1
  /\ forall r : nat,
       r <> 0%nat -> r <> Z.to_nat (rd (Decode value)) ->
       int_registers m' !! r = int_registers m1 !! r.
Proof.
  intros Hfetch Halu. unfold_OneInstruction. rewrite Hfetch.
  destruct (Execute_alu (set_pc m1 (int64 (pc m1 + 4))) (Decode value) Halu)
    as [Hbreak Hleave].
  destruct (Execute (set_pc m1 (int64 (pc m1 + 4))) (Decode value))
    as [m3|r] eqn:Hexec.
  - intros H. inversion H; subst t m'; clear H.
    split; [reflexivity|].
    destruct (Hbreak m3 eq_refl) as [->|[v ->]]; cbn;
      (repeat split; try reflexivity);
      intros r Hr0 Hrd; rewrite !list_lookup_insert_ne by congruence;
      reflexivity.
  - intros ->. exfalso. eapply Hleave. reflexivity.
Qed.

(** *** Jumps, branches and system calls *)

(** X8. JALR jumps to [rs1 + imm] cut to 32 bits with bit 0 cleared (the
    mask [0xfffffffe] is a 32-bit one), so the target is even and below
    [2^32] whatever the registers hold; the link written to [rd] is the
    address of the next instruction cut to 32 bits. *)
Theorem Execute_JALR (m : Machine) (instr : Instruction) :
  opcode instr = RISCV_JALR ->
  let target := 2 * (uint32 (ireg m (rs1 instr) + imm12_I_signed instr) / 2) in
  Execute m instr
  = Break (set_ireg (set_pc m target) (rd instr) (int32 (pc m)))
  /\ 0 <= target < 2 ^ 32
  /\ target mod 2 = 0.
Proof.
  intros Hop target. split; [|split].
  - unfold_Execute. rewrite Hop. cbn [Z.eqb Pos.eqb RISCV_LUI RISCV_AUIPC
      RISCV_JAL RISCV_JALR]. rewrite jalr_target. reflexivity.
  - subst target.
    pose proof (to_uint_range 32 (ireg m (rs1 instr) + imm12_I_signed instr)
                  ltac:(lia)) as Hu. fold uint32 in Hu.
    pose proof (Z.mul_div_le (uint32 (ireg m (rs1 instr)
                                      + imm12_I_signed instr)) 2 ltac:(lia)).
    pose proof (Z.div_pos (uint32 (ireg m (rs1 instr) + imm12_I_signed instr))
                  2 ltac:(lia) ltac:(lia)).
    lia.
  - subst target. rewrite Z.mul_comm. apply Z.mod_mul. lia.
Qed.

Lemma set_pc_taken (m1 : Machine) (x : Z) (taken : bool) :
  (if taken
   then set_pc (set_pc m1 (int64 (pc m1 + 4)))
               (int64 (pc (set_pc m1 (int64 (pc m1 + 4))) + x - 4))
   else set_pc m1 (int64 (pc m1 + 4)))
  = set_pc m1 (int64 (pc m1 + (if taken then x else 4))).
Proof.
  destruct taken; [|reflexivity].
  unfold set_pc. cbn. rewrite (proj1 (int64_next _ _)). reflexivity.
Qed.

(** X9. JAL, seen from [OneInstruction]: [rd] receives the address of the
    instruction after the jump and [pc] the address of the jump plus the
    21-bit offset (the [- 4] of the case undoes the [pc + 4] done before the
    switch). *)
Theorem OneInstruction_JAL (m m1 : Machine) (value : Z) :
  ReadMem m (uint64 (pc m)) 4 = (m1, Some value) ->
  opcode (Decode value) = RISCV_JAL ->
  let instr := Decode value in
  OneInstruction m
  = Done USER_TICK
         (epilogue (set_pc (set_ireg m1 (rd instr) (int64 (pc m1 + 4)))
                           (int64 (pc m1 + imm21_1_signed instr)))).
Proof.
  intros Hfetch Hop instr. subst instr.
  unfold_OneInstruction. rewrite Hfetch. unfold_Execute.
  rewrite Hop. cbn [Z.eqb Pos.eqb RISCV_LUI RISCV_AUIPC RISCV_JAL].
  cbv zeta. do 2 f_equal. unfold set_pc, set_ireg, set_int_registers. cbn.
  rewrite (proj2 (int64_next _ _)). reflexivity.
Qed.

(** X10. The conditional branches, seen from [OneInstruction]: [pc] moves
    to the address of the branch plus the 13-bit offset when the condition
    holds and to the next word otherwise; BEQ and BNE, BLT and BGE (signed),
    BLTU and BGEU (unsigned) test opposite conditions; nothing else of the
    machine changes but the epilogue's counters; the two unassigned
    [funct3] codes exit with [ERROR]. *)
Theorem OneInstruction_BR (m m1 : Machine) (value : Z) :
  ReadMem m (uint64 (pc m)) 4 = (m1, Some value) ->
  opcode (Decode value) = RISCV_BR ->
  let instr := Decode value in
  let r1 := ireg m1 (rs1 instr) in
  let r2 := ireg m1 (rs2 instr) in
  let jump (taken : bool) :=
    Done USER_TICK
         (epilogue (set_pc m1 (int64 (pc m1 + (if taken
                                                then imm13_signed instr
                                                else 4))))) in
  (funct3 instr = RISCV_BR_BEQ -> OneInstruction m = jump (r1 =? r2))
  /\ (funct3 instr = RISCV_BR_BNE -> OneInstruction m = jump (negb (r1 =? r2)))
  /\ (funct3 instr = RISCV_BR_BLT -> OneInstruction m = jump (r1 <? r2))
  /\ (funct3 instr = RISCV_BR_BGE -> OneInstruction m = jump (r1 >=? r2))
  /\ (funct3 instr = RISCV_BR_BLTU ->
      OneInstruction m = jump (uint64 r1 <? uint64 r2))
  /\ (funct3 instr = RISCV_BR_BGEU ->
      OneInstruction m = jump (uint64 r1 >=? uint64 r2))
  /\ (funct3 instr = 2 \/ funct3 instr = 3 -> OneInstruction m = Exit ERROR).
Proof.
  intros Hfetch Hop instr r1 r2 jump. subst jump r1 r2 instr.
  unfold_OneInstruction. rewrite Hfetch. unfold_Execute.
  rewrite Hop. cbn [Z.eqb Pos.eqb RISCV_BR RISCV_LUI RISCV_AUIPC RISCV_JAL
                    RISCV_JALR].
  unfold exec_BR.
  repeat split; intros H3; [rewrite H3 | rewrite H3 | rewrite H3 | rewrite H3
                            | rewrite H3 | rewrite H3 | destruct H3 as [-> | ->]];
    cbn [Z.eqb Pos.eqb RISCV_BR_BEQ RISCV_BR_BNE RISCV_BR_BLT RISCV_BR_BGE
         RISCV_BR_BLTU RISCV_BR_BGEU];
    try reflexivity;
    rewrite set_pc_taken; reflexivity.
Qed.

(** X11. A SYSTEM instruction raises [SYSCALL_EXCEPTION]: the handler runs
    in system mode on a machine whose [pc] is already past the instruction
    and whose bad-address register holds that [pc] cut to 32 bits; when the
    handler returns, the instruction completes in user mode at the cost of
    [USER_TICK]; when it does not, neither does [OneInstruction]. *)
Theorem OneInstruction_SYSTEM (m m1 : Machine) (value : Z) :
  ReadMem m (uint64 (pc m)) 4 = (m1, Some value) ->
  opcode (Decode value) = RISCV_SYSTEM ->
  let next := int64 (pc m1 + 4) in
  let entry :=
    set_status (set_badvaddr_reg (set_pc m1 next) (int32 next)) SYSTEM_MODE in
  match ExceptionHandler SYSCALL_EXCEPTION (int32 next) entry with
  | Some mk =>
      OneInstruction m = Done USER_TICK (epilogue (set_status mk USER_MODE))
  | None => OneInstruction m = NoReturn
  end.
Proof.
  intros Hfetch Hop next entry. unfold_OneInstruction. rewrite Hfetch.
  unfold_Execute. rewrite Hop.
  cbn [Z.eqb Pos.eqb RISCV_LUI RISCV_AUIPC RISCV_JAL RISCV_JALR RISCV_BR
       RISCV_LD RISCV_ST RISCV_OPI RISCV_OPIW RISCV_OP RISCV_OPW
       RISCV_SYSTEM].
  change ((SYSCALL_EXCEPTION <=? 33) && (SYSCALL_EXCEPTION >=? 0)) with true.
  cbv iota. unfold RaiseException.
  change (SYSCALL_EXCEPTION <=? EXCEPTION_NUMBER) with true. cbv iota.
  cbn [pc set_pc]. fold next. fold entry.
  destruct (ExceptionHandler SYSCALL_EXCEPTION (int32 next) entry);
    reflexivity.
Qed.

End MoreInterpreterFacts.

(** [addi x3, x1, 5] with [x1 = 7] and [x2 = 9]. *)
Lemma OneInstruction_alu_frame_witness :
  exists m',
    Bench.OneInstruction (Bench.machine (Bench.encode_I 5 1 0 3 0x13) [] 7 9)
    = Done 1 m'
    /\ pc m' = 4
    /\ mainMemory m'
       = mainMemory (Bench.machine (Bench.encode_I 5 1 0 3 0x13) [] 7 9)
    /\ int_registers m' !! 2%nat = Some 9.
Proof.
  eexists. split; [vm_compute; reflexivity|].
  match goal with
  | |- context [pc ?m'] =>
      destruct (OneInstruction_alu_frame Bench.USER_TICK Bench.ERROR
                  Bench.Decode Bench.ReadMem Bench.WriteMem
                  Bench.ExceptionHandler Z.sqrt Z.abs (fun x => - Z.abs x)
                  Bench.host_shift_right Bench.host_shiftMask
                  (Bench.machine (Bench.encode_I 5 1 0 3 0x13) [] 7 9)
                  (Bench.machine (Bench.encode_I 5 1 0 3 0x13) [] 7 9)
                  (Bench.encode_I 5 1 0 3 0x13) 1 m')
        as (_ & Hpc & _ & Hmem & _ & _ & _ & Hregs)
  end.
  - vm_compute. reflexivity.
  - vm_compute. reflexivity.
  - vm_compute. reflexivity.
  - split; [exact Hpc|]. split; [exact Hmem|].
    rewrite (Hregs 2%nat); [reflexivity | discriminate | discriminate].
Defined.

(** [jalr x1, 5(x2)] with [x2 = 8]. *)
Lemma Execute_JALR_witness :
  Execute Bench.ERROR Bench.ReadMem Bench.WriteMem Bench.ExceptionHandler
          Z.sqrt Z.abs (fun x => - Z.abs x)
          Bench.host_shift_right Bench.host_shiftMask
          (Bench.machine 0 [] 0 8) (Bench.Decode (Bench.encode_I 5 2 0 1 0x67))
  = Break (set_ireg (set_pc (Bench.machine 0 [] 0 8) 12) 1 0).
Proof.
  exact (proj1 (Execute_JALR Bench.ERROR Bench.ReadMem Bench.WriteMem
                  Bench.ExceptionHandler Z.sqrt Z.abs (fun x => - Z.abs x)
                  Bench.host_shift_right Bench.host_shiftMask
                  (Bench.machine 0 [] 0 8)
                  (Bench.Decode (Bench.encode_I 5 2 0 1 0x67)) eq_refl)).
Defined.

(** [jal x1, 16] at address 0. *)
Lemma OneInstruction_JAL_witness :
  Bench.OneInstruction (Bench.machine 0x010000ef [] 0 0)
  = Done 1 (epilogue (set_pc (set_ireg (Bench.machine 0x010000ef [] 0 0) 1 4)
                             16)).
Proof.
  exact (OneInstruction_JAL Bench.USER_TICK Bench.ERROR Bench.Decode
           Bench.ReadMem Bench.WriteMem Bench.ExceptionHandler
           Z.sqrt Z.abs (fun x => - Z.abs x)
           Bench.host_shift_right Bench.host_shiftMask
           (Bench.machine 0x010000ef [] 0 0) (Bench.machine 0x010000ef [] 0 0)
           0x010000ef eq_refl eq_refl).
Defined.

(** [beq x1, x2, 8] at address 0 with [x1 = x2 = 5]: the branch is taken. *)
Lemma OneInstruction_BR_witness :
  Bench.OneInstruction (Bench.machine 0x00208463 [] 5 5)
  = Done 1 (epilogue (set_pc (Bench.machine 0x00208463 [] 5 5) 8)).
Proof.
  exact (proj1 (OneInstruction_BR Bench.USER_TICK Bench.ERROR Bench.Decode
                  Bench.ReadMem Bench.WriteMem Bench.ExceptionHandler
                  Z.sqrt Z.abs (fun x => - Z.abs x)
                  Bench.host_shift_right Bench.host_shiftMask
                  (Bench.machine 0x00208463 [] 5 5)
                  (Bench.machine 0x00208463 [] 5 5)
                  0x00208463 eq_refl eq_refl) eq_refl).
Defined.

(** [ecall] at address 0, the bench handler returning at once. *)
Lemma OneInstruction_SYSTEM_witness :
  Bench.OneInstruction (Bench.machine 0x73 [] 0 0)
  = Done 1 (epilogue
              (set_status
                 (set_status
                    (set_badvaddr_reg (set_pc (Bench.machine 0x73 [] 0 0) 4) 4)
                    SYSTEM_MODE)
                 USER_MODE)).
Proof.
  exact (OneInstruction_SYSTEM Bench.USER_TICK Bench.ERROR Bench.Decode
           Bench.ReadMem Bench.WriteMem Bench.ExceptionHandler
           Z.sqrt Z.abs (fun x => - Z.abs x)
           Bench.host_shift_right Bench.host_shiftMask
           (Bench.machine 0x73 [] 0 0) (Bench.machine 0x73 [] 0 0)
           0x73 eq_refl eq_refl).
Defined.

(** *** Multiplication, division and the 32-bit additions *)

(** X4. In the M group, MUL writes the low 64 bits of the product of the
    two registers; MULHSU and MULHU always write 0, whatever the registers
    hold: their product is computed on unsigned 64-bit operands before it
    is widened to 128 bits, so its high half is empty. *)
Theorem exec_OP_MUL (ERROR : Z) (m : Machine) (instr : Instruction) :
  funct7 instr = 1 ->
  (funct3 instr = RISCV_OP_M_MUL ->
   exec_OP ERROR m instr
   = Break (set_ireg m (rd instr)
              (int64 (ireg m (rs1 instr) * ireg m (rs2 instr)))))
  /\ (funct3 instr = RISCV_OP_M_MULHSU \/ funct3 instr = RISCV_OP_M_MULHU ->
      exec_OP ERROR m instr = Break (set_ireg m (rd instr) 0)).
Proof.
  intros H7. split.
  - intros H3. unfold exec_OP, exec_OP_M. rewrite H7, H3.
    cbn [Z.eqb Pos.eqb RISCV_OP_M_MUL]. do 2 f_equal.
    set (p := int64 (ireg m (rs1 instr) * ireg m (rs2 instr))).
    assert (Hp : - 2 ^ 63 <= p < 2 ^ 63) by (apply (to_int_range 64); lia).
    unfold int128. rewrite to_int_id by lia.
    change 18446744073709551615 with (Z.ones 64).
    rewrite Z.land_ones by lia. unfold int64.
    rewrite (to_int_to_uint 64 p : to_int 64 (p mod 2 ^ 64) = _).
    apply to_int_id; lia.
  - assert (Hhigh : forall u, 0 <= u < 2 ^ 64 ->
              int64 (Z.land (Z.shiftr (int128 u) 64) 18446744073709551615)
              = 0).
    { intros u Hu. unfold int128. rewrite to_int_id by lia.
      rewrite Z.shiftr_div_pow2 by lia. rewrite Z.div_small by lia.
      reflexivity. }
    intros [H3|H3]; unfold exec_OP, exec_OP_M; rewrite H7, H3;
      cbn [Z.eqb Pos.eqb RISCV_OP_M_MUL RISCV_OP_M_MULH RISCV_OP_M_MULHSU
           RISCV_OP_M_MULHU];
      do 2 f_equal; apply Hhigh; apply (to_uint_range 64); lia.
Qed.

(** [mul x3, x1, x2] with [x1 = 6] and [x2 = 7]. *)
Lemma exec_OP_MUL_witness :
  exec_OP Bench.ERROR (Bench.machine 0 [] 6 7)
          (Bench.Decode (Bench.encode_R 1 2 1 0 3 0x33))
  = Break (set_ireg (Bench.machine 0 [] 6 7) 3 42).
Proof.
  exact (proj1 (exec_OP_MUL Bench.ERROR (Bench.machine 0 [] 6 7)
                  (Bench.Decode (Bench.encode_R 1 2 1 0 3 0x33)) eq_refl)
               eq_refl).
Defined.

(** X5. DIV and REM on the same registers, when the division is defined
    (divisor not 0, and not [INT64_MIN / -1]): the quotient [q] and the
    remainder [s] they write satisfy [a = b * q + s] with [|s| < |b|], the
    remainder has the sign of the dividend (truncation towards zero), and
    the quotient fits the register. *)
Theorem exec_OP_DIV_REM (ERROR : Z) (m : Machine) (d r : Instruction) :
  funct7 d = 1 -> funct3 d = RISCV_OP_M_DIV ->
  funct7 r = 1 -> funct3 r = RISCV_OP_M_REM ->
  rs1 d = rs1 r -> rs2 d = rs2 r ->
  let a := ireg m (rs1 d) in
  let b := ireg m (rs2 d) in
  - 2 ^ 63 <= a < 2 ^ 63 ->
  b <> 0 -> ~ (a = - 2 ^ 63 /\ b = -1) ->
  exists q s,
    exec_OP ERROR m d = Break (set_ireg m (rd d) q)
    /\ exec_OP ERROR m r = Break (set_ireg m (rd r) s)
    /\ a = b * q + s
    /\ Z.abs s < Z.abs b
    /\ 0 <= a * s
    /\ - 2 ^ 63 <= q < 2 ^ 63.
Proof.
  intros H7d H3d H7r H3r Hrs1 Hrs2 a b Ha Hb Hov.
  unfold exec_OP, exec_OP_M. rewrite H7d, H3d, H7r, H3r, <- Hrs1, <- Hrs2.
  cbn [Z.eqb Pos.eqb RISCV_OP_M_MUL RISCV_OP_M_MULH RISCV_OP_M_MULHSU
       RISCV_OP_M_MULHU RISCV_OP_M_DIV RISCV_OP_M_DIVU RISCV_OP_M_REM].
  fold a b. unfold sdiv, srem. change (2 ^ (64 - 1)) with (2 ^ 63).
  assert (Hdef : (b =? 0) || ((a =? - 2 ^ 63) && (b =? -1)) = false).
  { apply orb_false_iff. split; [apply Z.eqb_neq; assumption|].
    apply andb_false_iff.
    destruct (Z.eqb_spec a (- 2 ^ 63)); [|left; reflexivity].
    right. apply Z.eqb_neq. tauto. }
  rewrite Hdef. exists (Z.quot a b), (Z.rem a b). simpl.
  split; [reflexivity|]. split; [reflexivity|].
  split; [apply Z.quot_rem'|].
  split; [apply Z.rem_bound_abs; assumption|].
  split; [rewrite Z.mul_comm; apply Z.rem_sign_mul; assumption|].
  pose proof (Z.mul_quot_le (Z.abs a) (Z.abs b) ltac:(lia) ltac:(lia))
    as Hm.
  rewrite Z.quot_abs in Hm by assumption.
  destruct (Z.eq_dec b (-1)) as [Hb1|Hb1].
  - pose proof (Z.quot_rem' a b).
    pose proof (Z.rem_bound_abs a b Hb). lia.
  - destruct (Z.eq_dec b 1) as [Hb2|Hb2].
    + pose proof (Z.quot_rem' a b).
      pose proof (Z.rem_bound_abs a b Hb). lia.
    + assert (2 * Z.abs (Z.quot a b) <= Z.abs b * Z.abs (Z.quot a b)) by nia.
      lia.
Qed.

(** [div x3, x1, x2] and [rem x4, x1, x2] with [x1 = -7] and [x2 = 2]:
    quotient -3, remainder -1. *)
Lemma exec_OP_DIV_REM_witness :
  exists q s,
    exec_OP Bench.ERROR (Bench.machine 0 [] (-7) 2)
            (Bench.Decode (Bench.encode_R 1 2 1 4 3 0x33))
    = Break (set_ireg (Bench.machine 0 [] (-7) 2) 3 q)
    /\ exec_OP Bench.ERROR (Bench.machine 0 [] (-7) 2)
               (Bench.Decode (Bench.encode_R 1 2 1 6 4 0x33))
       = Break (set_ireg (Bench.machine 0 [] (-7) 2) 4 s)
    /\ -7 = 2 * q + s
    /\ Z.abs s < Z.abs 2
    /\ 0 <= -7 * s
    /\ - 2 ^ 63 <= q < 2 ^ 63.
Proof.
  apply (exec_OP_DIV_REM Bench.ERROR (Bench.machine 0 [] (-7) 2)
           (Bench.Decode (Bench.encode_R 1 2 1 4 3 0x33))
           (Bench.Decode (Bench.encode_R 1 2 1 6 4 0x33)));
    try reflexivity.
  - change (- 2 ^ 63 <= -7 < 2 ^ 63). lia.
  - change (2 <> 0). lia.
  - change (~ (-7 = - 2 ^ 63 /\ 2 = -1)). lia.
Defined.

(** X6. In the OP-32 group with [funct3 = 0], [funct7 = 0] is ADDW and
    every other [funct7] but the M group's 1 is taken as SUBW; both write
    the low 32 bits of the sum or difference of the full registers,
    sign-extended. *)
Theorem exec_OPW_ADDW_SUBW (ERROR : Z) (host_shift_right : Z -> Z -> Z)
    (host_shiftMask : Machine -> Z -> Z) (m : Machine) (instr : Instruction) :
  funct3 instr = RISCV_OPW_ADDSUBW -> funct7 instr <> 1 ->
  exec_OPW ERROR host_shift_right host_shiftMask m instr
  = Break (set_ireg m (rd instr)
             (if funct7 instr =? RISCV_OPW_ADDSUBW_ADDW
              then int32 (ireg m (rs1 instr) + ireg m (rs2 instr))
              else int32 (ireg m (rs1 instr) - ireg m (rs2 instr)))).
Proof.
  intros H3 H7. unfold exec_OPW. rewrite H3.
  destruct (Z.eqb_spec (funct7 instr) 1) as [?|_]; [contradiction|].
  cbn [Z.eqb RISCV_OPW_ADDSUBW].
  destruct (funct7 instr =? RISCV_OPW_ADDSUBW_ADDW).
  - rewrite int32_low_add. reflexivity.
  - rewrite int32_low_sub. reflexivity.
Qed.

(** [addw x3, x1, x2] with [x1 = 2^31 - 1] and [x2 = 1]: the sum wraps. *)
Lemma exec_OPW_ADDW_SUBW_witness :
  exec_OPW Bench.ERROR Bench.host_shift_right Bench.host_shiftMask
           (Bench.machine 0 [] (2 ^ 31 - 1) 1)
           (Bench.Decode (Bench.encode_R 0 2 1 0 3 0x3b))
  = Break (set_ireg (Bench.machine 0 [] (2 ^ 31 - 1) 1) 3 (- 2 ^ 31)).
Proof.
  exact (exec_OPW_ADDW_SUBW Bench.ERROR Bench.host_shift_right
           Bench.host_shiftMask (Bench.machine 0 [] (2 ^ 31 - 1) 1)
           (Bench.Decode (Bench.encode_R 0 2 1 0 3 0x3b)) eq_refl
           ltac:(change (0 <> 1); lia)).
Defined.

(** *** The register interface *)

(** X7. [WriteIntRegister] fails its assertion exactly for a register
    number outside 0..31; otherwise [ReadIntRegister] of the same number
    gives the value written back, every other integer register and every
    floating-point register reads as before, and [pc] and the memory are
    untouched. *)
Theorem WriteIntRegister_ReadIntRegister (m : Machine) (num value : Z) :
  length (int_registers m) = NUM_INT_REGS ->
  (WriteIntRegister m num value = None <-> num < 0 \/ 32 <= num)
  /\ forall m',
       WriteIntRegister m num value = Some m' ->
       ReadIntRegister m' num = Some value
       /\ (forall k, k <> num -> ReadIntRegister m' k = ReadIntRegister m k)
       /\ (forall k, ReadFPRegister m' k = ReadFPRegister m k)
       /\ pc m' = pc m /\ mainMemory m' = mainMemory m.
Proof.
  intros Hlen. split.
  - unfold WriteIntRegister. change (Z.of_nat NUM_INT_REGS) with 32.
    destruct (Z.leb_spec 0 num), (Z.ltb_spec num 32); simpl;
      split; intros; try discriminate; try lia.
    all: reflexivity.
  - intros m' H'. unfold WriteIntRegister in H'.
    change (Z.of_nat NUM_INT_REGS) with 32 in H'.
    destruct ((0 <=? num) && (num <? 32)) eqn:Hr; [|discriminate].
    inversion H'; subst m'; clear H'.
    apply andb_true_iff in Hr as [H0 H32].
    apply Z.leb_le in H0. apply Z.ltb_lt in H32.
    split; [|split; [|repeat split]].
    + unfold ReadIntRegister. change (Z.of_nat NUM_INT_REGS) with 32.
      destruct (Z.leb_spec 0 num), (Z.ltb_spec num 32); try lia. simpl.
      f_equal. unfold ireg, set_ireg. cbn [int_registers set_int_registers].
      apply list_lookup_total_insert_eq. rewrite Hlen. unfold NUM_INT_REGS.
      lia.
    + intros k Hk. unfold ReadIntRegister.
      destruct ((0 <=? k) && (k <? Z.of_nat NUM_INT_REGS)) eqn:Hkr;
        [|reflexivity].
      apply andb_true_iff in Hkr as [Hk0 _]. apply Z.leb_le in Hk0.
      f_equal. unfold ireg, set_ireg. cbn [int_registers set_int_registers].
      apply list_lookup_total_insert_ne. lia.
Qed.

Lemma WriteIntRegister_ReadIntRegister_witness :
  exists m',
    WriteIntRegister (Bench.machine 0 [] 0 0) 5 9 = Some m'
    /\ ReadIntRegister m' 5 = Some 9.
Proof.
  eexists. split; [reflexivity|].
  apply (proj2 (WriteIntRegister_ReadIntRegister (Bench.machine 0 [] 0 0) 5 9
                  ltac:(vm_compute; reflexivity)) _ eq_refl).
Defined.

(** *** The endianness check on any host *)

(** X12. On every host that stores the four bytes of a word at weights
    0..3, [CheckEndian] records big-endian exactly for the byte order
    3,2,1,0 and little-endian exactly for 0,1,2,3; on any other order it
    leaves [host_endianess] as it was. *)
Theorem CheckEndian_exact (w0 w1 w2 w3 : Z) (e : Endianess) :
  0 <= w0 <= 3 -> 0 <= w1 <= 3 -> 0 <= w2 <= 3 -> 0 <= w3 <= 3 ->
  CheckEndian [w0; w1; w2; w3] e
  = if decide ([w0; w1; w2; w3] = big_endian_host) then IS_BIG_ENDIAN
    else if decide ([w0; w1; w2; w3] = little_endian_host)
         then IS_LITTLE_ENDIAN
         else e.
Proof.
  intros H0 H1 H2 H3.
  assert (E0 : w0 = 0 \/ w0 = 1 \/ w0 = 2 \/ w0 = 3) by lia.
  assert (E1 : w1 = 0 \/ w1 = 1 \/ w1 = 2 \/ w1 = 3) by lia.
  assert (E2 : w2 = 0 \/ w2 = 1 \/ w2 = 2 \/ w2 = 3) by lia.
  assert (E3 : w3 = 0 \/ w3 = 1 \/ w3 = 2 \/ w3 = 3) by lia.
  clear H0 H1 H2 H3.
  destruct E0 as [->|[->|[->| ->]]], E1 as [->|[->|[->| ->]]],
    E2 as [->|[->|[->| ->]]], E3 as [->|[->|[->| ->]]];
    vm_compute; reflexivity.
Qed.

Lemma CheckEndian_exact_witness :
  CheckEndian middle_endian_host IS_LITTLE_ENDIAN = IS_LITTLE_ENDIAN.
Proof.
  exact (CheckEndian_exact 2 3 0 1 IS_LITTLE_ENDIAN
           ltac:(lia) ltac:(lia) ltac:(lia) ltac:(lia)).
Defined.

(** ** More of the disk driver *)

Lemma in_phase_nil_inv ph : in_phase ph [] -> ph = Idle.
Proof. simpl. auto. Qed.

Lemma owner_awake s o :
  invariant s -> owner (lock (driver s)) = Some o ->
  sem_queue (semaphore (driver s)) = [] ->
  sleeping o (driver s) = false.
Proof.
  intros Hinv Ho Hsq. unfold sleeping. apply bool_decide_eq_false.
  rewrite Hsq. intros [Hel|Hel]; [inversion Hel|].
  destruct (inv_queue s Hinv o Hel) as (Hne & _). contradiction.
Qed.

Lemma owner_state_cons s o k :
  owner_state o k (driver s) -> exists c k', k = c :: k'.
Proof.
  unfold owner_state.
  intros [(Hph & _)|[(Hph & _)|[(Hph & _)|[(Hph & _)|(Hph & _)]]]];
    destruct k as [|c k']; eauto; discriminate.
Qed.

(** X13. The driver cannot deadlock: in every state reached from [boot],
    under every schedule, as long as some thread has calls left there is
    an event that can happen: a thread that is not asleep can run, or the
    disk has a request outstanding and its interrupt can fire. *)
Theorem DriverDisk_no_deadlock
    (sem_name lock_name : string) (clients : gmap Thread (list Request))
    (schedule : list Event) (s : System) :
  run schedule (boot sem_name lock_name clients) = Stepped s ->
  (exists t c k, threads s !! t = Some (c :: k)) ->
  exists e s', step e s = Stepped s'.
Proof.
  intros Hrun (t & c & k & Hk).
  destruct (run_invariant schedule _
              (invariant_boot sem_name lock_name clients)) as [_ Hinv].
  specialize (Hinv s Hrun).
  destruct (owner (lock (driver s))) as [o|] eqn:Ho.
  - destruct (inv_owner s Hinv o Ho) as (ko & Hko & Hst).
    destruct (owner_state_cons s o ko Hst) as (co & ko' & ->).
    pose proof Hst as Hst'. unfold owner_state in Hst'.
    destruct Hst' as [(_ & _ & _ & Hsq)|[(_ & _ & _ & Hsq)|
                      [(_ & _ & _ & Hsq)|[(_ & Hact & _ & _)|
                       (_ & _ & _ & Hsq)]]]].
    4: { exists DiskInterrupt. unfold step. rewrite Hact.
         destruct (step_DiskInterrupt s Hinv Hact) as (drv & -> & _). eauto. }
    all: exists (Run o); unfold step; rewrite Hko;
      rewrite (owner_awake s o Hinv Ho Hsq);
      destruct (step_Run_owner o co ko' s Hinv Hko
                  (owner_awake s o Hinv Ho Hsq) Ho) as (drv & -> & _); eauto.
  - destruct (inv_free s Hinv Ho) as (_ & _ & Hsq).
    pose proof (lock_queue_empty s Hinv Ho) as Hlq.
    assert (Hsl : sleeping t (driver s) = false).
    { unfold sleeping. apply bool_decide_eq_false. rewrite Hsq, Hlq.
      intros [Hel|Hel]; inversion Hel. }
    exists (Run t). unfold step. rewrite Hk, Hsl.
    destruct (step_Run_other t c k s Hinv Hk Hsl) as (drv & -> & _);
      [rewrite Ho; discriminate|]. eauto.
Qed.

(** After [busy_schedule] thread 0 sleeps in [P] and thread 1 waits for
    the lock: the interrupt of the disk can still fire. *)
Lemma DriverDisk_no_deadlock_witness :
  exists s e s',
    run busy_schedule (boot "sem" "lock" two_clients) = Stepped s
    /\ step e s = Stepped s'.
Proof.
  assert (Hrun : exists s,
             run busy_schedule (boot "sem" "lock" two_clients) = Stepped s
             /\ threads s !! 0%nat = Some [Lock_Release]).
  { eexists. split; vm_compute; reflexivity. }
  destruct Hrun as (s & Hrun & Hk).
  destruct (DriverDisk_no_deadlock "sem" "lock" two_clients busy_schedule s
              Hrun) as (e & s' & Hstep); [eauto|].
  exists s, e, s'. split; assumption.
Defined.

(** X14. Once every thread has returned from all its calls the driver is
    back where the constructor left it: lock free with nobody queued,
    semaphore at 0 with nobody waiting, no request outstanding. No [V] is
    left over to let a later [P] through early. *)
Theorem DriverDisk_quiescent
    (sem_name lock_name : string) (clients : gmap Thread (list Request))
    (schedule : list Event) (s : System) :
  run schedule (boot sem_name lock_name clients) = Stepped s ->
  (forall t k, threads s !! t = Some k -> k = []) ->
  owner (lock (driver s)) = None
  /\ lock_queue (lock (driver s)) = []
  /\ counter (semaphore (driver s)) = 0
  /\ sem_queue (semaphore (driver s)) = []
  /\ active (disk (driver s)) = false.
Proof.
  intros Hrun Hdone.
  destruct (run_invariant schedule _
              (invariant_boot sem_name lock_name clients)) as [_ Hinv].
  specialize (Hinv s Hrun).
  assert (Ho : owner (lock (driver s)) = None).
  { destruct (owner (lock (driver s))) as [o|] eqn:Ho; [|reflexivity].
    destruct (inv_owner s Hinv o Ho) as (ko & Hko & Hst).
    destruct (owner_state_cons s o ko Hst) as (co & ko' & ->).
    specialize (Hdone o _ Hko). discriminate. }
  split; [exact Ho|]. split; [apply lock_queue_empty; assumption|].
  destruct (inv_free s Hinv Ho) as (Ha & Hc & Hq). auto.
Qed.

(** One client, served. *)
Lemma DriverDisk_quiescent_witness :
  exists s,
    run (serve 0%nat [ReadReq 3 100])
        (boot "sem" "lock" {[ 0%nat := [ReadReq 3 100] ]}) = Stepped s
    /\ owner (lock (driver s)) = None
    /\ counter (semaphore (driver s)) = 0.
Proof.
  assert (Hrun : exists s,
             run (serve 0%nat [ReadReq 3 100])
                 (boot "sem" "lock" {[ 0%nat := [ReadReq 3 100] ]})
             = Stepped s
             /\ threads s = {[ 0%nat := [] ]}).
  { eexists. split; vm_compute; reflexivity. }
  destruct Hrun as (s & Hrun & Hthreads).
  destruct (DriverDisk_quiescent "sem" "lock" {[ 0%nat := [ReadReq 3 100] ]}
              (serve 0%nat [ReadReq 3 100]) s Hrun)
    as (Ho & _ & Hc & _).
  - rewrite Hthreads. intros t k Hk.
    apply lookup_singleton_Some in Hk as [_ <-]. reflexivity.
  - exists s. split; [exact Hrun|]. split; assumption.
Defined.

(** X15. In every reachable state the semaphore counter is -1, 0 or 1; it
    is negative exactly when a thread waits on the semaphore, and at most
    one thread does; it is 1 only when the request has completed; and no
    thread is queued twice for the lock. *)
Theorem DriverDisk_semaphore_bounds
    (sem_name lock_name : string) (clients : gmap Thread (list Request))
    (schedule : list Event) (s : System) :
  run schedule (boot sem_name lock_name clients) = Stepped s ->
  let sem := semaphore (driver s) in
  -1 <= counter sem <= 1
  /\ (0 <= counter sem <-> sem_queue sem = [])
  /\ (length (sem_queue sem) <= 1)%nat
  /\ (counter sem = 1 -> active (disk (driver s)) = false)
  /\ NoDup (lock_queue (lock (driver s))).
Proof.
  intros Hrun sem.
  destruct (run_invariant schedule _
              (invariant_boot sem_name lock_name clients)) as [_ Hinv].
  specialize (Hinv s Hrun). subst sem.
  assert (Hcases :
           (counter (semaphore (driver s)) = 0
            /\ sem_queue (semaphore (driver s)) = [])
           \/ (counter (semaphore (driver s)) = 1
               /\ sem_queue (semaphore (driver s)) = []
               /\ active (disk (driver s)) = false)
           \/ (counter (semaphore (driver s)) = -1
               /\ exists o, sem_queue (semaphore (driver s)) = [o])).
  { destruct (owner (lock (driver s))) as [o|] eqn:Ho.
    - destruct (inv_owner s Hinv o Ho) as (ko & Hko & Hst).
      unfold owner_state in Hst.
      destruct Hst as [(_ & Ha & Hc & Hq)|[(_ & Ha & Hc & Hq)|
                       [(_ & Ha & Hc & Hq)|[(_ & Ha & Hc & Hq)|
                        (_ & Ha & Hc & Hq)]]]]; eauto 6.
    - destruct (inv_free s Hinv Ho) as (Ha & Hc & Hq). auto. }
  split; [|split; [|split; [|split]]].
  - destruct Hcases as [[-> _]|[[-> _]|[-> _]]]; lia.
  - destruct Hcases as [[-> ->]|[(-> & -> & _)|(-> & o & ->)]];
      split; try reflexivity; try lia; try discriminate.
  - destruct Hcases as [[_ ->]|[(_ & -> & _)|(_ & o & ->)]]; simpl; lia.
  - destruct Hcases as [[-> _]|[(_ & _ & Ha)|(-> & _)]]; intros; try lia.
    exact Ha.
  - apply (inv_nodup s Hinv).
Qed.

Lemma DriverDisk_semaphore_bounds_witness :
  exists s,
    run busy_schedule (boot "sem" "lock" two_clients) = Stepped s
    /\ -1 <= counter (semaphore (driver s)) <= 1
    /\ (length (sem_queue (semaphore (driver s))) <= 1)%nat.
Proof.
  assert (Hrun : exists s,
             run busy_schedule (boot "sem" "lock" two_clients) = Stepped s).
  { eexists. vm_compute. reflexivity. }
  destruct Hrun as (s & Hrun).
  destruct (DriverDisk_semaphore_bounds "sem" "lock" two_clients busy_schedule
              s Hrun) as (Hc & _ & Hq & _).
  exists s. split; [exact Hrun|]. split; assumption.
Defined.

(** X16. A thread that is awake with [Release] as its next call, that is,
    one that has returned from [P], finds its request completed: the disk
    is idle, the semaphore is back at 0, and the thread still owns the
    lock. [ReadSector] and [WriteSector] never return before the
    interrupt. *)
Theorem DriverDisk_release_after_completion
    (sem_name lock_name : string) (clients : gmap Thread (list Request))
    (schedule : list Event) (s : System) (t : Thread) (k : list Call) :
  run schedule (boot sem_name lock_name clients) = Stepped s ->
  threads s !! t = Some (Lock_Release :: k) ->
  sleeping t (driver s) = false ->
  active (disk (driver s)) = false
  /\ counter (semaphore (driver s)) = 0
  /\ owner (lock (driver s)) = Some t.
Proof.
  intros Hrun Hk Hsl.
  destruct (run_invariant schedule _
              (invariant_boot sem_name lock_name clients)) as [_ Hinv].
  specialize (Hinv s Hrun).
  destruct (invariant_position s t _ _ Hinv Hk ltac:(discriminate))
    as [Ho|[_ Hreq]]; [|discriminate].
  destruct (inv_owner s Hinv t Ho) as (kt & Hkt & Hst).
  rewrite Hk in Hkt. inversion Hkt; subst kt; clear Hkt.
  apply not_sleeping in Hsl as [Hsq _].
  unfold owner_state in Hst.
  destruct Hst as [(Hph & _)|[(Hph & _)|[(Hph & _)|[(_ & _ & _ & Hq)|
                   (_ & Ha & Hc & _)]]]]; try (simpl in Hph; contradiction).
  - exfalso. apply Hsq. rewrite Hq. left.
  - auto.
Qed.

Lemma DriverDisk_release_after_completion_witness :
  exists s,
    run served_schedule (boot "sem" "lock" two_clients) = Stepped s
    /\ active (disk (driver s)) = false
    /\ owner (lock (driver s)) = Some 0%nat.
Proof.
  assert (Hrun : exists s,
             run served_schedule (boot "sem" "lock" two_clients) = Stepped s
             /\ threads s !! 0%nat = Some [Lock_Release]
             /\ sleeping 0%nat (driver s) = false).
  { eexists. split; [|split]; vm_compute; reflexivity. }
  destruct Hrun as (s & Hrun & Hk & Hsl).
  destruct (DriverDisk_release_after_completion "sem" "lock" two_clients
              served_schedule s 0%nat [] Hrun Hk Hsl) as (Ha & _ & Ho).
  exists s. split; [exact Hrun|]. split; assumption.
Defined.

Lemma run_app (s1 s2 : list Event) (s : System) :
  run (s1 ++ s2) s
  = match run s1 s with Stepped s' => run s2 s' | r => r end.
Proof.
  revert s. induction s1 as [|e s1 IH]; intros s; simpl; [reflexivity|].
  destruct (step e s); auto.
Qed.

Lemma sleeping_empty (t : Thread) (drv : DriverDisk) :
  sem_queue (semaphore drv) = [] -> lock_queue (lock drv) = [] ->
  sleeping t drv = false.
Proof.
  intros Hs Hl. unfold sleeping. apply bool_decide_eq_false.
  rewrite Hs, Hl. intros [H|H]; inversion H.
Qed.

Lemma step_Run_singleton (t : Thread) (c : Call) (k : list Call)
    (drv drv' : DriverDisk) :
  sem_queue (semaphore drv) = [] -> lock_queue (lock drv) = [] ->
  do_call t c drv = Some drv' ->
  step (Run t) (mkSystem drv {[t := c :: k]})
  = Stepped (mkSystem drv' {[t := k]}).
Proof.
  intros Hs Hl Hcall. unfold step. cbn [threads driver].
  rewrite lookup_singleton_eq, (sleeping_empty t drv Hs Hl), Hcall.
  rewrite insert_singleton_eq. reflexivity.
Qed.

Lemma run_cons_Stepped (e : Event) (schedule : list Event) (s s' : System) :
  step e s = Stepped s' -> run (e :: schedule) s = run schedule s'.
Proof. intros H. simpl. rewrite H. reflexivity. Qed.

Lemma serve_one (t : Thread) (r : Request) (k : list Call)
    (drv : DriverDisk) :
  at_rest drv ->
  exists drv',
    at_rest drv'
    /\ run [Run t; Run t; DiskInterrupt; Run t; Run t]
           (mkSystem drv {[t := client [r] ++ k]})
       = Stepped (mkSystem drv' {[t := k]}).
Proof.
  destruct drv as [[sn c sq] [ln o lq] [a ls]]. unfold at_rest at 1.
  cbn [owner lock lock_queue counter semaphore sem_queue active disk].
  intros (-> & -> & -> & -> & ->).
  destruct r as [n d|n d]; eexists; (split; [|
    cbn [client flat_map ReadSector WriteSector app];
    erewrite run_cons_Stepped by (apply step_Run_singleton; reflexivity);
    erewrite run_cons_Stepped by (apply step_Run_singleton; reflexivity);
    erewrite run_cons_Stepped by reflexivity;
    erewrite run_cons_Stepped by (apply step_Run_singleton; reflexivity);
    erewrite run_cons_Stepped by (apply step_Run_singleton; reflexivity);
    reflexivity]); unfold at_rest; cbn; repeat split;
    unfold Lock_Release_by; cbn; rewrite decide_True by reflexivity;
    reflexivity.
Qed.

Lemma run_serve
    (sem_name lock_name : string) (t : Thread) (reqs : list Request) :
  exists drv,
    run (serve t reqs) (boot sem_name lock_name {[t := reqs]})
    = Stepped (mkSystem drv {[t := []]})
    /\ at_rest drv.
Proof.
  unfold boot. rewrite map_fmap_singleton.
  assert (Hrest : at_rest (DriverDisk_DriverDisk sem_name lock_name
                             (mkDisk false 0))) by (repeat split).
  revert Hrest. generalize (DriverDisk_DriverDisk sem_name lock_name
                              (mkDisk false 0)).
  induction reqs as [|r reqs IH]; intros drv Hrest.
  - exists drv. split; [reflexivity | exact Hrest].
  - destruct (serve_one t r (client reqs) drv Hrest) as (drv1 & Hrest1 & Hrun).
    destruct (IH drv1 Hrest1) as (drv2 & Hrun2 & Hrest2).
    exists drv2. split; [|exact Hrest2].
    change (serve t (r :: reqs))
      with ([Run t; Run t; DiskInterrupt; Run t; Run t] ++ serve t reqs).
    rewrite run_app.
    replace (client (r :: reqs)) with (client [r] ++ client reqs)
      by (destruct r; reflexivity).
    rewrite Hrun. exact Hrun2.
Qed.

(** X17. A thread that is alone completes any list of requests: under the
    schedule [serve], five events per request (two calls, the interrupt,
    two calls), the run never blocks, the thread returns from its last
    call, and the driver is left at rest. *)
Theorem DriverDisk_single_client_completes
    (sem_name lock_name : string) (t : Thread) (reqs : list Request) :
  length (serve t reqs) = (5 * length reqs)%nat
  /\ exists drv,
       run (serve t reqs) (boot sem_name lock_name {[t := reqs]})
       = Stepped (mkSystem drv {[t := []]})
       /\ at_rest drv.
Proof.
  split; [|apply run_serve].
  unfold serve. induction reqs as [|r reqs IH]; [reflexivity|].
  cbn [flat_map]. rewrite length_app, IH. cbn [length]. lia.
Qed.

(** ** The user library *)

Lemma n_strlen_from_NUL (a rest : list Z) (i : Z) :
  no_NUL a ->
  n_strlen_from (a ++ 0 :: rest) i = Some (i + Z.of_nat (length a)).
Proof.
  intros Ha. revert i. induction Ha as [|c a Hc Ha IH]; intros i; simpl.
  - f_equal. lia.
  - destruct (Z.eqb_spec c 0); [contradiction|]. simpl. rewrite IH.
    f_equal. lia.
Qed.

Lemma n_strlen_from_None (s : list Z) (i : Z) :
  n_strlen_from s i = None <-> no_NUL s.
Proof.
  revert i. induction s as [|c s IH]; intros i; simpl.
  - split; [constructor | reflexivity].
  - destruct (Z.eqb_spec c 0) as [->|Hc]; simpl.
    + split; [discriminate|]. intros H. inversion H. contradiction.
    + rewrite IH. split; [constructor; assumption|].
      intros H. inversion H. assumption.
Qed.

Lemma n_strlen_NUL (a rest : list Z) :
  no_NUL a -> n_strlen (a ++ 0 :: rest) = Some (Z.of_nat (length a)).
Proof.
  intros Ha. unfold n_strlen. rewrite n_strlen_from_NUL by assumption.
  f_equal.
Qed.

(** X18. [n_strlen] returns the index of the first NUL of the object: the
    number of characters before it, whatever follows; and it runs off the
    end of the object ([None], undefined in C) exactly when the object
    holds no NUL at all. *)
Theorem n_strlen_first_NUL (s : list Z) :
  (forall a rest, no_NUL a -> s = a ++ 0 :: rest ->
                  n_strlen s = Some (Z.of_nat (length a)))
  /\ (n_strlen s = None <-> no_NUL s).
Proof.
  split.
  - intros a rest Ha ->. apply n_strlen_NUL, Ha.
  - apply n_strlen_from_None.
Qed.

Lemma n_strcmp_same (a r1 r2 : list Z) :
  no_NUL a -> n_strcmp (a ++ 0 :: r1) (a ++ 0 :: r2) = Some 0.
Proof.
  induction 1 as [|x a Hx Ha IH]; simpl; [reflexivity|].
  destruct (Z.eqb_spec x 0); [contradiction|].
  rewrite Z.ltb_irrefl. destruct (Z.gtb_spec x x); [lia|]. exact IH.
Qed.

(** X19. [n_strcmp] on two NUL-terminated strings returns -1, 0 or 1; it
    returns 0 exactly when the strings are equal up to their terminators
    (what follows a terminator is never read), and swapping the arguments
    negates the result. *)
Theorem n_strcmp_order (a b r1 r2 : list Z) :
  no_NUL a -> no_NUL b ->
  exists c,
    n_strcmp (a ++ 0 :: r1) (b ++ 0 :: r2) = Some c
    /\ n_strcmp (b ++ 0 :: r2) (a ++ 0 :: r1) = Some (- c)
    /\ (c = -1 \/ c = 0 \/ c = 1)
    /\ (c = 0 <-> a = b).
Proof.
  intros Ha. revert b. induction Ha as [|x a Hx Ha IH]; intros b Hb.
  - destruct Hb as [|y b Hy Hb]; simpl.
    + exists 0. repeat split; auto.
    + destruct (Z.eqb_spec y 0); [contradiction|].
      destruct (Z.ltb_spec 0 y), (Z.gtb_spec 0 y), (Z.ltb_spec y 0),
        (Z.gtb_spec y 0); try lia; simpl.
      * exists (-1). repeat split; auto; try discriminate.
      * exists 1. repeat split; auto; try discriminate.
  - destruct Hb as [|y b Hy Hb]; simpl.
    + destruct (Z.eqb_spec x 0); [contradiction|].
      destruct (Z.ltb_spec 0 x), (Z.gtb_spec 0 x), (Z.ltb_spec x 0),
        (Z.gtb_spec x 0); try lia; simpl.
      * exists 1. repeat split; auto; try discriminate.
      * exists (-1). repeat split; auto; try discriminate.
    + destruct (Z.eqb_spec x 0); [contradiction|].
      destruct (Z.eqb_spec y 0); [contradiction|]. simpl.
      destruct (Z.ltb_spec x y), (Z.gtb_spec x y), (Z.ltb_spec y x),
        (Z.gtb_spec y x); try lia.
      * exists (-1). repeat split; auto; try discriminate.
        intros E. inversion E. lia.
      * exists 1. repeat split; auto; try discriminate.
        intros E. inversion E. lia.
      * assert (x = y) by lia. subst y.
        destruct (IH b Hb) as (c & IH1 & IH2 & IH3 & IH4).
        exists c. rewrite IH1, IH2. repeat split; auto.
        -- intros E. f_equal. apply IH4. exact E.
        -- intros E. inversion E. apply IH4. assumption.
Qed.

Ltac chars :=
  repeat (constructor; [first [discriminate | unfold is_digit; lia]|]);
  constructor.

(** ["abc"] against ["abd"]. *)
Lemma n_strcmp_order_witness :
  exists c,
    n_strcmp abc abd = Some c /\ n_strcmp abd abc = Some (- c) /\ c <> 0.
Proof.
  destruct (n_strcmp_order [97; 98; 99] [97; 98; 100] [] []
              ltac:(chars) ltac:(chars)) as (c & H1 & H2 & _ & Hz).
  exists c. split; [exact H1|]. split; [exact H2|].
  intros E. apply Hz in E. discriminate E.
Defined.

(** X22. [n_toupper] moves the 26 lower-case letters down by 32 and leaves
    every other value; [n_tolower] moves the 26 upper-case letters up by 32
    and leaves every other value; each undoes the other on the letters it
    produces, and each is idempotent. *)
Theorem n_toupper_n_tolower (c : Z) :
  (97 <= c <= 122 -> n_toupper c = c - 32 /\ n_tolower (n_toupper c) = c)
  /\ (65 <= c <= 90 -> n_tolower c = c + 32 /\ n_toupper (n_tolower c) = c)
  /\ (~ 97 <= c <= 122 -> n_toupper c = c)
  /\ (~ 65 <= c <= 90 -> n_tolower c = c)
  /\ n_toupper (n_toupper c) = n_toupper c
  /\ n_tolower (n_tolower c) = n_tolower c.
Proof.
  unfold n_toupper, n_tolower.
  destruct (Z.geb_spec c 97), (Z.leb_spec c 122), (Z.leb_spec c 90),
    (Z.geb_spec c 65); cbn [andb]; try lia;
    repeat split; intros; try lia;
    repeat match goal with
           | |- context [?x >=? ?y] => destruct (Z.geb_spec x y)
           | |- context [?x <=? ?y] => destruct (Z.leb_spec x y)
           end; cbn [andb]; lia.
Qed.

Lemma int32_mod (x : Z) : int32 x mod 2 ^ 32 = x mod 2 ^ 32.
Proof. apply (to_int_mod 32 32). lia. Qed.

Lemma int32_cong (x y : Z) :
  x mod 2 ^ 32 = y mod 2 ^ 32 -> int32 x = int32 y.
Proof. apply to_int_cong. Qed.

Lemma int32_small (x : Z) : - 2 ^ 31 <= x < 2 ^ 31 -> int32 x = x.
Proof. intros H. apply to_int_id; [lia | exact H]. Qed.

Lemma n_atoi_loop_digits (ds : list Z) (c : Z) (rest : list Z) (val : Z) :
  Forall is_digit ds -> ~ is_digit c ->
  n_atoi_loop (ds ++ c :: rest) (int32 val)
  = Some (int32 (foldl (fun val c => val * 10 + (c - 48)) val ds)).
Proof.
  intros Hds Hc. revert val.
  induction Hds as [|d ds Hd Hds IH]; intros val; simpl.
  - unfold is_digit in Hc.
    destruct (Z.eqb_spec c 0), (Z.ltb_spec c 48), (Z.gtb_spec c 57);
      cbn [orb]; try reflexivity; lia.
  - unfold is_digit in Hd.
    destruct (Z.eqb_spec d 0), (Z.ltb_spec d 48), (Z.gtb_spec d 57);
      cbn [orb]; try lia.
    rewrite <- IH. f_equal. apply int32_cong.
    rewrite (Z.add_mod (int32 (int32 val * 10))) by lia.
    rewrite int32_mod.
    rewrite (Z.mul_mod (int32 val)) by lia. rewrite int32_mod.
    rewrite <- Z.mul_mod by lia. rewrite <- Z.add_mod by lia. reflexivity.
Qed.

Lemma digits_foldl_nonneg (ds : list Z) (val : Z) :
  Forall is_digit ds -> 0 <= val ->
  0 <= foldl (fun val c => val * 10 + (c - 48)) val ds.
Proof.
  intros Hds. revert val.
  induction Hds as [|d ds Hd Hds IH]; intros val Hv; simpl; [exact Hv|].
  apply IH. unfold is_digit in Hd. lia.
Qed.

Lemma n_atoi_wraps (ds : list Z) (c : Z) (rest : list Z) :
  Forall is_digit ds -> ~ is_digit c ->
  n_atoi (45 :: ds ++ c :: rest) = Some (int32 (- int32 (digits_value ds)))
  /\ (ds <> [] \/ c <> 45 ->
      n_atoi (ds ++ c :: rest) = Some (int32 (digits_value ds))).
Proof.
  intros Hds Hc.
  assert (H0 : 0 = int32 0) by reflexivity.
  split.
  - unfold n_atoi. cbn [Z.eqb Pos.eqb]. rewrite H0 at 1.
    rewrite n_atoi_loop_digits by assumption. reflexivity.
  - intros Hne. unfold n_atoi.
    assert (Hfirst : exists x l, ds ++ c :: rest = x :: l /\ x <> 45).
    { destruct ds as [|d ds].
      - destruct Hne as [Hne|Hne]; [contradiction|]. eauto.
      - inversion Hds as [|? ? Hd _]; subst. unfold is_digit in Hd.
        exists d, (ds ++ c :: rest). split; [reflexivity | lia]. }
    destruct Hfirst as (x & l0 & Hx & Hx45). rewrite Hx.
    destruct (Z.eqb_spec x 45); [contradiction|]. rewrite <- Hx.
    rewrite H0 at 1. rewrite n_atoi_loop_digits by assumption. reflexivity.
Qed.

(** X23. [n_atoi] reads an optional ['-'] and then decimal digits up to the
    first character that is not a digit (the terminator or any other),
    ignoring what follows. With the [int] accumulator wrapping, the result
    is the number the digits write reduced to 32 bits, negated after a
    ['-']; when that number is below [2^31] the result is the number
    itself. No digits at all give 0. *)
Theorem n_atoi_digits (ds : list Z) (c : Z) (rest : list Z) :
  Forall is_digit ds -> ~ is_digit c ->
  (ds <> [] \/ c <> 45 ->
   n_atoi (ds ++ c :: rest) = Some (int32 (digits_value ds)))
  /\ n_atoi (45 :: ds ++ c :: rest) = Some (int32 (- int32 (digits_value ds)))
  /\ (digits_value ds < 2 ^ 31 ->
      n_atoi (45 :: ds ++ c :: rest) = Some (- digits_value ds)
      /\ (ds <> [] \/ c <> 45 ->
          n_atoi (ds ++ c :: rest) = Some (digits_value ds))).
Proof.
  intros Hds Hc.
  destruct (n_atoi_wraps ds c rest Hds Hc) as [Hneg Hpos].
  assert (Hnn : 0 <= digits_value ds).
  { apply digits_foldl_nonneg; [assumption | lia]. }
  split; [exact Hpos|split; [exact Hneg|]].
  intros Hsmall. split.
  - rewrite Hneg. f_equal.
    rewrite (int32_small (digits_value ds)) by lia.
    apply int32_small. lia.
  - intros Hne. rewrite (Hpos Hne). f_equal. apply int32_small. lia.
Qed.

(** ["-42"]. *)
Lemma n_atoi_digits_witness : n_atoi minus_42 = Some (-42).
Proof.
  exact (proj1 (proj2 (proj2 (n_atoi_digits [52; 50] 0 [] ltac:(chars)
                                ltac:(unfold is_digit; lia)))
                      ltac:(vm_compute; reflexivity))).
Defined.

Lemma uint8_uint8 (x : Z) : uint8 (uint8 x) = uint8 x.
Proof. unfold uint8, to_uint. apply Z.mod_mod. lia. Qed.

Lemma n_memcmp_loop_spec (n : nat) : forall s1 s2 : list Z,
  (n <= length s1)%nat -> (n <= length s2)%nat ->
  exists c,
    n_memcmp_loop s1 s2 n = Some c
    /\ n_memcmp_loop s2 s1 n = Some (- c)
    /\ (c = -1 \/ c = 0 \/ c = 1)
    /\ (c = 0 <-> uint8 <$> take n s1 = uint8 <$> take n s2).
Proof.
  induction n as [|n IH]; intros s1 s2 H1 H2.
  - exists 0. simpl. repeat split; auto.
  - destruct s1 as [|a s1]; [simpl in H1; lia|].
    destruct s2 as [|b s2]; [simpl in H2; lia|].
    cbn [n_memcmp_loop take fmap list_fmap].
    destruct (Z.ltb_spec (uint8 a) (uint8 b)), (Z.gtb_spec (uint8 a) (uint8 b)),
      (Z.ltb_spec (uint8 b) (uint8 a)), (Z.gtb_spec (uint8 b) (uint8 a));
      try lia.
    + exists (-1). repeat split; auto; try discriminate.
      intros E. inversion E. lia.
    + exists 1. repeat split; auto; try discriminate.
      intros E. inversion E. lia.
    + simpl in H1, H2.
      destruct (IH s1 s2 ltac:(lia) ltac:(lia)) as (c & IH1 & IH2 & IH3 & IH4).
      exists c. rewrite IH1, IH2. repeat split; auto.
      * intros E. f_equal; [lia|]. apply IH4. exact E.
      * intros E. inversion E. apply IH4. assumption.
Qed.

(** X24. [n_memcmp] of [n] bytes that both areas hold returns -1, 0 or 1;
    it returns 0 exactly when the first [n] bytes agree as unsigned
    characters, bytes beyond [n] are not looked at, and swapping the
    arguments negates the result. *)
Theorem n_memcmp_order (s1 s2 : list Z) (n : Z) :
  n <= Z.of_nat (length s1) -> n <= Z.of_nat (length s2) ->
  exists c,
    n_memcmp s1 s2 n = Some c
    /\ n_memcmp s2 s1 n = Some (- c)
    /\ (c = -1 \/ c = 0 \/ c = 1)
    /\ (c = 0 <->
        uint8 <$> take (Z.to_nat n) s1 = uint8 <$> take (Z.to_nat n) s2).
Proof.
  intros H1 H2. unfold n_memcmp. apply n_memcmp_loop_spec; lia.
Qed.

Lemma n_memcmp_order_witness :
  exists c,
    n_memcmp [1; 2; 3; 9] [1; 2; 4; 9] 3 = Some c
    /\ n_memcmp [1; 2; 4; 9] [1; 2; 3; 9] 3 = Some (- c)
    /\ c <> 0.
Proof.
  destruct (n_memcmp_order [1; 2; 3; 9] [1; 2; 4; 9] 3
              ltac:(cbn; lia) ltac:(cbn; lia)) as (c & H1 & H2 & _ & Hz).
  exists c. split; [exact H1|]. split; [exact H2|].
  intros E. apply Hz in E. discriminate E.
Defined.

Lemma n_memset_loop_spec (n : nat) : forall (c1 : list Z) (c : Z),
  n_memset_loop c1 c n
  = if decide (n <= length c1)%nat
    then Some (replicate n (uint8 c) ++ drop n c1) else None.
Proof.
  induction n as [|n IH]; intros c1 c.
  - rewrite decide_True by lia. reflexivity.
  - destruct c1 as [|a c1]; cbn [n_memset_loop length].
    + rewrite decide_False by lia. reflexivity.
    + rewrite IH. destruct (decide (n <= length c1)%nat).
      * rewrite decide_True by lia. reflexivity.
      * rewrite decide_False by lia. reflexivity.
Qed.

(** X26. [n_memset] of [n] bytes that the area holds sets each of the
    first [n] bytes to the value reduced to an unsigned character and
    leaves the rest of the area and its size; with [n] beyond the area it
    runs past the end ([None]). *)
Theorem n_memset_fills (s : list Z) (c n : Z) :
  (n <= Z.of_nat (length s) ->
   n_memset s c n
   = Some (replicate (Z.to_nat n) (uint8 c) ++ drop (Z.to_nat n) s))
  /\ (Z.of_nat (length s) < n -> n_memset s c n = None)
  /\ (forall d (i : nat),
        n_memset s c n = Some d ->
        length d = length s
        /\ d !! i = if decide (Z.of_nat i < n) then Some (uint8 c)
                    else s !! i).
Proof.
  unfold n_memset. rewrite n_memset_loop_spec.
  split; [|split].
  - intros Hn. destruct (decide _); [reflexivity | lia].
  - intros Hn. destruct (decide _); [lia | reflexivity].
  - intros d i. destruct (decide (Z.to_nat n <= length s)%nat) as [Hn|];
      [|discriminate].
    intros [= <-]. split.
    + rewrite length_app, length_replicate, length_drop. lia.
    + destruct (decide (Z.of_nat i < n)) as [Hi|Hi].
      * rewrite lookup_app_l by (rewrite length_replicate; lia).
        apply lookup_replicate_2. lia.
      * rewrite lookup_app_r by (rewrite length_replicate; lia).
        rewrite length_replicate, lookup_drop. f_equal. lia.
Qed.

(** *** Formatted output *)

Lemma out_PUTCHAR_stored (len : Z) (full : list Z) (st : list Z * Z) (c : Z) :
  stored len full st -> stored len (full ++ [uint8 c]) (out_PUTCHAR len st c).
Proof.
  intros [Hn Hf]. unfold stored, out_PUTCHAR. cbn [fst snd]. split.
  - rewrite length_app. cbn [length]. lia.
  - destruct (Z.ltb_spec (snd st) (len - 1)) as [Hlt|Hge].
    + rewrite Hf, !take_ge by (rewrite ?length_app; cbn [length]; lia).
      reflexivity.
    + rewrite take_app_le by lia. exact Hf.
Qed.

Lemma foldl_out_PUTCHAR_stored (len : Z) (cs full : list Z) (st : list Z * Z) :
  stored len full st ->
  stored len (full ++ (uint8 <$> cs)) (foldl (out_PUTCHAR len) st cs).
Proof.
  revert full st. induction cs as [|c cs IH]; intros full st Hst; simpl.
  - rewrite app_nil_r. exact Hst.
  - rewrite cons_middle, app_assoc. apply IH, out_PUTCHAR_stored, Hst.
Qed.

Lemma out_PUTCHAR_same (len1 len2 : Z) (st1 st2 : list Z * Z) (c : Z) :
  same_output len1 len2 st1 st2 ->
  same_output len1 len2 (out_PUTCHAR len1 st1 c) (out_PUTCHAR len2 st2 c).
Proof.
  intros (full & H1 & H2). exists (full ++ [uint8 c]).
  split; apply out_PUTCHAR_stored; assumption.
Qed.

Lemma foldl_out_PUTCHAR_same (len1 len2 : Z) (cs : list Z) (st1 st2 : list Z * Z) :
  same_output len1 len2 st1 st2 ->
  same_output len1 len2 (foldl (out_PUTCHAR len1) st1 cs)
                        (foldl (out_PUTCHAR len2) st2 cs).
Proof.
  intros (full & H1 & H2). exists (full ++ (uint8 <$> cs)).
  split; apply foldl_out_PUTCHAR_stored; assumption.
Qed.

Lemma out_decimal_same (len1 len2 : Z) (size : nat) (integer : Z)
    (st1 st2 : list Z * Z) :
  same_output len1 len2 st1 st2 ->
  same_result len1 len2 (out_decimal len1 size integer st1)
                        (out_decimal len2 size integer st2).
Proof.
  intros H. unfold out_decimal.
  destruct (decimal_digits size integer []) as [ds|]; cbn; [|exact I].
  apply foldl_out_PUTCHAR_same.
  destruct (integer <? 0); [apply out_PUTCHAR_same|]; exact H.
Qed.

Lemma out_hexa_loop_same (len1 len2 w hexa : Z) (n : nat) :
  forall (i : Z) (had_nonzero : bool) (st1 st2 : list Z * Z),
  same_output len1 len2 st1 st2 ->
  fst (out_hexa_loop len1 w hexa n i had_nonzero st1)
  = fst (out_hexa_loop len2 w hexa n i had_nonzero st2)
  /\ same_output len1 len2
       (snd (out_hexa_loop len1 w hexa n i had_nonzero st1))
       (snd (out_hexa_loop len2 w hexa n i had_nonzero st2)).
Proof.
  induction n as [|n IH]; intros i had st1 st2 H; cbn [out_hexa_loop].
  - split; [reflexivity | exact H].
  - cbv zeta. repeat case_match; apply IH;
      try apply out_PUTCHAR_same; exact H.
Qed.

Lemma out_hexa_same (len1 len2 w hexa : Z) (st1 st2 : list Z * Z) :
  same_output len1 len2 st1 st2 ->
  same_output len1 len2 (out_hexa len1 w hexa st1)
                        (out_hexa len2 w hexa st2).
Proof.
  intros H. unfold out_hexa.
  destruct (out_hexa_loop_same len1 len2 w hexa (Z.to_nat (w / 4)) 0 false
              st1 st2 H) as [Hb Hs].
  destruct (out_hexa_loop len1 w hexa _ 0 false st1) as [b1 s1].
  destruct (out_hexa_loop len2 w hexa _ 0 false st2) as [b2 s2].
  cbn [fst snd] in Hb, Hs. subst b2.
  destruct b1; cbn [negb]; [|apply out_PUTCHAR_same]; exact Hs.
Qed.

Lemma out_string_same (len1 len2 : Z) (string : list Z) :
  forall st1 st2 : list Z * Z,
  same_output len1 len2 st1 st2 ->
  same_result len1 len2 (out_string len1 string st1)
                        (out_string len2 string st2).
Proof.
  induction string as [|c string IH]; intros st1 st2 H; cbn [out_string].
  - exact I.
  - destruct (negb (c =? 0)); [apply IH, out_PUTCHAR_same, H | exact H].
Qed.

Lemma same_result_bind (len1 len2 : Z) (r1 r2 : option (list Z * Z))
    (k1 k2 : list Z * Z -> option (list Z * Z)) :
  same_result len1 len2 r1 r2 ->
  (forall st1 st2, same_output len1 len2 st1 st2 ->
                   same_result len1 len2 (k1 st1) (k2 st2)) ->
  same_result len1 len2 (r1 ≫= k1) (r2 ≫= k2).
Proof.
  intros Hr Hk. destruct r1 as [s1|], r2 as [s2|]; cbn in *;
    try contradiction; [apply Hk, Hr | exact I].
Qed.

Lemma out_loop_same (len1 len2 : Z) (fuel : nat) :
  forall (format : list Z) (ap : list out_arg) (st1 st2 : list Z * Z),
  (length format < fuel)%nat ->
  same_output len1 len2 st1 st2 ->
  same_result len1 len2 (out_loop len1 format ap st1)
                        (out_loop len2 format ap st2).
Proof.
  induction fuel as [|fuel IH]; intros format ap st1 st2 Hlen H; [lia|].
  destruct format as [|c format1]; [exact I|].
  cbn [out_loop]. cbn [length] in Hlen.
  destruct (c =? 0); [exact H|].
  destruct (c =? 37); [|apply IH; [lia | apply out_PUTCHAR_same, H]].
  destruct format1 as [|c1 format2]; [exact I|]. cbn [length] in Hlen.
  destruct (c1 =? 37); [apply IH; [lia | apply out_PUTCHAR_same, H]|].
  destruct ((c1 =? 105) || (c1 =? 100)).
  { destruct ap as [|[v|s] ap']; try exact I.
    apply same_result_bind; [apply out_decimal_same, H|].
    intros; apply IH; [lia | assumption]. }
  destruct (c1 =? 108).
  { destruct format2 as [|c2 format3]; [exact I|]. cbn [length] in Hlen.
    destruct (c2 =? 100).
    { destruct ap as [|[v|s] ap']; try exact I.
      apply same_result_bind; [apply out_decimal_same, H|].
      intros; apply IH; [lia | assumption]. }
    destruct (c2 =? 120).
    { destruct ap as [|[v|s] ap']; try exact I.
      apply IH; [lia | apply out_hexa_same, H]. }
    apply IH; [lia | repeat apply out_PUTCHAR_same; exact H]. }
  destruct (c1 =? 99).
  { destruct ap as [|[v|s] ap']; try exact I.
    apply IH; [lia | apply out_PUTCHAR_same, H]. }
  destruct (c1 =? 115).
  { destruct ap as [|[v|s] ap']; try exact I.
    apply same_result_bind; [apply out_string_same, H|].
    intros; apply IH; [lia | assumption]. }
  destruct (c1 =? 120).
  { destruct ap as [|[v|s] ap']; try exact I.
    apply IH; [lia | apply out_hexa_same, H]. }
  apply IH; [lia | repeat apply out_PUTCHAR_same; exact H].
Qed.

Lemma stored_nil (len : Z) : stored len [] ([], 0).
Proof. split; [reflexivity | symmetry; apply take_nil]. Qed.

Lemma out_vsnprintf_full (len : Z) (format : list Z) (ap : list out_arg)
    (n : Z) (out : list Z) :
  0 <= len ->
  out_vsnprintf true len (Some format) ap = Some (n, out) ->
  exists full,
    n = Z.of_nat (length full)
    /\ out = take (Z.to_nat (len - 1)) full ++ [0]
    /\ forall len', 0 <= len' ->
         out_vsnprintf true len' (Some format) ap
         = Some (n, take (Z.to_nat (len' - 1)) full ++ [0]).
Proof.
  intros Hlen Hrun. unfold out_vsnprintf in Hrun. cbn [negb orb] in Hrun.
  destruct (Z.ltb_spec len 0); [lia|].
  destruct (out_loop len format ap ([], 0)) as [st|] eqn:Hst;
    [|discriminate].
  cbn in Hrun. injection Hrun as <- <-.
  pose proof (out_loop_same len (snd st + 1) (S (length format))
                format ap ([], 0) ([], 0) ltac:(lia)
                (ex_intro _ [] (conj (stored_nil _) (stored_nil _)))) as Hbig.
  rewrite Hst in Hbig.
  destruct (out_loop (snd st + 1) format ap ([], 0)) as [sb|] eqn:Hsb;
    [|contradiction].
  destruct Hbig as (full & [Hn Hf] & [Hnb Hfb]).
  assert (Hfull : fst sb = full).
  { rewrite Hfb. apply take_ge. lia. }
  exists full. split; [exact Hn|]. split; [rewrite Hf; reflexivity|].
  intros len' Hlen'. unfold out_vsnprintf. cbn [negb orb].
  destruct (Z.ltb_spec len' 0); [lia|].
  pose proof (out_loop_same (snd st + 1) len' (S (length format))
                format ap ([], 0) ([], 0) ltac:(lia)
                (ex_intro _ [] (conj (stored_nil _) (stored_nil _)))) as Hl.
  rewrite Hsb in Hl.
  destruct (out_loop len' format ap ([], 0)) as [s'|]; [|contradiction].
  destruct Hl as (full' & [Hn1 Hf1] & [Hn2 Hf2]).
  assert (full' = full).
  { rewrite <- Hfull, Hf1. symmetry. apply take_ge. lia. }
  subst full'. cbn. rewrite Hn2, Hf2, Hn. reflexivity.
Qed.

Lemma decimal_digits_spec (size : nat) :
  forall (integer : Z) (buff_int : list Z) (k : nat),
  Z.abs integer < 10 ^ Z.of_nat k -> (0 < k <= size)%nat ->
  exists ds,
    decimal_digits size integer buff_int = Some (ds ++ buff_int)
    /\ Forall is_digit ds
    /\ foldl (fun val c => val * 10 + (c - 48)) 0 ds = Z.abs integer
    /\ ds <> []
    /\ (length ds <= k)%nat.
Proof.
  induction size as [|size IH]; intros x acc k Hx Hk; [lia|].
  cbn [decimal_digits]. cbv zeta.
  pose proof (Z.quot_abs x 10 ltac:(lia)) as Hq.
  pose proof (Z.rem_abs x 10 ltac:(lia)) as Hr.
  change (Z.abs 10) with 10 in Hq, Hr.
  rewrite Z.quot_div_nonneg in Hq by lia.
  rewrite Z.rem_mod_nonneg in Hr by lia.
  pose proof (Z.div_mod (Z.abs x) 10 ltac:(lia)) as Hdm.
  pose proof (Z.mod_pos_bound (Z.abs x) 10 ltac:(lia)) as Hm.
  set (m10 := if Z.rem x 10 <? 0 then - Z.rem x 10 else Z.rem x 10).
  assert (Hm10 : m10 = Z.abs x mod 10).
  { unfold m10. destruct (Z.ltb_spec (Z.rem x 10) 0); lia. }
  destruct (Z.eqb_spec (Z.quot x 10) 0) as [Hz|Hnz]; cbn [negb].
  - exists [48 + m10]. repeat split.
    + constructor; [unfold is_digit; lia | constructor].
    + cbn. rewrite Hz in Hq. lia.
    + discriminate.
    + cbn. lia.
  - assert (Hk2 : (2 <= k)%nat).
    { destruct k as [|[|k]]; [lia | | lia].
      change (10 ^ Z.of_nat 1) with 10 in Hx.
      rewrite Z.div_small in Hq by lia. lia. }
    assert (Hx' : Z.abs (Z.quot x 10) < 10 ^ Z.of_nat (k - 1)).
    { rewrite <- Hq. apply Z.div_lt_upper_bound; [lia|].
      rewrite <- Z.pow_succ_r by lia.
      replace (Z.succ (Z.of_nat (k - 1))) with (Z.of_nat k) by lia.
      exact Hx. }
    destruct (IH (Z.quot x 10) ((48 + m10) :: acc) (k - 1)%nat Hx'
                ltac:(lia)) as (ds & Hds & Hdig & Hval & Hne & Hlen).
    exists (ds ++ [48 + m10]). repeat split.
    + rewrite Hds, <- app_assoc. reflexivity.
    + apply Forall_app. split; [exact Hdig|].
      constructor; [unfold is_digit; lia | constructor].
    + rewrite foldl_app, Hval. cbn. lia.
    + destruct ds; discriminate.
    + rewrite length_app. cbn. lia.
Qed.

(** X28. The digit loops of [%d] and [%ld] never overrun their buffers:
    for every [int] the loop stores between 1 and 10 digits in
    [buff_int[11]], for every [long] between 1 and 19 in [buff_long[20]];
    the digits are decimal digits and write the absolute value of the
    number, [INT_MIN] and [LONG_MIN] included. *)
Theorem decimal_digits_fit (v : Z) :
  (exists ds,
     decimal_digits 11 (int32 v) [] = Some ds
     /\ (0 < length ds <= 10)%nat
     /\ Forall is_digit ds
     /\ digits_value ds = Z.abs (int32 v))
  /\ (exists ds,
        decimal_digits 20 (int64 v) [] = Some ds
        /\ (0 < length ds <= 19)%nat
        /\ Forall is_digit ds
        /\ digits_value ds = Z.abs (int64 v)).
Proof.
  split.
  - pose proof (to_int_range 32 v ltac:(lia)) as Hr.
    change (2 ^ (32 - 1)) with 2147483648 in Hr. fold int32 in Hr.
    destruct (decimal_digits_spec 11 (int32 v) [] 10)
      as (ds & Hds & Hdig & Hval & Hne & Hlen);
      [change (10 ^ Z.of_nat 10) with 10000000000; lia | lia |].
    rewrite app_nil_r in Hds. exists ds. repeat split; try assumption.
    destruct ds; [contradiction | cbn; lia].
  - pose proof (to_int_range 64 v ltac:(lia)) as Hr.
    change (2 ^ (64 - 1)) with 9223372036854775808 in Hr. fold int64 in Hr.
    destruct (decimal_digits_spec 20 (int64 v) [] 19)
      as (ds & Hds & Hdig & Hval & Hne & Hlen);
      [change (10 ^ Z.of_nat 19) with 10000000000000000000; lia | lia |].
    rewrite app_nil_r in Hds. exists ds. repeat split; try assumption.
    destruct ds; [contradiction | cbn; lia].
Qed.

Lemma uint8_digits (ds : list Z) : Forall is_digit ds -> uint8 <$> ds = ds.
Proof.
  induction 1 as [|d ds Hd Hds IH]; [reflexivity|].
  cbn [fmap list_fmap]. fold (fmap uint8 ds). rewrite IH. f_equal.
  unfold is_digit in Hd. apply to_uint_id. change (2 ^ 8) with 256. lia.
Qed.

(** *** Writing into the memory *)

Lemma written_length (mem : list Z) (buff : nat) (chars : list Z) :
  (buff + length chars <= length mem)%nat ->
  length (written mem buff chars) = length mem.
Proof.
  intros H. unfold written.
  rewrite !length_app, length_take, length_drop. lia.
Qed.

Lemma written_nil (mem : list Z) (buff : nat) : written mem buff [] = mem.
Proof.
  unfold written. cbn [app length]. rewrite Nat.add_0_r. apply take_drop.
Qed.

Lemma written_outside (mem : list Z) (buff : nat) (chars : list Z) (a : nat) :
  (buff + length chars <= length mem)%nat ->
  (a < buff \/ buff + length chars <= a)%nat ->
  written mem buff chars !! a = mem !! a.
Proof.
  intros Hlen Ha. unfold written. destruct Ha as [Ha|Ha].
  - rewrite lookup_app_l by (rewrite length_take; lia).
    apply lookup_take_lt. lia.
  - rewrite lookup_app_r by (rewrite length_take; lia).
    rewrite length_take, Nat.min_l by lia.
    rewrite lookup_app_r by lia. rewrite lookup_drop. f_equal. lia.
Qed.

Lemma written_inside (mem : list Z) (buff : nat) (chars : list Z) (k : nat) :
  (buff <= length mem)%nat ->
  (k < length chars)%nat ->
  written mem buff chars !! (buff + k)%nat = chars !! k.
Proof.
  intros Hlen Hk. unfold written.
  rewrite lookup_app_r by (rewrite length_take; lia).
  rewrite length_take, Nat.min_l by lia.
  rewrite lookup_app_l by lia. f_equal. lia.
Qed.

Lemma written_snoc (mem : list Z) (buff : nat) (chars : list Z) (c : Z) :
  (buff + length chars < length mem)%nat ->
  <[(buff + length chars)%nat := c]> (written mem buff chars)
  = written mem buff (chars ++ [c]).
Proof.
  intros Hlen. unfold written.
  rewrite insert_app_r_alt by (rewrite length_take; lia).
  rewrite length_take, Nat.min_l by lia.
  replace (buff + length chars - buff)%nat with (length chars + 0)%nat by lia.
  rewrite insert_app_r.
  destruct (drop (buff + length chars) mem) as [|x rest] eqn:Hd.
  { apply (f_equal length) in Hd. rewrite length_drop in Hd.
    cbn [length] in Hd. lia. }
  cbn [insert list_insert]. rewrite <- app_assoc. cbn [app].
  do 3 f_equal. rewrite length_app. cbn [length].
  replace (drop (buff + (length chars + 1)) mem)
    with (drop 1 (drop (buff + length chars) mem))
    by (rewrite drop_drop; f_equal; lia).
  rewrite Hd. reflexivity.
Qed.

Lemma written_drop (mem : list Z) (buff : nat) (chars : list Z) :
  (buff <= length mem)%nat ->
  drop buff (written mem buff chars)
  = chars ++ drop (buff + length chars) mem.
Proof.
  intros Hlen. unfold written.
  rewrite drop_app_length' by (rewrite length_take; lia). reflexivity.
Qed.

Lemma written_drop_outside (mem : list Z) (buff : nat) (chars : list Z)
    (p n : nat) :
  (buff + length chars <= length mem)%nat ->
  apart buff (buff + length chars) p n ->
  take n (drop p (written mem buff chars)) = take n (drop p mem).
Proof.
  intros Hlen Hp. apply list_eq. intros k.
  destruct (decide (k < n)%nat) as [Hk|Hk].
  - rewrite !lookup_take_lt, !lookup_drop by assumption.
    apply written_outside; [assumption|]. unfold apart in Hp. lia.
  - rewrite !lookup_take_ge by lia. reflexivity.
Qed.

Lemma string_at_lookup (mem : list Z) (p : nat) (s : list Z) (k : nat) :
  string_at mem p s -> (k <= length s)%nat ->
  mem !! (p + k)%nat = (s ++ [0]) !! k.
Proof.
  intros [_ Hs] Hk. rewrite <- Hs.
  rewrite lookup_take_lt by lia. rewrite lookup_drop. reflexivity.
Qed.

Lemma string_at_length (mem : list Z) (p : nat) (s : list Z) :
  string_at mem p s -> (p + length s + 1 <= length mem)%nat.
Proof.
  intros [_ Hs]. apply (f_equal length) in Hs.
  rewrite length_take, length_drop, length_app in Hs. cbn [length] in Hs.
  lia.
Qed.

Lemma string_at_drop (mem : list Z) (p : nat) (s : list Z) :
  string_at mem p s ->
  drop p mem = s ++ 0 :: drop (p + length s + 1) mem.
Proof.
  intros Hs. pose proof (string_at_length _ _ _ Hs) as Hlen.
  destruct Hs as [_ Hs].
  rewrite <- (take_drop (length s + 1) (drop p mem)), Hs, drop_drop.
  rewrite <- app_assoc. do 3 f_equal. lia.
Qed.

(** *** [n_memcpy] *)

Lemma n_memcpy_loop_copies (orig : list Z) (c1 c2 : nat) (n : nat) :
  forall i : nat,
  (c1 <= c2 \/ c2 + (i + n) <= c1)%nat ->
  (c1 + (i + n) <= length orig)%nat ->
  (c2 + (i + n) <= length orig)%nat ->
  n_memcpy_loop (written orig c1 (uint8 <$> take i (drop c2 orig))) c1 c2 i n
  = Some (written orig c1 (uint8 <$> take (i + n) (drop c2 orig))).
Proof.
  induction n as [|n IH]; intros i Hov H1 H2; cbn [n_memcpy_loop].
  - rewrite Nat.add_0_r. reflexivity.
  - assert (Hi : length (uint8 <$> take i (drop c2 orig)) = i).
    { rewrite length_fmap, length_take, length_drop. lia. }
    rewrite written_outside by (rewrite Hi; lia).
    destruct (lookup_lt_is_Some_2 orig (c2 + i)) as [b Hb]; [lia|].
    rewrite Hb. cbn [mbind option_bind].
    rewrite written_length by (rewrite Hi; lia).
    rewrite decide_True by lia.
    rewrite <- Hi at 1. rewrite written_snoc by (rewrite Hi; lia).
    assert (Hb' : drop c2 orig !! i = Some b)
      by (rewrite lookup_drop; exact Hb).
    replace ((uint8 <$> take i (drop c2 orig)) ++ [uint8 b])
      with (uint8 <$> take (i + 1) (drop c2 orig)).
    + rewrite IH by lia. do 4 f_equal. lia.
    + replace (i + 1)%nat with (S i) by lia.
      rewrite (take_S_r _ _ _ Hb'), fmap_app. reflexivity.
Qed.

Lemma n_memcpy_loop_length (n : nat) :
  forall (mem mem' : list Z) (c1 c2 i : nat),
  n_memcpy_loop mem c1 c2 i n = Some mem' -> length mem' = length mem.
Proof.
  induction n as [|n IH]; intros mem mem' c1 c2 i; cbn [n_memcpy_loop].
  - intros [= <-]. reflexivity.
  - destruct (mem !! (c2 + i)%nat) as [b|]; [|discriminate].
    cbn [mbind option_bind]. destruct (decide _); [|discriminate].
    intros H. apply IH in H. rewrite length_insert in H. exact H.
Qed.

Lemma n_memcpy_loop_overrun (n : nat) :
  forall (mem : list Z) (c1 c2 i : nat),
  (c1 + i <= length mem)%nat -> (c2 + i <= length mem)%nat ->
  (length mem < c1 + (i + n) \/ length mem < c2 + (i + n))%nat ->
  n_memcpy_loop mem c1 c2 i n = None.
Proof.
  induction n as [|n IH]; intros mem c1 c2 i H1 H2 Hover;
    cbn [n_memcpy_loop]; [lia|].
  destruct (mem !! (c2 + i)%nat) as [b|] eqn:Hb; [|reflexivity].
  cbn [mbind option_bind]. apply lookup_lt_Some in Hb.
  destruct (decide _) as [Hd|Hd]; [|reflexivity].
  apply IH; rewrite ?length_insert; lia.
Qed.

(** X25. [n_memcpy] of [n] bytes between two non-null areas, when the
    bytes stored do not reach the part of the source still to be read
    ([s1 <= s2], or the source ends before [s1]) and both areas lie in the
    memory: the [n] bytes at [s1] become those of the source and every
    other byte is left, the memory keeps its size, [s1] is returned, and,
    when the two areas are apart, [n_memcmp] of destination and source
    over [n] bytes is 0. When an area runs past the end of the memory the
    copy does too. A null destination or source copies nothing and
    returns 0. *)
Theorem n_memcpy_copies (mem : list Z) (s1 s2 : nat) (n : Z) :
  s1 <> 0%nat -> s2 <> 0%nat -> 0 <= n ->
  (s1 <= length mem)%nat -> (s2 <= length mem)%nat ->
  ((s1 + Z.to_nat n <= length mem)%nat ->
   (s2 + Z.to_nat n <= length mem)%nat ->
   (s1 <= s2 \/ s2 + Z.to_nat n <= s1)%nat ->
   exists mem',
     n_memcpy mem s1 s2 n = Some (mem', s1)
     /\ mem' = written mem s1 (uint8 <$> take (Z.to_nat n) (drop s2 mem))
     /\ length mem' = length mem
     /\ (apart s1 (s1 + Z.to_nat n) s2 (Z.to_nat n) ->
         n_memcmp (drop s1 mem') (drop s2 mem') n = Some 0))
  /\ ((length mem < s1 + Z.to_nat n \/ length mem < s2 + Z.to_nat n)%nat ->
      n_memcpy mem s1 s2 n = None)
  /\ n_memcpy mem 0 s2 n = Some (mem, 0%nat)
  /\ n_memcpy mem s1 0 n = Some (mem, 0%nat).
Proof.
  intros Hs1 Hs2 Hn Hl1 Hl2.
  assert (Hnz : negb (Nat.eqb s1 0) && negb (Nat.eqb s2 0) = true).
  { destruct (Nat.eqb_spec s1 0), (Nat.eqb_spec s2 0);
      first [reflexivity | lia]. }
  split; [|split; [|split]].
  - intros H1 H2 Hov. eexists. split; [|split; [reflexivity|]].
    + unfold n_memcpy. rewrite Hnz.
      pose proof (n_memcpy_loop_copies mem s1 s2 (Z.to_nat n) 0%nat
                    ltac:(lia) ltac:(lia) ltac:(lia)) as Hloop.
      cbn [take fmap list_fmap Nat.add] in Hloop.
      rewrite written_nil in Hloop. rewrite Hloop. reflexivity.
    + assert (Hlen : length (uint8 <$> take (Z.to_nat n) (drop s2 mem))
                     = Z.to_nat n).
      { rewrite length_fmap, length_take, length_drop. lia. }
      split; [apply written_length; rewrite Hlen; lia|].
      intros Hap. unfold n_memcmp.
      destruct (n_memcmp_loop_spec (Z.to_nat n)
                  (drop s1 (written mem s1
                              (uint8 <$> take (Z.to_nat n) (drop s2 mem))))
                  (drop s2 (written mem s1
                              (uint8 <$> take (Z.to_nat n) (drop s2 mem)))))
        as (c & Hc & _ & _ & Hz).
      { rewrite length_drop, written_length by (rewrite Hlen; lia). lia. }
      { rewrite length_drop, written_length by (rewrite Hlen; lia). lia. }
      rewrite Hc. f_equal. apply Hz.
      rewrite written_drop by lia.
      rewrite take_app_length' by (symmetry; exact Hlen).
      rewrite written_drop_outside
        by (rewrite Hlen; first [exact Hap | lia]).
      rewrite <- list_fmap_compose. apply list_fmap_ext.
      intros i x _. apply uint8_uint8.
  - intros Hover. unfold n_memcpy. rewrite Hnz.
    rewrite n_memcpy_loop_overrun by lia. reflexivity.
  - reflexivity.
  - unfold n_memcpy. rewrite andb_false_r. reflexivity.
Qed.

(** *** [n_strcpy] *)

Lemma string_at_char (mem : list Z) (p : nat) (s : list Z) (i : nat) :
  string_at mem p s -> (i < length s)%nat ->
  exists c, mem !! (p + i)%nat = Some c /\ s !! i = Some c /\ c <> 0.
Proof.
  intros Hs Hi. destruct (lookup_lt_is_Some_2 s i Hi) as [c Hc].
  exists c. split; [|split; [exact Hc|]].
  - rewrite (string_at_lookup _ _ _ _ Hs) by lia.
    rewrite lookup_app_l by lia. exact Hc.
  - destruct Hs as [Hs _]. unfold no_NUL in Hs.
    rewrite Forall_lookup in Hs. exact (Hs _ _ Hc).
Qed.

Lemma string_at_NUL (mem : list Z) (p : nat) (s : list Z) :
  string_at mem p s -> mem !! (p + length s)%nat = Some 0.
Proof.
  intros Hs. rewrite (string_at_lookup _ _ _ _ Hs) by lia.
  rewrite lookup_app_r by lia. rewrite Nat.sub_diag. reflexivity.
Qed.

Lemma n_strcpy_loop_copies (orig : list Z) (dst src : nat) (s : list Z) :
  string_at orig src s ->
  (dst <= src \/ src + length s + 1 <= dst)%nat ->
  (dst + length s + 1 <= length orig)%nat ->
  forall (k i room : nat),
  (i + k = length s)%nat -> (k < room)%nat ->
  n_strcpy_loop room (written orig dst (take i s)) dst src i
  = Some (written orig dst (s ++ [0])).
Proof.
  intros Hs Hov Hroom k.
  induction k as [|k IH]; intros i room Hik Hk;
    (destruct room as [|room]; [lia|]); cbn [n_strcpy_loop];
    assert (Hi : length (take i s) = i) by (rewrite length_take; lia);
    rewrite written_outside by (rewrite Hi; lia).
  - assert (i = length s) as -> by lia.
    rewrite (string_at_NUL _ _ _ Hs). cbn [mbind option_bind].
    rewrite written_length by (rewrite Hi; lia).
    rewrite decide_True by lia.
    cbn [Z.eqb]. rewrite take_ge by lia.
    rewrite written_snoc by lia. reflexivity.
  - destruct (string_at_char _ _ _ i Hs) as (c & Hc & Hsi & Hnz); [lia|].
    rewrite Hc. cbn [mbind option_bind].
    rewrite written_length by (rewrite Hi; lia).
    rewrite decide_True by lia.
    destruct (Z.eqb_spec c 0); [contradiction|].
    rewrite <- Hi at 1. rewrite written_snoc by (rewrite Hi; lia).
    rewrite <- (take_S_r _ _ _ Hsi).
    replace (i + 1)%nat with (S i) by lia. apply IH; lia.
Qed.

Lemma n_strcpy_loop_overrun (orig : list Z) (dst src : nat) (s : list Z) :
  string_at orig src s ->
  (dst <= src \/ src + length s + 1 <= dst)%nat ->
  (length orig < dst + length s + 1)%nat ->
  forall (k i room : nat),
  (i + k = length s)%nat -> (dst + i <= length orig)%nat ->
  n_strcpy_loop room (written orig dst (take i s)) dst src i = None.
Proof.
  intros Hs Hov Hover k.
  induction k as [|k IH]; intros i room Hik Hdi;
    (destruct room as [|room]; [reflexivity|]); cbn [n_strcpy_loop];
    assert (Hi : length (take i s) = i) by (rewrite length_take; lia);
    rewrite written_outside by (rewrite Hi; lia).
  - assert (i = length s) as -> by lia.
    rewrite (string_at_NUL _ _ _ Hs). cbn [mbind option_bind].
    rewrite written_length by (rewrite Hi; lia).
    rewrite decide_False by lia. reflexivity.
  - destruct (string_at_char _ _ _ i Hs) as (c & Hc & Hsi & Hnz); [lia|].
    rewrite Hc. cbn [mbind option_bind].
    rewrite written_length by (rewrite Hi; lia).
    destruct (decide _) as [Hd|Hd]; [|reflexivity].
    destruct (Z.eqb_spec c 0); [contradiction|].
    rewrite <- Hi at 1. rewrite written_snoc by (rewrite Hi; lia).
    rewrite <- (take_S_r _ _ _ Hsi).
    replace (i + 1)%nat with (S i) by lia. apply IH; lia.
Qed.

(** X20. [n_strcpy] of the NUL-terminated string at [src] to a non-null
    [dst], when the bytes stored do not reach the part of the source still
    to be read ([dst <= src], or the source ends before [dst]): with room
    in the memory for the string and its terminator, exactly these
    [length + 1] bytes are stored from [dst] on and every other byte is
    left, [dst] is returned, the string at [dst] has the [n_strlen] of the
    source, and, when the two areas are apart, the source is intact and
    [n_strcmp] of the copy with it is 0. No bound is checked: when the
    memory ends before, the copy runs past its end. A null [dst] or [src]
    copies nothing and returns 0. *)
Theorem n_strcpy_copies (mem : list Z) (dst src : nat) (s : list Z) :
  dst <> 0%nat -> src <> 0%nat -> (dst <= length mem)%nat ->
  string_at mem src s ->
  (dst <= src \/ src + length s + 1 <= dst)%nat ->
  ((dst + length s + 1 <= length mem)%nat ->
   exists mem',
     n_strcpy mem dst src = Some (mem', dst)
     /\ mem' = written mem dst (s ++ [0])
     /\ length mem' = length mem
     /\ string_at mem' dst s
     /\ n_strlen (drop dst mem') = Some (Z.of_nat (length s))
     /\ (apart dst (dst + length s + 1) src (length s + 1) ->
         string_at mem' src s
         /\ n_strcmp (drop dst mem') (drop src mem') = Some 0))
  /\ ((length mem < dst + length s + 1)%nat -> n_strcpy mem dst src = None)
  /\ n_strcpy mem 0 src = Some (mem, 0%nat)
  /\ n_strcpy mem dst 0 = Some (mem, 0%nat).
Proof.
  intros Hdst Hsrc Hdl Hs Hov.
  assert (Hnz : negb (Nat.eqb dst 0) && negb (Nat.eqb src 0) = true).
  { destruct (Nat.eqb_spec dst 0), (Nat.eqb_spec src 0);
      first [reflexivity | lia]. }
  pose proof (string_at_length _ _ _ Hs) as Hsl.
  split; [|split; [|split]].
  - intros Hroom.
    assert (Hlen : length (s ++ [0]) = (length s + 1)%nat)
      by (rewrite length_app; reflexivity).
    assert (Hat : string_at (written mem dst (s ++ [0])) dst s).
    { split; [exact (proj1 Hs)|].
      rewrite written_drop by lia.
      rewrite take_app_length' by (rewrite Hlen; reflexivity).
      reflexivity. }
    eexists. split; [|split; [reflexivity|split; [|split; [exact Hat|split]]]].
    + unfold n_strcpy. rewrite Hnz.
      pose proof (n_strcpy_loop_copies mem dst src s Hs Hov Hroom
                    (length s) 0%nat (length mem) ltac:(lia) ltac:(lia))
        as Hloop.
      cbn [take] in Hloop. rewrite written_nil in Hloop.
      rewrite Hloop. reflexivity.
    + apply written_length. rewrite Hlen. lia.
    + rewrite (string_at_drop _ _ _ Hat). apply n_strlen_NUL, Hs.
    + intros Hap.
      assert (Hat' : string_at (written mem dst (s ++ [0])) src s).
      { split; [exact (proj1 Hs)|].
        rewrite written_drop_outside
          by (rewrite Hlen; first [lia | rewrite Nat.add_assoc; exact Hap]).
        exact (proj2 Hs). }
      split; [exact Hat'|].
      rewrite (string_at_drop _ _ _ Hat), (string_at_drop _ _ _ Hat').
      apply n_strcmp_same, Hs.
  - intros Hover. unfold n_strcpy. rewrite Hnz.
    pose proof (n_strcpy_loop_overrun mem dst src s Hs Hov Hover
                  (length s) 0%nat (length mem) ltac:(lia) ltac:(lia))
      as Hloop.
    cbn [take] in Hloop. rewrite written_nil in Hloop.
    rewrite Hloop. reflexivity.
  - reflexivity.
  - unfold n_strcpy. rewrite andb_false_r. reflexivity.
Qed.

(** *** [n_strcat] *)

Lemma n_strcat_loop_copies (orig : list Z) (dst src i : nat) (b : list Z) :
  string_at orig src b ->
  (dst + i <= src \/ src + length b + 1 <= dst + i)%nat ->
  forall m : nat, (m <= length b + 1)%nat ->
  (dst + i + m <= length orig)%nat ->
  foldl (fun acc k =>
           mem ← acc;
           c ← mem !! (src + (k - i))%nat;
           if decide (dst + k < length mem)%nat
           then Some (<[(dst + k)%nat := c]> mem) else None)
        (Some orig) (seq i m)
  = Some (written orig (dst + i) (take m (b ++ [0]))).
Proof.
  intros Hb Hov m.
  induction m as [|m IH]; intros Hm Hroom.
  - cbn [seq foldl take]. rewrite written_nil. reflexivity.
  - rewrite seq_S, foldl_app, IH by lia. cbn [foldl mbind option_bind].
    assert (Hi : length (take m (b ++ [0])) = m).
    { rewrite length_take, length_app. cbn [length]. lia. }
    rewrite written_outside by (rewrite Hi; lia).
    replace (i + m - i)%nat with m by lia.
    rewrite (string_at_lookup _ _ _ _ Hb) by lia.
    destruct (lookup_lt_is_Some_2 (b ++ [0]) m) as [c Hc].
    { rewrite length_app. cbn [length]. lia. }
    rewrite Hc. cbn [mbind option_bind].
    rewrite written_length by (rewrite Hi; lia).
    rewrite decide_True by lia.
    replace (dst + (i + m))%nat with (dst + i + length (take m (b ++ [0%Z])))%nat
      by (rewrite Hi; lia).
    rewrite written_snoc by (rewrite Hi; lia).
    rewrite <- (take_S_r _ _ _ Hc). reflexivity.
Qed.

Lemma n_strcat_loop_None (dst src i : nat) (ks : list nat) :
  foldl (fun (acc : option (list Z)) k =>
           mem ← acc;
           c ← mem !! (src + (k - i))%nat;
           if decide (dst + k < length mem)%nat
           then Some (<[(dst + k)%nat := c]> mem) else None)
        None ks
  = None.
Proof.
  induction ks as [|k ks IH]; [reflexivity|]. exact IH.
Qed.

(** X21. [n_strcat] of the string at [src] to the string at [dst], when
    the bytes stored do not reach the part of the source still to be read:
    with room in the memory for the source and its terminator after the
    destination string, they are stored from the terminator of the
    destination on and every other byte is left, [dst] is returned, and
    the string at [dst] is the concatenation, with a single terminator and
    [n_strlen] the sum of the two lengths. When the memory ends before,
    the copy runs past its end. *)
Theorem n_strcat_appends (mem : list Z) (dst src : nat) (a b : list Z) :
  string_at mem dst a -> string_at mem src b ->
  (dst + length a <= src \/ src + length b + 1 <= dst + length a)%nat ->
  ((dst + length a + length b + 1 <= length mem)%nat ->
   exists mem',
     n_strcat mem dst src = Some (mem', dst)
     /\ mem' = written mem (dst + length a) (b ++ [0])
     /\ length mem' = length mem
     /\ string_at mem' dst (a ++ b)
     /\ n_strlen (drop dst mem') = Some (Z.of_nat (length a + length b)))
  /\ ((length mem < dst + length a + length b + 1)%nat ->
      n_strcat mem dst src = None).
Proof.
  intros Ha Hb Hov.
  pose proof (string_at_length _ _ _ Ha) as Hal.
  pose proof (string_at_length _ _ _ Hb) as Hbl.
  assert (Hi : n_strlen (drop dst mem) = Some (Z.of_nat (length a))).
  { rewrite (string_at_drop _ _ _ Ha). apply n_strlen_NUL, Ha. }
  assert (Hj : n_strlen (drop src mem) = Some (Z.of_nat (length b))).
  { rewrite (string_at_drop _ _ _ Hb). apply n_strlen_NUL, Hb. }
  assert (Hlen : length (b ++ [0]) = (length b + 1)%nat)
    by (rewrite length_app; reflexivity).
  split.
  - intros Hroom.
    assert (Hat : string_at (written mem (dst + length a) (b ++ [0])) dst
                            (a ++ b)).
    { split; [apply Forall_app; split; [apply Ha | apply Hb]|].
      rewrite length_app. apply list_eq. intros k.
      destruct (decide (k < length a + length b + 1)%nat) as [Hk|Hk].
      - rewrite lookup_take_lt, lookup_drop by assumption.
        destruct (decide (k < length a)%nat) as [Hka|Hka].
        + rewrite written_outside by (rewrite Hlen; lia).
          rewrite (string_at_lookup _ _ _ _ Ha) by lia.
          rewrite <- !app_assoc. rewrite !lookup_app_l by lia. reflexivity.
        + replace (dst + k)%nat with (dst + length a + (k - length a))%nat
            by lia.
          rewrite written_inside by (rewrite ?Hlen; lia).
          rewrite <- app_assoc. rewrite (lookup_app_r a) by lia.
          reflexivity.
      - rewrite lookup_take_ge by lia. symmetry. apply lookup_ge_None.
        rewrite !length_app. cbn [length]. lia. }
    eexists. split; [|split; [reflexivity|split; [|split; [exact Hat|]]]].
    + unfold n_strcat. rewrite Hi, Hj. cbn [mbind option_bind].
      rewrite !Nat2Z.id.
      rewrite (n_strcat_loop_copies mem dst src (length a) b Hb Hov)
        by lia.
      cbn [mbind option_bind]. rewrite take_ge by (rewrite Hlen; lia).
      reflexivity.
    + apply written_length. rewrite Hlen. lia.
    + rewrite (string_at_drop _ _ _ Hat), <- length_app.
      apply n_strlen_NUL, Hat.
  - intros Hover. unfold n_strcat. rewrite Hi, Hj. cbn [mbind option_bind].
    rewrite !Nat2Z.id.
    set (m0 := (length mem - (dst + length a))%nat).
    replace (length b + 1)%nat with (m0 + S (length b - m0))%nat by lia.
    rewrite seq_app, foldl_app.
    rewrite (n_strcat_loop_copies mem dst src (length a) b Hb Hov)
      by lia.
    cbn [seq foldl mbind option_bind].
    assert (Hm0 : length (take m0 (b ++ [0])) = m0).
    { rewrite length_take, Hlen. lia. }
    rewrite written_outside by (rewrite Hm0; lia).
    replace (length a + m0 - length a)%nat with m0 by lia.
    rewrite (string_at_lookup _ _ _ _ Hb) by lia.
    destruct (lookup_lt_is_Some_2 (b ++ [0]) m0) as [c Hc];
      [rewrite Hlen; lia|].
    rewrite Hc. cbn [mbind option_bind].
    rewrite written_length by (rewrite Hm0; lia).
    rewrite decide_False by lia.
    rewrite n_strcat_loop_None. reflexivity.
Qed.

(** *** [n_vsnprintf] in the memory *)

Lemma string_at_head (mem : list Z) (p : nat) (s : list Z) :
  string_at mem p s -> mem !! p = (s ++ [0]) !! 0%nat.
Proof.
  intros Hs. rewrite <- (string_at_lookup _ _ _ 0%nat Hs) by lia.
  rewrite Nat.add_0_r. reflexivity.
Qed.

Lemma string_at_suffix (mem : list Z) (p : nat) (pre s : list Z) :
  string_at mem p (pre ++ s) -> string_at mem (p + length pre) s.
Proof.
  intros Hs. split.
  - destruct Hs as [Hs _]. unfold no_NUL in *.
    apply Forall_app in Hs. apply Hs.
  - apply list_eq. intros k.
    destruct (decide (k < length s + 1)%nat) as [Hk|Hk].
    + rewrite lookup_take_lt, lookup_drop by assumption.
      replace (p + length pre + k)%nat with (p + (length pre + k))%nat by lia.
      rewrite (string_at_lookup _ _ _ _ Hs) by (rewrite length_app; lia).
      rewrite <- app_assoc, lookup_app_r by lia. f_equal. lia.
    + rewrite lookup_take_ge by lia. symmetry. apply lookup_ge_None.
      rewrite length_app. cbn [length]. lia.
Qed.

Lemma string_at_written (mem : list Z) (buff cap : nat) (content : list Z)
    (p : nat) (s : list Z) :
  (buff + cap <= length mem)%nat -> (length content <= cap)%nat ->
  apart buff (buff + cap) p (length s + 1) ->
  string_at mem p s -> string_at (written mem buff content) p s.
Proof.
  intros Hbuff Hc Hp [Hs Hat]. split; [exact Hs|].
  rewrite written_drop_outside; [exact Hat | lia |].
  unfold apart in *. lia.
Qed.

Section FormatterInMemory.

Variables (mem : list Z) (buff cap : nat) (len : Z).
Hypothesis Hcap : (1 <= cap)%nat.
Hypothesis Hbuff : (buff + cap <= length mem)%nat.
Hypothesis Hlen : len <= Z.of_nat cap.

Lemma same_output_length (st : list Z * Z) :
  same_output len len st st -> (length st.1 <= cap - 1)%nat.
Proof.
  intros (full & [Hn Hf] & _). rewrite Hf, length_take. lia.
Qed.

Lemma in_memory_read (st : list Z * Z) (a : nat) :
  same_output len len st st -> (a < buff \/ buff + cap <= a)%nat ->
  (in_memory mem buff st).1.1 !! a = mem !! a.
Proof.
  intros Hst Ha. pose proof (same_output_length st Hst) as Hl.
  unfold in_memory. cbn [fst]. apply written_outside; lia.
Qed.

Lemma in_memory_length (st : list Z * Z) :
  same_output len len st st ->
  length (in_memory mem buff st).1.1 = length mem.
Proof.
  intros Hst. pose proof (same_output_length st Hst) as Hl.
  unfold in_memory. cbn [fst]. apply written_length. lia.
Qed.

Lemma PUTCHAR_in_memory (st : list Z * Z) (c : Z) :
  same_output len len st st ->
  PUTCHAR len (in_memory mem buff st) c
  = Some (in_memory mem buff (out_PUTCHAR len st c)).
Proof.
  intros Hst. pose proof (same_output_length st Hst) as Hl.
  unfold PUTCHAR, out_PUTCHAR, in_memory. cbn [fst snd].
  destruct (Z.ltb_spec st.2 (len - 1)); [|reflexivity].
  rewrite written_length by lia. rewrite decide_True by lia.
  rewrite written_snoc by lia. repeat f_equal.
  rewrite length_app. cbn [length]. lia.
Qed.

Lemma PUTCHARs_in_memory (cs : list Z) : forall st : list Z * Z,
  same_output len len st st ->
  PUTCHARs len (in_memory mem buff st) cs
  = Some (in_memory mem buff (foldl (out_PUTCHAR len) st cs)).
Proof.
  unfold PUTCHARs.
  induction cs as [|c cs IH]; intros st Hst; cbn [foldl]; [reflexivity|].
  cbn [mbind option_bind]. rewrite PUTCHAR_in_memory by exact Hst.
  apply IH, out_PUTCHAR_same, Hst.
Qed.

Lemma print_decimal_in_memory (size : nat) (v : Z) (st : list Z * Z) :
  same_output len len st st ->
  print_decimal len size v (in_memory mem buff st)
  = in_memory mem buff <$> out_decimal len size v st.
Proof.
  intros Hst. unfold print_decimal, out_decimal. cbv zeta.
  assert (Hsign :
    (if v <? 0 then PUTCHAR len (in_memory mem buff st) 45
     else Some (in_memory mem buff st))
    = Some (in_memory mem buff
              (if v <? 0 then out_PUTCHAR len st 45 else st))).
  { destruct (v <? 0); [apply PUTCHAR_in_memory, Hst | reflexivity]. }
  rewrite Hsign. cbn [mbind option_bind].
  destruct (decimal_digits size v []) as [ds|];
    cbn [mbind option_bind fmap option_fmap option_map]; [|reflexivity].
  apply PUTCHARs_in_memory.
  destruct (v <? 0); [apply out_PUTCHAR_same|]; exact Hst.
Qed.

Lemma print_hexa_loop_in_memory (w hexa : Z) (n : nat) :
  forall (i : Z) (b : bool) (st : list Z * Z),
  same_output len len st st ->
  print_hexa_loop len w hexa n i b (in_memory mem buff st)
  = Some ((out_hexa_loop len w hexa n i b st).1,
          in_memory mem buff (out_hexa_loop len w hexa n i b st).2).
Proof.
  induction n as [|n IH]; intros i b st Hst;
    cbn [print_hexa_loop out_hexa_loop]; [reflexivity|].
  cbv zeta.
  repeat case_match; rewrite ?PUTCHAR_in_memory by exact Hst;
    cbn [mbind option_bind]; apply IH;
    try apply out_PUTCHAR_same; exact Hst.
Qed.

Lemma print_hexa_in_memory (w hexa : Z) (st : list Z * Z) :
  same_output len len st st ->
  print_hexa len w hexa (in_memory mem buff st)
  = Some (in_memory mem buff (out_hexa len w hexa st)).
Proof.
  intros Hst. unfold print_hexa, out_hexa.
  rewrite print_hexa_loop_in_memory by exact Hst.
  cbn [mbind option_bind fst snd].
  destruct (out_hexa_loop_same len len w hexa (Z.to_nat (w / 4)) 0 false
              st st Hst) as [_ Hs].
  destruct (out_hexa_loop len w hexa _ 0 false st) as [b s].
  cbn [fst snd] in *.
  destruct b; cbn [negb]; [reflexivity | apply PUTCHAR_in_memory, Hs].
Qed.

Lemma print_string_in_memory (s : list Z) :
  forall (p room : nat) (st : list Z * Z),
  string_at mem p s -> apart buff (buff + cap) p (length s + 1) ->
  same_output len len st st -> (length s < room)%nat ->
  print_string room len p (in_memory mem buff st)
  = in_memory mem buff <$> out_string len (s ++ [0]) st.
Proof.
  induction s as [|c s IH]; intros p room st Hs Hp Hst Hroom;
    (destruct room as [|room]; [cbn [length] in Hroom; lia|]);
    cbn [print_string app out_string];
    rewrite in_memory_read
      by (first [exact Hst | unfold apart in Hp; lia]);
    rewrite (string_at_head _ _ _ Hs); cbn [app lookup list_lookup];
    cbn [mbind option_bind].
  - reflexivity.
  - assert (Hc : c <> 0).
    { destruct Hs as [Hs _]. inversion Hs; assumption. }
    destruct (Z.eqb_spec c 0); [contradiction|]. cbn [negb].
    rewrite PUTCHAR_in_memory by exact Hst. cbn [mbind option_bind].
    apply IH.
    + replace (S p) with (p + length [c])%nat by (cbn [length]; lia).
      apply string_at_suffix. exact Hs.
    + unfold apart in *. cbn [length] in Hp. lia.
    + apply out_PUTCHAR_same, Hst.
    + cbn [length] in Hroom. lia.
Qed.

Lemma complete_format_percent (c1 : Z) (f2 : list Z) :
  complete_format (37 :: c1 :: f2) = true ->
  (c1 <> 108 -> complete_format f2 = true)
  /\ (c1 = 108 ->
      exists c2 f3, f2 = c2 :: f3 /\ complete_format f3 = true).
Proof.
  cbn [complete_format Z.eqb Pos.eqb]. intros H.
  destruct (Z.eqb_spec c1 108) as [E|N]; split; intros H'; try contradiction.
  - destruct f2 as [|c2 f3]; [discriminate|]. exists c2, f3. split;
      [reflexivity | exact H].
  - exact H.
Qed.

Lemma n_vsnprintf_loop_in_memory (n : nat) :
  forall (f : list Z) (pos room : nat) (ap : list va_arg)
         (apl : list out_arg) (st : list Z * Z),
  (length f < n)%nat ->
  string_at mem pos f ->
  apart buff (buff + cap) pos (length f + 1) ->
  complete_format f = true ->
  Forall2 (arg_at mem buff (buff + cap)) ap apl ->
  same_output len len st st ->
  (length f < room)%nat ->
  n_vsnprintf_loop room len pos ap (in_memory mem buff st)
  = in_memory mem buff <$> out_loop len (f ++ [0]) apl st.
Proof.
  induction n as [|n IH]; intros f pos room ap apl st Hn Hf Hp Hcf Hargs Hst
    Hroom; [lia|].
  destruct room as [|room1]; [lia|].
  cbn [n_vsnprintf_loop].
  rewrite (in_memory_read st pos)
    by (first [exact Hst | unfold apart in Hp; lia]).
  rewrite (string_at_head _ _ _ Hf).
  destruct f as [|c f1]; [reflexivity|].
  cbn [app lookup list_lookup mbind option_bind out_loop].
  cbn [length] in Hn, Hroom, Hp.
  assert (Hc : c <> 0).
  { destruct Hf as [Hf _]. inversion Hf; assumption. }
  destruct (Z.eqb_spec c 0); [contradiction|].
  destruct (Z.eqb_spec c 37) as [->|Hc37].
  2: { rewrite PUTCHAR_in_memory by exact Hst. cbn [mbind option_bind].
       apply IH;
         [lia | exact (string_at_suffix mem pos [c] f1 Hf)
         | unfold apart in *; lia | | exact Hargs
         | apply out_PUTCHAR_same, Hst | lia].
       cbn [complete_format] in Hcf.
       destruct (Z.eqb_spec c 37); [contradiction | exact Hcf]. }
  destruct f1 as [|c1 f2]; [discriminate|].
  destruct (complete_format_percent c1 f2 Hcf) as [Hcf2 Hcf3].
  cbn [length] in Hn, Hroom, Hp.
  destruct room1 as [|room2]; [lia|].
  rewrite (in_memory_read st (pos + 1))
    by (first [exact Hst | unfold apart in Hp; lia]).
  rewrite (string_at_lookup _ _ _ 1%nat Hf) by (cbn [length]; lia).
  cbn [app lookup list_lookup mbind option_bind].
  assert (Hnext : forall ap' apl' st',
            Forall2 (arg_at mem buff (buff + cap)) ap' apl' ->
            same_output len len st' st' -> c1 <> 108 ->
            n_vsnprintf_loop room2 len (pos + 2) ap'
              (in_memory mem buff st')
            = in_memory mem buff <$> out_loop len (f2 ++ [0]) apl' st').
  { intros ap' apl' st' Hargs' Hst' H108.
    apply IH;
      [lia | exact (string_at_suffix mem pos [37; c1] f2 Hf)
      | unfold apart in *; lia | exact (Hcf2 H108) | exact Hargs'
      | exact Hst' | lia]. }
  destruct (Z.eqb_spec c1 37) as [E37|N37].
  { rewrite PUTCHAR_in_memory by exact Hst. cbn [mbind option_bind].
    apply Hnext; [exact Hargs | apply out_PUTCHAR_same, Hst | lia]. }
  destruct ((c1 =? 105) || (c1 =? 100)) eqn:Ed.
  { assert (H108 : c1 <> 108).
    { apply orb_true_iff in Ed as [E|E]; apply Z.eqb_eq in E; lia. }
    destruct Hargs as [|a o ap' apl' Ha Hargs']; [reflexivity|].
    destruct a as [v|p], o as [v'|[l|]]; cbn [arg_at] in Ha;
      try contradiction; try reflexivity. subst v'.
    rewrite print_decimal_in_memory by exact Hst.
    pose proof (out_decimal_same len len 11 (int32 v) st st Hst) as Hd.
    destruct (out_decimal len 11 (int32 v) st) as [st'|];
      cbn [fmap option_fmap option_map mbind option_bind];
      [|reflexivity].
    apply Hnext; [exact Hargs' | exact Hd | exact H108]. }
  destruct (Z.eqb_spec c1 108) as [E108|N108].
  { destruct (Hcf3 E108) as (c2 & f3 & -> & Hcf4).
    cbn [length] in Hn, Hroom, Hp.
    destruct room2 as [|room3]; [lia|].
    rewrite (in_memory_read st (pos + 2))
      by (first [exact Hst | unfold apart in Hp; lia]).
    rewrite (string_at_lookup _ _ _ 2%nat Hf) by (cbn [length]; lia).
    cbn [app lookup list_lookup mbind option_bind].
    assert (Hnext3 : forall ap' apl' st',
              Forall2 (arg_at mem buff (buff + cap)) ap' apl' ->
              same_output len len st' st' ->
              n_vsnprintf_loop room3 len (pos + 3) ap'
                (in_memory mem buff st')
              = in_memory mem buff <$> out_loop len (f3 ++ [0]) apl' st').
    { intros ap' apl' st' Hargs' Hst'.
      apply IH;
        [lia | exact (string_at_suffix mem pos [37; c1; c2] f3 Hf)
        | unfold apart in *; lia | exact Hcf4 | exact Hargs'
        | exact Hst' | lia]. }
    destruct (Z.eqb_spec c2 100) as [E100|N100].
    { destruct Hargs as [|a o ap' apl' Ha Hargs']; [reflexivity|].
      destruct a as [v|p], o as [v'|[l|]]; cbn [arg_at] in Ha;
        try contradiction; try reflexivity. subst v'.
      rewrite print_decimal_in_memory by exact Hst.
      pose proof (out_decimal_same len len 20 (int64 v) st st Hst) as Hd.
      destruct (out_decimal len 20 (int64 v) st) as [st'|];
        cbn [fmap option_fmap option_map mbind option_bind];
        [|reflexivity].
      apply Hnext3; [exact Hargs' | exact Hd]. }
    destruct (Z.eqb_spec c2 120) as [E120|N120].
    { destruct Hargs as [|a o ap' apl' Ha Hargs']; [reflexivity|].
      destruct a as [v|p], o as [v'|[l|]]; cbn [arg_at] in Ha;
        try contradiction; try reflexivity. subst v'.
      rewrite print_hexa_in_memory by exact Hst.
      cbn [mbind option_bind].
      apply Hnext3; [exact Hargs' | apply out_hexa_same, Hst]. }
    assert (Hst1 := out_PUTCHAR_same len len st st 37 Hst).
    assert (Hst2 := out_PUTCHAR_same len len _ _ 108 Hst1).
    rewrite PUTCHAR_in_memory by exact Hst. cbn [mbind option_bind].
    rewrite PUTCHAR_in_memory by exact Hst1. cbn [mbind option_bind].
    rewrite (in_memory_read _ (pos + 2))
      by (first [exact Hst2 | unfold apart in Hp; lia]).
    rewrite (string_at_lookup _ _ _ 2%nat Hf) by (cbn [length]; lia).
    cbn [app lookup list_lookup mbind option_bind].
    rewrite PUTCHAR_in_memory by exact Hst2. cbn [mbind option_bind].
    apply Hnext3; [exact Hargs | apply out_PUTCHAR_same, Hst2]. }
  destruct (Z.eqb_spec c1 99) as [E99|N99].
  { destruct Hargs as [|a o ap' apl' Ha Hargs']; [reflexivity|].
    destruct a as [v|p], o as [v'|[l|]]; cbn [arg_at] in Ha;
      try contradiction; try reflexivity. subst v'.
    rewrite PUTCHAR_in_memory by exact Hst. cbn [mbind option_bind].
    apply Hnext; [exact Hargs' | apply out_PUTCHAR_same, Hst | exact N108]. }
  destruct (Z.eqb_spec c1 115) as [E115|N115].
  { destruct Hargs as [|a o ap' apl' Ha Hargs']; [reflexivity|].
    destruct a as [v|p], o as [v'|[l|]]; cbn [arg_at] in Ha;
      try contradiction; try reflexivity.
    - destruct Ha as (Hp0 & s & -> & Hs & Hsp).
      destruct (Nat.eqb_spec p 0); [contradiction|].
      rewrite in_memory_length by exact Hst.
      pose proof (string_at_length _ _ _ Hs) as Hsl.
      rewrite (print_string_in_memory s) by (first [assumption | lia]).
      pose proof (out_string_same len len (s ++ [0]) st st Hst) as Hd.
      destruct (out_string len (s ++ [0]) st) as [st'|];
        cbn [fmap option_fmap option_map mbind option_bind];
        [|reflexivity].
      apply Hnext; [exact Hargs' | exact Hd | exact N108].
    - subst p. cbn [Nat.eqb].
      rewrite PUTCHARs_in_memory by exact Hst.
      change (out_string len out_null_string st)
        with (Some (foldl (out_PUTCHAR len) st null_string)).
      cbn [mbind option_bind].
      apply Hnext; [exact Hargs' | apply foldl_out_PUTCHAR_same, Hst
                   | exact N108]. }
  destruct (Z.eqb_spec c1 120) as [E120|N120].
  { destruct Hargs as [|a o ap' apl' Ha Hargs']; [reflexivity|].
    destruct a as [v|p], o as [v'|[l|]]; cbn [arg_at] in Ha;
      try contradiction; try reflexivity. subst v'.
    rewrite print_hexa_in_memory by exact Hst.
    cbn [mbind option_bind].
    apply Hnext; [exact Hargs' | apply out_hexa_same, Hst | exact N108]. }
  assert (Hst1 := out_PUTCHAR_same len len st st 37 Hst).
  rewrite PUTCHAR_in_memory by exact Hst. cbn [mbind option_bind].
  rewrite (in_memory_read _ (pos + 1))
    by (first [exact Hst1 | unfold apart in Hp; lia]).
  rewrite (string_at_lookup _ _ _ 1%nat Hf) by (cbn [length]; lia).
  cbn [app lookup list_lookup mbind option_bind].
  rewrite PUTCHAR_in_memory by exact Hst1. cbn [mbind option_bind].
  apply Hnext; [exact Hargs | apply out_PUTCHAR_same, Hst1 | exact N108].
Qed.

End FormatterInMemory.

Lemma arg_apart_arg_at (mem : list Z) (lo hi : nat) (ap : list va_arg) :
  Forall (arg_apart mem lo hi) ap ->
  exists apl, Forall2 (arg_at mem lo hi) ap apl.
Proof.
  induction 1 as [|a ap Ha _ [apl IH]]; [exists []; constructor|].
  destruct a as [v|p].
  - exists (OutInt v :: apl). constructor; [reflexivity | exact IH].
  - destruct (decide (p = 0%nat)) as [->|Hp].
    + exists (OutStr None :: apl). constructor; [reflexivity | exact IH].
    + destruct Ha as [Ha|(s & Hs & Hap)]; [contradiction|].
      exists (OutStr (Some (s ++ [0])) :: apl).
      constructor; [|exact IH]. split; [exact Hp|].
      exists s. split; [reflexivity|]. split; assumption.
Qed.

Lemma arg_at_written (mem : list Z) (buff cap : nat) (content : list Z)
    (ap : list va_arg) (apl : list out_arg) :
  (buff + cap <= length mem)%nat -> (length content <= cap)%nat ->
  Forall2 (arg_at mem buff (buff + cap)) ap apl ->
  Forall2 (arg_at (written mem buff content) buff (buff + cap)) ap apl.
Proof.
  intros Hbuff Hc Hargs. eapply Forall2_impl; [exact Hargs|].
  intros [v|p] [v'|[l|]]; cbn [arg_at]; try tauto.
  intros (Hp & s & Hl & Hs & Hap). split; [exact Hp|].
  exists s. split; [exact Hl|]. split; [|exact Hap].
  apply (string_at_written mem buff cap); assumption.
Qed.

Lemma n_vsnprintf_in_memory (mem : list Z) (buff cap : nat) (len : Z)
    (format : nat) (fmt : list Z) (ap : list va_arg) (apl : list out_arg) :
  buff <> 0%nat -> format <> 0%nat ->
  (1 <= cap)%nat -> (buff + cap <= length mem)%nat ->
  0 <= len <= Z.of_nat cap ->
  string_at mem format fmt ->
  apart buff (buff + cap) format (length fmt + 1) ->
  complete_format fmt = true ->
  Forall2 (arg_at mem buff (buff + cap)) ap apl ->
  n_vsnprintf mem buff len format ap
  = (fun r => (r.1, written mem buff r.2))
      <$> out_vsnprintf true len (Some (fmt ++ [0])) apl.
Proof.
  intros Hb Hf Hcap Hbuff Hlen Hfmt Hap Hcf Hargs.
  unfold n_vsnprintf, out_vsnprintf.
  destruct (Nat.eqb_spec buff 0); [contradiction|].
  destruct (Nat.eqb_spec format 0); [contradiction|].
  destruct (Z.ltb_spec len 0); [lia|]. cbn [orb negb].
  pose proof (string_at_length _ _ _ Hfmt) as Hfl.
  assert (H0 : same_output len len ([], 0) ([], 0)).
  { exists []. split; apply stored_nil. }
  assert (Hstart : (mem, buff, 0) = in_memory mem buff ([], 0)).
  { unfold in_memory. cbn [fst snd length].
    rewrite written_nil, Nat.add_0_r. reflexivity. }
  rewrite Hstart.
  rewrite (n_vsnprintf_loop_in_memory mem buff cap len Hcap Hbuff
             ltac:(lia) (S (length fmt)) fmt format _ ap apl ([], 0))
    by (first [assumption | lia]).
  pose proof (out_loop_same len len (S (length (fmt ++ [0]))) (fmt ++ [0])
                apl ([], 0) ([], 0) ltac:(lia) H0) as Hsame.
  destruct (out_loop len (fmt ++ [0]) apl ([], 0)) as [st|];
    cbn [fmap option_fmap option_map mbind option_bind]; [|reflexivity].
  cbn [same_result] in Hsame.
  pose proof (same_output_length mem buff cap len Hcap Hbuff ltac:(lia)
                st Hsame) as Hl.
  rewrite (in_memory_length mem buff cap len Hcap Hbuff ltac:(lia))
    by assumption.
  unfold in_memory. cbn [fst snd].
  rewrite decide_True by lia. rewrite written_snoc by lia. reflexivity.
Qed.

Lemma out_vsnprintf_None (len len' : Z) (format : list Z)
    (ap : list out_arg) :
  0 <= len -> 0 <= len' ->
  out_vsnprintf true len (Some format) ap = None ->
  out_vsnprintf true len' (Some format) ap = None.
Proof.
  intros Hlen Hlen'. unfold out_vsnprintf. cbn [negb orb].
  destruct (Z.ltb_spec len 0); [lia|]. destruct (Z.ltb_spec len' 0); [lia|].
  pose proof (out_loop_same len len' (S (length format)) format ap
                ([], 0) ([], 0) ltac:(lia)
                (ex_intro _ [] (conj (stored_nil _) (stored_nil _)))) as Hs.
  destruct (out_loop len format ap ([], 0)) as [st|]; [discriminate|].
  destruct (out_loop len' format ap ([], 0)) as [st'|]; [contradiction|].
  reflexivity.
Qed.

(** X27. [n_vsnprintf] into a buffer of [cap] bytes that holds neither the
    format nor a string argument, the format not ending inside a
    conversion: the format and the arguments alone decide whether the call
    is defined, and when it is there is one string [full], the complete
    output, such that for every [len] from 0 to [cap] the value returned
    is the length of [full] and the bytes stored, from the start of the
    buffer on, are the first [len - 1] characters of [full] followed by a
    NUL, [min(n, max(len - 1, 0)) + 1] bytes, every other byte of the
    memory being left. With [len = 0] one byte, the NUL, is still stored.
    A negative [len], a null buffer or a null format return -1 and store
    nothing. *)
Theorem n_vsnprintf_truncates (mem : list Z) (buff cap : nat) (format : nat)
    (fmt : list Z) (ap : list va_arg) :
  buff <> 0%nat -> format <> 0%nat ->
  (1 <= cap)%nat -> (buff + cap <= length mem)%nat ->
  string_at mem format fmt ->
  apart buff (buff + cap) format (length fmt + 1) ->
  complete_format fmt = true ->
  Forall (arg_apart mem buff (buff + cap)) ap ->
  ((forall len, 0 <= len <= Z.of_nat cap ->
      n_vsnprintf mem buff len format ap = None)
   \/ exists full,
        forall len, 0 <= len <= Z.of_nat cap ->
          let out := take (Z.to_nat (len - 1)) full ++ [0] in
          n_vsnprintf mem buff len format ap
          = Some (Z.of_nat (length full), written mem buff out)
          /\ Z.of_nat (length out)
             = Z.min (Z.of_nat (length full)) (Z.max (len - 1) 0) + 1)
  /\ (forall len, len < 0 ->
        n_vsnprintf mem buff len format ap = Some (-1, mem))
  /\ (forall len, n_vsnprintf mem 0 len format ap = Some (-1, mem))
  /\ (forall len, n_vsnprintf mem buff len 0 ap = Some (-1, mem)).
Proof.
  intros Hb Hf Hcap Hbuff Hfmt Hap Hcf Hargs.
  destruct (arg_apart_arg_at _ _ _ _ Hargs) as [apl Hapl].
  assert (Hrun : forall len, 0 <= len <= Z.of_nat cap ->
            n_vsnprintf mem buff len format ap
            = (fun r => (r.1, written mem buff r.2))
                <$> out_vsnprintf true len (Some (fmt ++ [0])) apl).
  { intros len Hlen.
    apply (n_vsnprintf_in_memory mem buff cap); assumption. }
  split; [|split; [|split]].
  - destruct (out_vsnprintf true 0 (Some (fmt ++ [0])) apl) as [[n out]|]
      eqn:Hout.
    + right.
      destruct (out_vsnprintf_full 0 _ _ n out ltac:(lia) Hout)
        as (full & Hn & _ & Hall).
      exists full. intros len Hlen. cbv zeta. split.
      * rewrite Hrun, Hall by lia.
        cbn [fmap option_fmap option_map fst snd]. rewrite Hn. reflexivity.
      * rewrite length_app, length_take. cbn [length]. lia.
    + left. intros len Hlen. rewrite Hrun by lia.
      rewrite (out_vsnprintf_None 0 len) by (first [exact Hout | lia]).
      reflexivity.
  - intros len Hlen. unfold n_vsnprintf.
    destruct (Z.ltb_spec len 0); [|lia].
    rewrite !orb_true_r. reflexivity.
  - reflexivity.
  - intros len. unfold n_vsnprintf. cbn [Nat.eqb].
    rewrite orb_true_r. reflexivity.
Qed.

Lemma out_vsnprintf_decimal (len v : Z) :
  12 <= len -> - 2 ^ 31 < v < 2 ^ 31 ->
  exists chars,
    out_vsnprintf true len (Some [37; 100; 0]) [OutInt v]
    = Some (Z.of_nat (length chars), chars ++ [0])
    /\ no_NUL chars /\ (length chars <= 11)%nat
    /\ forall rest, n_atoi (chars ++ 0 :: rest) = Some v.
Proof.
  intros Hlen Hv. change (2 ^ 31) with 2147483648 in Hv.
  unfold out_vsnprintf. cbn [negb orb].
  destruct (Z.ltb_spec len 0); [lia|].
  cbn [out_loop Z.eqb Pos.eqb orb].
  rewrite (int32_small v) by (change (2 ^ 31) with 2147483648; lia).
  destruct (decimal_digits_spec 11 v [] 10)
    as (ds & Hds & Hdig & Hval & Hne & Hlen10);
    [change (10 ^ Z.of_nat 10) with 10000000000; lia | lia |].
  rewrite app_nil_r in Hds. unfold out_decimal. rewrite Hds.
  cbn [mbind option_bind].
  set (st0 := if v <? 0 then out_PUTCHAR len ([], 0) 45 else ([], 0)).
  set (sign := if v <? 0 then [45] else @nil Z).
  assert (Hst0 : stored len sign st0).
  { unfold st0, sign. destruct (v <? 0);
      [apply (out_PUTCHAR_stored len [] ([], 0) 45) | ]; apply stored_nil. }
  pose proof (foldl_out_PUTCHAR_stored len ds sign st0 Hst0) as [Hn Hf].
  rewrite (uint8_digits ds Hdig) in Hn, Hf.
  assert (Hsl : (length sign <= 1)%nat)
    by (unfold sign; destruct (v <? 0); cbn; lia).
  rewrite take_ge in Hf by (rewrite length_app; lia).
  exists (sign ++ ds). cbn [fst snd]. rewrite Hn, Hf.
  split; [reflexivity|]. split; [|split].
  - apply Forall_app. split.
    + unfold sign. destruct (v <? 0); repeat constructor. lia.
    + eapply Forall_impl; [exact Hdig|]. unfold is_digit. intros; lia.
  - rewrite length_app. lia.
  - intros rest. rewrite <- app_assoc.
    assert (H0 : ~ is_digit 0) by (unfold is_digit; lia).
    destruct (n_atoi_wraps ds 0 rest Hdig H0) as [Hneg Hpos].
    assert (Hdv : digits_value ds = Z.abs v) by exact Hval.
    unfold sign. destruct (Z.ltb_spec v 0).
    + cbn [app]. rewrite Hneg, Hdv. f_equal.
      rewrite (int32_small (Z.abs v))
        by (change (2 ^ 31) with 2147483648; lia).
      rewrite int32_small by (change (2 ^ 31) with 2147483648; lia). lia.
    + cbn [app]. rewrite Hpos by (left; exact Hne). rewrite Hdv. f_equal.
      rewrite int32_small by (change (2 ^ 31) with 2147483648; lia). lia.
Qed.

(** X29. Printing an [int] with ["%d"] into a buffer of at least 12 bytes
    that does not hold the format, and reading the buffer back with
    [n_atoi], gives the number again, for every [int] above [INT_MIN]; the
    count returned is the [n_strlen] of the string stored, and the bytes
    outside the buffer are left. *)
Theorem n_snprintf_n_atoi (mem : list Z) (buff format : nat) (len v : Z) :
  buff <> 0%nat -> format <> 0%nat ->
  12 <= len -> (buff + Z.to_nat len <= length mem)%nat ->
  string_at mem format [37; 100] ->
  apart buff (buff + Z.to_nat len) format 3 ->
  - 2 ^ 31 < v < 2 ^ 31 ->
  exists n mem',
    n_snprintf mem buff len format [VaInt v] = Some (n, mem')
    /\ n_strlen (drop buff mem') = Some n
    /\ n_atoi (drop buff mem') = Some v
    /\ length mem' = length mem
    /\ take buff mem' = take buff mem
    /\ drop (buff + Z.to_nat len) mem' = drop (buff + Z.to_nat len) mem.
Proof.
  intros Hb Hf Hlen Hbuff Hfmt Hap Hv.
  destruct (out_vsnprintf_decimal len v Hlen Hv)
    as (chars & Hout & Hnn & Hcl & Hatoi).
  assert (Hl : length (chars ++ [0]) = (length chars + 1)%nat)
    by (rewrite length_app; reflexivity).
  exists (Z.of_nat (length chars)), (written mem buff (chars ++ [0])).
  split; [|split; [|split; [|split; [|split]]]].
  - unfold n_snprintf.
    rewrite (n_vsnprintf_in_memory mem buff (Z.to_nat len) len format
               [37; 100] [VaInt v] [OutInt v])
      by (first [assumption | lia | reflexivity
                | repeat constructor]).
    change ([37; 100] ++ [0]) with [37; 100; 0]. rewrite Hout. reflexivity.
  - rewrite written_drop by lia. rewrite <- app_assoc.
    apply n_strlen_NUL, Hnn.
  - rewrite written_drop by lia. rewrite <- app_assoc. apply Hatoi.
  - apply written_length. lia.
  - unfold written. rewrite take_app_length' by (rewrite length_take; lia).
    reflexivity.
  - unfold written. rewrite !drop_app_ge
      by (rewrite ?length_take, ?Hl; lia).
    rewrite length_take, Hl, drop_drop. f_equal. lia.
Qed.

Lemma n_printf_in_memory (mem : list Z) (buff cap : nat) (format : nat)
    (fmt : list Z) (ap : list va_arg) (apl : list out_arg) (n : Z)
    (out : list Z) :
  buff <> 0%nat -> format <> 0%nat ->
  (200 <= cap)%nat -> (buff + cap <= length mem)%nat ->
  string_at mem format fmt ->
  apart buff (buff + cap) format (length fmt + 1) ->
  complete_format fmt = true ->
  Forall2 (arg_at mem buff (buff + cap)) ap apl ->
  out_vsnprintf true 200 (Some (fmt ++ [0])) apl = Some (n, out) ->
  n < 2 ^ 31 ->
  n_printf mem buff format ap
  = Some (if n >? 0 then Some (take (Z.to_nat (Z.min n 199)) out)
          else None).
Proof.
  intros Hb Hf Hcap Hbuff Hfmt Hap Hcf Hargs Hout Hint.
  change (2 ^ 31) with 2147483648 in Hint.
  destruct (out_vsnprintf_full 200 _ _ n out ltac:(lia) Hout)
    as (full & Hn & Hfull & _).
  change (Z.to_nat (200 - 1)) with 199%nat in Hfull.
  unfold n_printf.
  rewrite (n_vsnprintf_in_memory mem buff cap 200 format fmt ap apl)
    by (first [assumption | lia]).
  rewrite Hout. cbn [fmap option_fmap option_map mbind option_bind fst snd].
  assert (Hu : uint64 n = n).
  { apply to_uint_id. change (2 ^ 64) with 18446744073709551616. lia. }
  rewrite Hu. change (200 - 1) with 199.
  assert (Hol : (Z.to_nat (Z.min n 199) <= length out)%nat).
  { rewrite Hfull, length_app, length_take. cbn [length]. lia. }
  rewrite written_drop by lia.
  destruct (Z.geb_spec n 200) as [Hge|Hlt].
  - destruct (Z.gtb_spec n 0); [|lia]. cbn [Z.gtb Z.compare].
    do 2 f_equal. rewrite Z.min_r in * by lia.
    apply take_app_le. exact Hol.
  - destruct (Z.gtb_spec n 0); [|reflexivity].
    do 2 f_equal. destruct (Z.min_spec n 199) as [[_ E]|[_ E]];
      rewrite E in *.
    + apply take_app_le. exact Hol.
    + assert (n = 199) as -> by lia. apply take_app_le. exact Hol.
Qed.

(** X30. [n_printf], its local array holding neither the format nor a
    string argument: it hands to [Write] the first 199 characters of the
    output and nothing when the output is empty, whatever the array held
    before the call. With a null format, [n_vsnprintf] returns -1, the
    comparison with [sizeof(buff)] is unsigned, and [n_printf] hands to
    [Write] 199 bytes of the array it never initialised. *)
Theorem n_printf_truncates (mem : list Z) (buff cap : nat) (format : nat)
    (fmt : list Z) (ap : list va_arg) :
  buff <> 0%nat -> format <> 0%nat ->
  (200 <= cap)%nat -> (buff + cap <= length mem)%nat ->
  string_at mem format fmt ->
  apart buff (buff + cap) format (length fmt + 1) ->
  complete_format fmt = true ->
  Forall (arg_apart mem buff (buff + cap)) ap ->
  (forall n mem',
     n_vsnprintf mem buff 200 format ap = Some (n, mem') -> n < 2 ^ 31 ->
     exists full,
       n = Z.of_nat (length full)
       /\ (forall len, n < len <= Z.of_nat cap ->
             n_vsnprintf mem buff len format ap
             = Some (n, written mem buff (full ++ [0])))
       /\ n_printf mem buff format ap
          = Some (if n >? 0 then Some (take 199 full) else None)
       /\ (forall content, (length content <= cap)%nat ->
             n_printf (written mem buff content) buff format ap
             = n_printf mem buff format ap))
  /\ n_printf mem buff 0 ap = Some (Some (take 199 (drop buff mem))).
Proof.
  intros Hb Hf Hcap Hbuff Hfmt Hap Hcf Hargs.
  destruct (arg_apart_arg_at _ _ _ _ Hargs) as [apl Hapl].
  split.
  - intros n mem' Hrun Hint.
    rewrite (n_vsnprintf_in_memory mem buff cap 200 format fmt ap apl)
      in Hrun by (first [assumption | lia]).
    destruct (out_vsnprintf true 200 (Some (fmt ++ [0])) apl)
      as [[n' out]|] eqn:Hout; [|discriminate].
    cbn [fmap option_fmap option_map fst snd] in Hrun.
    injection Hrun as -> <-.
    destruct (out_vsnprintf_full 200 _ _ n out ltac:(lia) Hout)
      as (full & Hn & Hfull & Hall).
    change (Z.to_nat (200 - 1)) with 199%nat in Hfull.
    exists full. split; [exact Hn|]. split; [|split].
    + intros len Hlen.
      rewrite (n_vsnprintf_in_memory mem buff cap len format fmt ap apl)
        by (first [assumption | lia]).
      rewrite Hall by lia.
      cbn [fmap option_fmap option_map fst snd].
      rewrite take_ge by lia. reflexivity.
    + rewrite (n_printf_in_memory mem buff cap format fmt ap apl n out)
        by assumption.
      destruct (n >? 0); [|reflexivity]. do 2 f_equal.
      rewrite Hfull. apply take_app_length'. rewrite length_take. lia.
    + intros content Hcontent.
      rewrite (n_printf_in_memory mem buff cap format fmt ap apl n out)
        by assumption.
      apply (n_printf_in_memory _ buff cap format fmt ap apl n out);
        try assumption.
      * rewrite written_length by lia. exact Hbuff.
      * apply (string_at_written mem buff cap); assumption.
      * apply arg_at_written; assumption.
  - unfold n_printf, n_vsnprintf. cbn [Nat.eqb].
    rewrite orb_true_r. reflexivity.
Qed.

(** *** The calls on a concrete memory *)

Lemma string_at_memory :
  string_at memory 1 [97; 98; 99] /\ string_at memory 5 [37; 100]
  /\ string_at memory 8 [45; 52; 50].
Proof.
  repeat split; repeat constructor; lia.
Qed.

(** ["abc"] copied from address 1 to the buffer at 12. *)
Lemma n_strcpy_copies_witness :
  exists mem',
    n_strcpy memory 12 1 = Some (mem', 12%nat)
    /\ n_strlen (drop 12 mem') = Some 3
    /\ n_strcmp (drop 12 mem') (drop 1 mem') = Some 0.
Proof.
  destruct (n_strcpy_copies memory 12 1 [97; 98; 99]
              ltac:(lia) ltac:(lia) ltac:(cbn; lia)
              (proj1 string_at_memory) ltac:(cbn; lia)) as [H _].
  destruct (H ltac:(cbn; lia)) as (mem' & Hrun & _ & _ & _ & Hlen & Hcmp).
  exists mem'. split; [exact Hrun|]. split; [exact Hlen|].
  apply Hcmp. left. cbn. lia.
Defined.

(** ["abc"] appended to ["-42"] at address 8: the bytes go to 11 .. 14. *)
Lemma n_strcat_appends_witness :
  exists mem',
    n_strcat memory 8 1 = Some (mem', 8%nat)
    /\ mem' = written memory 11 [97; 98; 99; 0]
    /\ n_strlen (drop 8 mem') = Some 6.
Proof.
  destruct (n_strcat_appends memory 8 1 [45; 52; 50] [97; 98; 99]
              (proj2 (proj2 string_at_memory)) (proj1 string_at_memory)
              ltac:(cbn; lia)) as [H _].
  destruct (H ltac:(cbn; lia)) as (mem' & Hrun & Hmem & _ & _ & Hlen).
  exists mem'. split; [exact Hrun|]. split; [exact Hmem | exact Hlen].
Defined.

(** The 4 bytes of ["abc"] copied from address 1 to the buffer at 12. *)
Lemma n_memcpy_copies_witness :
  exists mem',
    n_memcpy memory 12 1 4 = Some (mem', 12%nat)
    /\ mem' = written memory 12 [97; 98; 99; 0]
    /\ n_memcmp (drop 12 mem') (drop 1 mem') 4 = Some 0.
Proof.
  destruct (n_memcpy_copies memory 12 1 4
              ltac:(lia) ltac:(lia) ltac:(lia) ltac:(cbn; lia)
              ltac:(cbn; lia)) as [H _].
  destruct (H ltac:(cbn; lia) ltac:(cbn; lia) ltac:(cbn; lia))
    as (mem' & Hrun & Hmem & _ & Hcmp).
  exists mem'. split; [exact Hrun|]. split; [exact Hmem|].
  apply Hcmp. left. cbn. lia.
Defined.

(** ["%d"] of -42 into 3 bytes and into none. *)
Lemma n_vsnprintf_truncates_witness :
  exists full,
    n_vsnprintf memory 12 3 5 [VaInt (-42)]
    = Some (Z.of_nat (length full),
            written memory 12 (take 2 full ++ [0]))
    /\ n_vsnprintf memory 12 0 5 [VaInt (-42)]
       = Some (Z.of_nat (length full), written memory 12 [0]).
Proof.
  destruct (n_vsnprintf_truncates memory 12 12 5 [37; 100] [VaInt (-42)]
              ltac:(lia) ltac:(lia) ltac:(lia) ltac:(cbn; lia)
              (proj1 (proj2 string_at_memory)) ltac:(left; cbn; lia)
              eq_refl ltac:(repeat constructor)) as [[Hnone|[full Hall]] _].
  - specialize (Hnone 3 ltac:(lia)). vm_compute in Hnone. discriminate.
  - exists full. split.
    + exact (proj1 (Hall 3 ltac:(lia))).
    + exact (proj1 (Hall 0 ltac:(lia))).
Defined.

(** ["%d"] of -42 into the 12 bytes at 12. *)
Lemma n_snprintf_n_atoi_witness :
  exists n mem',
    n_snprintf memory 12 12 5 [VaInt (-42)] = Some (n, mem')
    /\ n_strlen (drop 12 mem') = Some n
    /\ n_atoi (drop 12 mem') = Some (-42).
Proof.
  destruct (n_snprintf_n_atoi memory 12 5 12 (-42)
              ltac:(lia) ltac:(lia) ltac:(lia) ltac:(cbn; lia)
              (proj1 (proj2 string_at_memory)) ltac:(left; cbn; lia)
              ltac:(lia)) as (n & mem' & Hrun & Hlen & Hatoi & _).
  exists n, mem'. split; [exact Hrun|]. split; [exact Hlen | exact Hatoi].
Defined.

(** [n_printf("%d", -42)], and [n_printf] of a null format. *)
Lemma n_printf_truncates_witness :
  exists full,
    3 = Z.of_nat (length full)
    /\ n_printf memory_200 24 5 [VaInt (-42)] = Some (Some (take 199 full))
    /\ n_printf memory_200 24 0 [VaInt (-42)]
       = Some (Some (replicate 199 7)).
Proof.
  destruct (n_printf_truncates memory_200 24 200 5 [37; 100] [VaInt (-42)]
              ltac:(lia) ltac:(lia) ltac:(lia) ltac:(cbn; lia)
              ltac:(repeat split; repeat constructor; lia)
              ltac:(left; cbn; lia) eq_refl ltac:(repeat constructor))
    as [H Hnull].
  edestruct (H 3) as (full & Hn & _ & Hp & _);
    [vm_compute; reflexivity | lia |].
  exists full. split; [exact Hn|]. split; [exact Hp | exact Hnull].
Defined.

(** *** Arguments that overlap *)

(** [n_memcpy(buf + 1, buf, 3)] on the bytes 1, 2, 3, 4: the loop reads
    what it has just stored. *)
Lemma n_memcpy_forward_overlap :
  n_memcpy [9; 1; 2; 3; 4] 2 1 3 = Some ([9; 1; 1; 1; 1], 2%nat).
Proof. reflexivity. Qed.

(** [n_strcpy(buf + 1, buf)] overwrites the terminator before it reads it
    and runs to the end of the memory; [n_strcat(buf, buf)] leaves no
    terminator behind. *)
Lemma n_strcpy_n_strcat_overlap :
  n_strcpy [9; 97; 98; 0; 7; 7; 7; 0] 2 1 = None
  /\ n_strcat [9; 97; 98; 0; 7; 7; 7; 0] 1 1
     = Some ([9; 97; 98; 97; 98; 97; 7; 0], 1%nat).
Proof. split; reflexivity. Qed.

(** [n_snprintf(buf, len, "xx%s", buf)] with ["ab"] in a zeroed buffer:
    [%s] reads the characters as they are stored, up to the first byte
    that is never written. *)
Lemma n_snprintf_overlap :
  let mem := [9; 120; 120; 37; 115; 0; 97; 98] ++ replicate 14 0 in
  fst <$> n_snprintf mem 6 16 1 [VaStr 6] = Some 17
  /\ fst <$> n_snprintf mem 6 8 1 [VaStr 6] = Some 9.
Proof. split; vm_compute; reflexivity. Qed.
